(** * Claude relay: protocol translation, JSON repair and key-pool registry

    A shallow embedding of
    - [utils/json-tools.ts]  ([fixSingleQuoteJson], [safeParseJson],
      [fixToolCallArguments], [fixStreamingToolArgument]),
    - [ClaudeToOpenAITransformer] ([initializeClient], [getClient],
      [processRequest], the builders of the provider request,
      [transformMessages], [transformMessage], [transformTools],
      [transformToolChoice], [cleanupParameters], [transformResponse],
      [transformStreamResponse] and its helpers in both revisions,
      [mapFinishReason]),
    - [KeyPoolManager] ([getOrCreatePool], [createPool], [getPool],
      [removePool]),
    - the validators of the request body of the provider routes,
    followed by the properties of these functions.

    Conventions.  A JavaScript string is a [string]; every [ascii] stands for
    one code unit below 256.  [try]/[catch] is written in the exception monad
    [Exc]; the built-ins [JSON.parse] and [JSON.stringify] and the clock are
    the fields of the class [JSRuntime], so every definition and every general
    theorem is stated for an arbitrary runtime.  A reference runtime written
    after RFC 8259 / ECMA-262 is provided for closed computations. *)

From Stdlib Require Import ZArith Lia Bool Ascii String.
From stdpp Require Import base option list strings gmap pretty.

Local Open Scope list_scope.

(* ===================================================================== *)
(** ** JavaScript values and exceptions                                   *)
(* ===================================================================== *)

(** Thrown values: the class of the error and its [message]. *)
Inductive JSErrorKind := SyntaxError | TypeError | PlainError.

Record JSError := mkError { err_kind : JSErrorKind; err_message : string }.

(** A computation that returns or throws. *)
Inductive Exc (A : Type) : Type :=
| Ok (a : A)
| Throw (e : JSError).
Arguments Ok {A} a.
Arguments Throw {A} e.

Definition exc_bind {A B} (m : Exc A) (k : A -> Exc B) : Exc B :=
  match m with
  | Ok a => k a
  | Throw e => Throw e
  end.

(** [try { m } catch (e) { h e }] *)
Definition try_catch {A} (m : Exc A) (h : JSError -> Exc A) : Exc A :=
  match m with
  | Ok a => Ok a
  | Throw e => h e
  end.

Definition returns {A} (m : Exc A) : bool :=
  match m with Ok _ => true | Throw _ => false end.

#[global] Instance exc_mret : MRet Exc := fun A a => Ok a.
#[global] Instance exc_mbind : MBind Exc := fun A B k m => exc_bind m k.

(** A JSON number is kept as the exact decimal [num_mant * 10 ^ num_exp];
    binary rounding of doubles is not part of the model. *)
Record JSNumber := mkNum { num_mant : Z; num_exp : Z }.

(** The values [JSON.parse] produces.  An object is its own enumerable
    properties in enumeration order. *)
#[warnings="-register-all"]
Inductive JSON : Type :=
| JNull
| JBool (b : bool)
| JNum (n : JSNumber)
| JStr (s : string)
| JArr (items : list JSON)
| JObj (props : list (string * JSON)).

(** The literal [{}]. *)
Definition empty_object : JSON := JObj [].

(** ToBoolean on the values above. *)
Definition truthy (v : JSON) : bool :=
  match v with
  | JNull => false
  | JBool b => b
  | JNum n => negb (num_mant n =? 0)%Z
  | JStr s => negb (String.eqb s "")
  | JArr _ | JObj _ => true
  end.

(** [v || d] *)
Definition or_default (v d : JSON) : JSON := if truthy v then v else d.

(** ToBoolean on a string, and on a possibly absent one. *)
Definition str_truthy (s : string) : bool := negb (String.eqb s "").

Definition opt_truthy (o : option string) : bool :=
  match o with Some s => str_truthy s | None => false end.

(** The built-ins the source calls: the parser, the serialiser and the
    reading of the clock during the turn. *)
Class JSRuntime := {
  JSON_parse : string -> Exc JSON;
  JSON_stringify : JSON -> string;
  Date_now : N
}.

(* ===================================================================== *)
(** ** String primitives                                                  *)
(* ===================================================================== *)

Definition chr (n : nat) : ascii := ascii_of_nat n.

Definition dquote : ascii := chr 34.
Definition backslash : ascii := chr 92.
Definition sentinel : ascii := chr 1.

(** White space and line terminators below 256: the class [\s] of a regular
    expression and the characters [String.prototype.trim] strips. *)
Definition is_space (c : ascii) : bool :=
  let n := nat_of_ascii c in
  (Nat.leb 9 n && Nat.leb n 13) || Nat.eqb n 32 || Nat.eqb n 160.

Definition chars (s : string) : list ascii := list_ascii_of_string s.
Definition str (l : list ascii) : string := string_of_list_ascii l.

(** Longest prefix satisfying [p], and the rest. *)
Fixpoint span (p : ascii -> bool) (l : list ascii) : list ascii * list ascii :=
  match l with
  | c :: tl =>
      if p c then let '(a, b) := span p tl in (c :: a, b) else ([], l)
  | [] => ([], [])
  end.

Definition trim_start (l : list ascii) : list ascii := snd (span is_space l).

Definition trim (s : string) : string :=
  str (rev (trim_start (rev (trim_start (chars s))))).

Definition startsWith (s : string) (c : ascii) : bool :=
  match s with
  | String d _ => Ascii.eqb d c
  | EmptyString => false
  end.

Definition endsWith (s : string) (c : ascii) : bool :=
  match rev (chars s) with
  | d :: _ => Ascii.eqb d c
  | [] => false
  end.

(* ===================================================================== *)
(** ** Global regular-expression replacement                              *)
(* ===================================================================== *)

(** A pattern is given by its matcher at one position: the replacement text
    and the number of characters the match covers (always at least one for
    the patterns below).  [replace_all] is [String.prototype.replace] with a
    [/g] expression: scan left to right, replace the leftmost match, resume
    right after it. *)
Definition matcher := list ascii -> option (list ascii * nat).

Fixpoint replace_from (m : matcher) (l : list ascii) (skip : nat) : list ascii :=
  match l with
  | [] => []
  | c :: tl =>
      match skip with
      | S k => replace_from m tl k
      | O =>
          match m l with
          | Some (rep, n) => rep ++ replace_from m tl (pred n)
          | None => c :: replace_from m tl 0
          end
      end
  end.

Definition replace_all (m : matcher) (s : string) : string :=
  str (replace_from m (chars s) 0).

(** A quote, a run of non-quotes, a quote, at the head of [l]: the text
    between the quotes and the rest.  The run is greedy, and the character
    that ends it is necessarily the closing quote, so there is nothing to
    backtrack over. *)
Definition quoted (l : list ascii) : option (list ascii * list ascii) :=
  match l with
  | q :: tl =>
      if Ascii.eqb "'"%char q then
        let '(body, rest) := span (fun c => negb (Ascii.eqb "'"%char c)) tl in
        match rest with
        | _ :: rest' => Some (body, rest')
        | [] => None
        end
      else None
  | [] => None
  end.

Definition dq (body : list ascii) : list ascii := dquote :: body ++ [dquote].

(** A backslash followed by a quote becomes the sentinel U+0001. *)
Definition m_escaped_quote : matcher := fun l =>
  match l with
  | a :: b :: _ =>
      if Ascii.eqb "\"%char a && Ascii.eqb "'"%char b then Some ([sentinel], 2) else None
  | _ => None
  end.

(** Object keys: optional blanks, a quoted run, optional blanks, a colon;
    the quotes of the run become double quotes. *)
Definition m_key : matcher := fun l =>
  let '(ws1, l1) := span is_space l in
  match quoted l1 with
  | Some (body, l2) =>
      let '(ws3, l3) := span is_space l2 in
      match l3 with
      | c :: _ =>
          if Ascii.eqb ":"%char c then
            Some (ws1 ++ dq body ++ ws3 ++ [c],
                  length ws1 + (length body + 2) + length ws3 + 1)
          else None
      | [] => None
      end
  | None => None
  end.

(** A one-character prefix (a colon for values, an opening bracket or a
    comma for array items, an opening brace for nested objects), optional
    blanks, a quoted run; the quotes of the run become double quotes. *)
Definition m_after (x : ascii) : matcher := fun l =>
  match l with
  | c :: tl =>
      if Ascii.eqb x c then
        let '(ws, l1) := span is_space tl in
        match quoted l1 with
        | Some (body, _) =>
            Some (c :: ws ++ dq body, 1 + length ws + (length body + 2))
        | None => None
        end
      else None
  | [] => None
  end.

(** The sentinel becomes a backslash followed by a double quote. *)
Definition m_sentinel : matcher := fun l =>
  match l with
  | c :: _ => if Ascii.eqb sentinel c then Some ([backslash; dquote], 1) else None
  | [] => None
  end.

(** Every quote becomes a double quote. *)
Definition m_any_quote : matcher := fun l =>
  match l with
  | c :: _ => if Ascii.eqb "'"%char c then Some ([dquote], 1) else None
  | [] => None
  end.

(** The chain of substitutions in the [try] block of [fixSingleQuoteJson]. *)
Definition regex_repair (fixed : string) : string :=
  let fixed := replace_all m_escaped_quote fixed in
  let fixed := replace_all m_key fixed in
  let fixed := replace_all (m_after ":"%char) fixed in
  let fixed := replace_all (m_after "["%char) fixed in
  let fixed := replace_all (m_after ","%char) fixed in
  let fixed := replace_all (m_after "{"%char) fixed in
  replace_all m_sentinel fixed.

Arguments trim : simpl never.
Arguments replace_all : simpl never.
Arguments regex_repair : simpl never.
Arguments startsWith : simpl never.
Arguments endsWith : simpl never.

(* ===================================================================== *)
(** ** utils/json-tools.ts                                                *)
(* ===================================================================== *)

Section JsonTools.
Context `{RT : JSRuntime}.

(** The last-resort branch: [Some r] when the branch returns [r], [None]
    when control falls out of its [try]/[catch]. *)
Definition aggressive_fix (fixed : string) : option string :=
  if startsWith fixed ("{"%char) && endsWith fixed ("}"%char) then
    let aggressiveFix := replace_all m_any_quote fixed in
    match JSON_parse aggressiveFix with
    | Ok _ => Some aggressiveFix
    | Throw _ => None
    end
  else None.

Definition fixSingleQuoteJson (jsonStr : string) : Exc string :=
  if negb (str_truthy jsonStr) then Ok jsonStr
  else
    match JSON_parse jsonStr with
    | Ok _ => Ok jsonStr
    | Throw _ =>
        let fixed := trim jsonStr in
        if negb (startsWith fixed ("{"%char)) && negb (startsWith fixed ("["%char))
        then Ok jsonStr
        else
          let fixed := regex_repair fixed in
          try_catch (_ ← JSON_parse fixed; Ok fixed)
            (fun _ =>
               match aggressive_fix fixed with
               | Some r => Ok r
               | None => Ok jsonStr
               end)
    end.

Definition safeParseJson (jsonStr : string) (defaultValue : JSON) : Exc JSON :=
  if negb (str_truthy jsonStr) then Ok defaultValue
  else
    try_catch (JSON_parse jsonStr)
      (fun _ =>
         r ← try_catch
               (fixed ← fixSingleQuoteJson jsonStr;
                if negb (String.eqb fixed jsonStr)
                then v ← JSON_parse fixed; Ok (Some v)
                else Ok None)
               (fun _ => Ok None);
         match r with
         | Some v => Ok v
         | None => Ok defaultValue
         end).

Definition fixToolCallArguments (argsStr : string) : Exc JSON :=
  safeParseJson argsStr empty_object.

End JsonTools.

Arguments aggressive_fix : simpl never.

(* ===================================================================== *)
(** ** A reference runtime                                                *)
(* ===================================================================== *)

(** [JSON.parse] after the JSON grammar (RFC 8259) and [JSON.stringify]
    after ECMA-262, on the alphabet of code units below 256: a [\u] escape
    that denotes a larger code unit is outside the alphabet and is refused.
    Numbers are exact decimals. *)
Module Reference.

Definition is_json_ws (c : ascii) : bool :=
  let n := nat_of_ascii c in
  Nat.eqb n 9 || Nat.eqb n 10 || Nat.eqb n 13 || Nat.eqb n 32.

Definition skip_ws (l : list ascii) : list ascii := snd (span is_json_ws l).

Definition is_digit (c : ascii) : bool :=
  let n := nat_of_ascii c in Nat.leb 48 n && Nat.leb n 57.

Definition digit_val (c : ascii) : Z := Z.of_nat (nat_of_ascii c - 48).

Definition digits_val (ds : list ascii) : Z :=
  foldl (fun acc c => (10 * acc + digit_val c)%Z) 0%Z ds.

Definition hex_val (c : ascii) : option nat :=
  let n := nat_of_ascii c in
  if Nat.leb 48 n && Nat.leb n 57 then Some (n - 48)
  else if Nat.leb 65 n && Nat.leb n 70 then Some (n - 55)
  else if Nat.leb 97 n && Nat.leb n 102 then Some (n - 87)
  else None.

(** The characters of a string literal after its opening quote. *)
Fixpoint parse_string (l : list ascii) : option (list ascii * list ascii) :=
  match l with
  | [] => None
  | c :: tl =>
      if Ascii.eqb dquote c then Some ([], tl)
      else if Ascii.eqb "\"%char c then
        match tl with
        | e :: tl' =>
            let simple (x : nat) :=
              '(s, r) ← parse_string tl'; Some (chr x :: s, r) in
            match nat_of_ascii e with
            | 34 => simple 34
            | 92 => simple 92
            | 47 => simple 47
            | 98 => simple 8
            | 102 => simple 12
            | 110 => simple 10
            | 114 => simple 13
            | 116 => simple 9
            | 117 =>
                match tl' with
                | h1 :: h2 :: h3 :: h4 :: tl'' =>
                    a ← hex_val h1; b ← hex_val h2;
                    c3 ← hex_val h3; d ← hex_val h4;
                    let u := ((a * 16 + b) * 16 + c3) * 16 + d in
                    if Nat.ltb u 256
                    then '(s, r) ← parse_string tl''; Some (chr u :: s, r)
                    else None
                | _ => None
                end
            | _ => None
            end
        | [] => None
        end
      else if Nat.ltb (nat_of_ascii c) 32 then None
      else '(s, r) ← parse_string tl; Some (c :: s, r)
  end.

(** Drops the trailing zeros of a digit string and counts them. *)
Definition strip_zeros (ds : list ascii) : list ascii * nat :=
  let '(zs, rest) := span (Ascii.eqb "0"%char) (rev ds) in (rev rest, length zs).

Definition normalise (neg : bool) (ds : list ascii) (e : Z) : JSNumber :=
  let '(ds', z) := strip_zeros ds in
  let m := digits_val ds' in
  if (m =? 0)%Z then mkNum 0 0
  else mkNum (if neg then (- m)%Z else m) (e + Z.of_nat z).

Definition parse_exponent (l : list ascii) : option (Z * list ascii) :=
  match l with
  | e :: tl =>
      if Ascii.eqb "e"%char e || Ascii.eqb "E"%char e then
        let '(neg, tl) :=
          match tl with
          | s :: tl' =>
              if Ascii.eqb "-"%char s then (true, tl')
              else if Ascii.eqb "+"%char s then (false, tl')
              else (false, tl)
          | [] => (false, tl)
          end in
        let '(ds, rest) := span is_digit tl in
        match ds with
        | [] => None
        | _ => Some (if neg then (- digits_val ds)%Z else digits_val ds, rest)
        end
      else Some (0%Z, l)
  | [] => Some (0%Z, l)
  end.

Definition parse_number (l : list ascii) : option (JSNumber * list ascii) :=
  let '(neg, l) :=
    match l with
    | s :: tl => if Ascii.eqb "-"%char s then (true, tl) else (false, l)
    | [] => (false, l)
    end in
  let '(ip, l1) := span is_digit l in
  match ip with
  | [] => None
  | d :: more =>
      if Ascii.eqb "0"%char d && negb (bool_decide (more = [])) then None
      else
        fr ← match l1 with
             | p :: tl =>
                 if Ascii.eqb "."%char p then
                   let '(fp, l2) := span is_digit tl in
                   match fp with [] => None | _ => Some (fp, l2) end
                 else Some ([], l1)
             | [] => Some ([], l1)
             end;
        let '(fp, l2) := fr in
        '(e, l3) ← parse_exponent l2;
        Some (normalise neg (ip ++ fp) (e - Z.of_nat (length fp)), l3)
  end.

(** An array index in the sense of ECMA-262: a canonical numeric string
    below [2^32 - 1].  Such keys are enumerated first, in ascending order. *)
Definition array_index (k : string) : option Z :=
  let ds := chars k in
  match ds with
  | [] => None
  | d :: more =>
      if forallb is_digit ds
         && negb (Ascii.eqb "0"%char d && negb (bool_decide (more = [])))
         && (digits_val ds <? 4294967295)%Z
      then Some (digits_val ds) else None
  end.

Fixpoint has_key (k : string) (props : list (string * JSON)) : bool :=
  match props with
  | (k', _) :: tl => String.eqb k k' || has_key k tl
  | [] => false
  end.

Fixpoint overwrite (k : string) (v : JSON) (props : list (string * JSON))
  : list (string * JSON) :=
  match props with
  | (k', v') :: tl =>
      if String.eqb k k' then (k, v) :: tl else (k', v') :: overwrite k v tl
  | [] => []
  end.

Fixpoint insert_index (n : Z) (k : string) (v : JSON)
  (props : list (string * JSON)) : list (string * JSON) :=
  match props with
  | (k', v') :: tl =>
      match array_index k' with
      | Some n' =>
          if (n <? n')%Z then (k, v) :: props
          else (k', v') :: insert_index n k v tl
      | None => (k, v) :: props
      end
  | [] => [(k, v)]
  end.

(** Defining property [k] on an object under construction. *)
Definition define_property (props : list (string * JSON)) (k : string) (v : JSON)
  : list (string * JSON) :=
  if has_key k props then overwrite k v props
  else match array_index k with
       | Some n => insert_index n k v props
       | None => props ++ [(k, v)]
       end.

Definition literal (w : string) (l : list ascii) : option (list ascii) :=
  let w := chars w in
  if bool_decide (take (length w) l = w) then Some (drop (length w) l) else None.

Fixpoint parse_value (fuel : nat) (l : list ascii) : option (JSON * list ascii) :=
  match fuel with
  | O => None
  | S fuel =>
      match skip_ws l with
      | [] => None
      | c :: tl =>
          match nat_of_ascii c with
          | 34 => '(s, r) ← parse_string tl; Some (JStr (str s), r)
          | 91 =>
              match skip_ws tl with
              | d :: r => if Ascii.eqb "]"%char d then Some (JArr [], r)
                          else parse_items fuel tl []
              | [] => None
              end
          | 123 =>
              match skip_ws tl with
              | d :: r => if Ascii.eqb "}"%char d then Some (JObj [], r)
                          else parse_members fuel tl []
              | [] => None
              end
          | 110 => r ← literal "null" (c :: tl); Some (JNull, r)
          | 116 => r ← literal "true" (c :: tl); Some (JBool true, r)
          | 102 => r ← literal "false" (c :: tl); Some (JBool false, r)
          | _ => '(n, r) ← parse_number (c :: tl); Some (JNum n, r)
          end
      end
  end
with parse_items (fuel : nat) (l : list ascii) (acc : list JSON)
  : option (JSON * list ascii) :=
  match fuel with
  | O => None
  | S fuel =>
      '(v, r) ← parse_value fuel l;
      match skip_ws r with
      | d :: r' =>
          if Ascii.eqb ","%char d then parse_items fuel r' (acc ++ [v])
          else if Ascii.eqb "]"%char d then Some (JArr (acc ++ [v]), r')
          else None
      | [] => None
      end
  end
with parse_members (fuel : nat) (l : list ascii) (acc : list (string * JSON))
  : option (JSON * list ascii) :=
  match fuel with
  | O => None
  | S fuel =>
      match skip_ws l with
      | q :: tl =>
          if Ascii.eqb dquote q then
            '(k, r) ← parse_string tl;
            match skip_ws r with
            | colon :: r1 =>
                if Ascii.eqb ":"%char colon then
                  '(v, r2) ← parse_value fuel r1;
                  let acc := define_property acc (str k) v in
                  match skip_ws r2 with
                  | d :: r3 =>
                      if Ascii.eqb ","%char d then parse_members fuel r3 acc
                      else if Ascii.eqb "}"%char d then Some (JObj acc, r3)
                      else None
                  | [] => None
                  end
                else None
            | [] => None
            end
          else None
      | [] => None
      end
  end.

Definition syntax_error : JSError := mkError SyntaxError "Unexpected token".

Definition parse (s : string) : Exc JSON :=
  let l := chars s in
  match parse_value (2 * length l + 2) l with
  | Some (v, r) =>
      match skip_ws r with
      | [] => Ok v
      | _ :: _ => Throw syntax_error
      end
  | None => Throw syntax_error
  end.

(** *** Serialisation *)

Definition hex_digit (n : nat) : ascii :=
  if Nat.ltb n 10 then chr (48 + n) else chr (87 + n).

Definition quote_char (c : ascii) : list ascii :=
  match nat_of_ascii c with
  | 34 => [backslash; dquote]
  | 92 => [backslash; backslash]
  | 8 => [backslash; "b"%char]
  | 12 => [backslash; "f"%char]
  | 10 => [backslash; "n"%char]
  | 13 => [backslash; "r"%char]
  | 9 => [backslash; "t"%char]
  | n =>
      if Nat.ltb n 32
      then [backslash; "u"%char; "0"%char; "0"%char; hex_digit (n / 16); hex_digit (n mod 16)]
      else [c]
  end.

Definition quote (s : string) : list ascii :=
  dq (concat (map quote_char (chars s))).

Definition zeros (n : nat) : list ascii := replicate n ("0"%char).

(** Number::toString for a number with decimal digits [ds] and decimal
    point after [n] of them. *)
Definition number_to_chars (x : JSNumber) : list ascii :=
  if (num_mant x =? 0)%Z then ["0"%char]
  else
    let sign := if (num_mant x <? 0)%Z then ["-"%char] else [] in
    let ds := chars (pretty (Z.abs (num_mant x))) in
    let k := Z.of_nat (length ds) in
    let n := (k + num_exp x)%Z in
    sign ++
    if ((k <=? n) && (n <=? 21))%Z then ds ++ zeros (Z.to_nat (n - k))
    else if ((0 <? n) && (n <=? 21))%Z
    then take (Z.to_nat n) ds ++ ["."%char] ++ drop (Z.to_nat n) ds
    else if ((-6 <? n) && (n <=? 0))%Z
    then ["0"%char; "."%char] ++ zeros (Z.to_nat (- n)) ++ ds
    else
      let e := (n - 1)%Z in
      let es := (if (e <? 0)%Z then ["-"%char] else ["+"%char])
                  ++ chars (pretty (Z.abs e)) in
      match ds with
      | [d] => d :: "e"%char :: es
      | d :: more => d :: "."%char :: more ++ "e"%char :: es
      | [] => []
      end.

Fixpoint join (sep : list ascii) (parts : list (list ascii)) : list ascii :=
  match parts with
  | [] => []
  | [p] => p
  | p :: tl => p ++ sep ++ join sep tl
  end.

Fixpoint to_chars (v : JSON) : list ascii :=
  match v with
  | JNull => chars "null"
  | JBool true => chars "true"
  | JBool false => chars "false"
  | JNum n => number_to_chars n
  | JStr s => quote s
  | JArr items => "["%char :: join [","%char] (map to_chars items) ++ ["]"%char]
  | JObj props =>
      "{"%char ::
        join [","%char] (map (fun kv => quote (fst kv) ++ ":"%char :: to_chars (snd kv)) props)
        ++ ["}"%char]
  end.

Definition stringify (v : JSON) : string := str (to_chars v).

Definition runtime : JSRuntime :=
  {| JSON_parse := parse; JSON_stringify := stringify; Date_now := 1700000000000%N |}.

End Reference.

(* ===================================================================== *)
(** ** ClaudeToOpenAITransformer: request side                            *)
(* ===================================================================== *)

(** *** [transformToolChoice] *)

(** What can reach the function at run time: a string, an object with a
    [type] and possibly a [name] property, [null]/[undefined], or any other
    primitive. *)
Inductive ToolChoiceParam :=
| ChoiceString (s : string)
| ChoiceObject (type : option string) (name : option string)
| ChoiceAbsent
| ChoicePrimitive.

Inductive ChatCompletionToolChoiceOption :=
| choice_none
| choice_auto
| choice_function (name : string).

Definition transformToolChoice (toolChoice : ToolChoiceParam)
  : ChatCompletionToolChoiceOption :=
  match toolChoice with
  | ChoiceString s => if String.eqb s "none" then choice_none else choice_auto
  | ChoiceObject type name =>
      match bool_decide (type = Some "tool"), name with
      | true, Some n => choice_function n
      | _, _ => if bool_decide (type = Some "auto") then choice_auto else choice_none
      end
  | ChoiceAbsent | ChoicePrimitive => choice_auto
  end.

(** *** [transformMessage] *)

Inductive ImageSource :=
| Base64Source (media_type data : string)
| OtherSource.

(** The [content] of a [tool_result] block: a string, a block array (kept as
    the value handed to [JSON.stringify]), or nothing. *)
Inductive ToolResultContent :=
| ResultText (s : string)
| ResultBlocks (v : JSON)
| ResultAbsent.

(** Content blocks of a request; [name = None] stands for a missing or
    non-string tool name, [OtherBlockParam] for a type the [switch] has no
    case for. *)
Inductive ContentBlockParam :=
| TextBlockParam (text : string)
| ImageBlockParam (source : ImageSource)
| ToolUseBlockParam (id : string) (name : option string) (input : option JSON)
| ToolResultBlockParam (tool_use_id : string) (content : ToolResultContent)
| OtherBlockParam (type : string).

Inductive MessageContent :=
| ContentString (s : string)
| ContentArray (blocks : list ContentBlockParam)
| ContentOther.

Record MessageParam := mkMessageParam {
  mp_role : string;
  mp_content : MessageContent
}.

Inductive Role := user | assistant.

Inductive ContentPart :=
| TextPart (text : string)
| ImageUrlPart (url : string).

Record FunctionToolCall := mkCall {
  call_id : string;
  call_name : string;
  call_arguments : string
}.

Inductive PartsOrString :=
| Parts (parts : list ContentPart)
| Plain (s : string).

(** A provider message: a user/assistant message or a [role: 'tool']
    message; the content of the latter is [None] when [JSON.stringify]
    yields [undefined]. *)
Inductive ChatCompletionMessageParam :=
| RoleMessage (role : Role) (content : PartsOrString)
    (tool_calls : option (list FunctionToolCall))
| ToolMessage (content : option string) (tool_call_id : string).

Definition is_tool_result (b : ContentBlockParam) : bool :=
  match b with ToolResultBlockParam _ _ => true | _ => false end.

(** How the [for] loop over the blocks ends: by the [return] of the
    [tool_result] case or by exhausting the array. *)
Inductive LoopOutcome :=
| Returned (m : ChatCompletionMessageParam)
| Completed (content : list ContentPart) (toolCalls : list FunctionToolCall).

Section Request.
Context `{RT : JSRuntime}.

Definition tool_message (tool_use_id : string) (c : ToolResultContent)
  : ChatCompletionMessageParam :=
  ToolMessage
    match c with
    | ResultText s => Some s
    | ResultBlocks v => Some (JSON_stringify v)
    | ResultAbsent => None
    end
    tool_use_id.

Fixpoint scan_blocks (items : list ContentBlockParam)
  (content : list ContentPart) (toolCalls : list FunctionToolCall) : LoopOutcome :=
  match items with
  | [] => Completed content toolCalls
  | item :: rest =>
      match item with
      | TextBlockParam text => scan_blocks rest (content ++ [TextPart text]) toolCalls
      | ImageBlockParam (Base64Source media_type data) =>
          scan_blocks rest
            (content ++ [ImageUrlPart ("data:" +:+ media_type +:+ ";base64," +:+ data)])
            toolCalls
      | ImageBlockParam OtherSource => scan_blocks rest content toolCalls
      | ToolUseBlockParam id name input =>
          match name with
          | Some n =>
              if str_truthy n then
                scan_blocks rest content
                  (toolCalls ++
                     [mkCall id n
                        (JSON_stringify
                           (match input with
                            | Some v => or_default v empty_object
                            | None => empty_object
                            end))])
              else scan_blocks rest content toolCalls
          | None => scan_blocks rest content toolCalls
          end
      | ToolResultBlockParam tool_use_id c => Returned (tool_message tool_use_id c)
      | OtherBlockParam _ => scan_blocks rest content toolCalls
      end
  end.

Definition transformMessage (message : MessageParam)
  : option ChatCompletionMessageParam :=
  let role := if String.eqb (mp_role message) "assistant" then assistant else user in
  match mp_content message with
  | ContentString s => Some (RoleMessage role (Plain s) None)
  | ContentArray items =>
      match scan_blocks items [] [] with
      | Returned m => Some m
      | Completed content toolCalls =>
          Some (RoleMessage role
                  (match content with [] => Plain "" | _ => Parts content end)
                  (match toolCalls, role with
                   | _ :: _, assistant => Some toolCalls
                   | _, _ => None
                   end))
      end
  | ContentOther => None
  end.

End Request.

(* ===================================================================== *)
(** ** [mapFinishReason]                                                  *)
(* ===================================================================== *)

Inductive StopReason := end_turn | max_tokens | stop_sequence | tool_use.

(** What a [stop_reason] field can hold at run time: a canonical reason, a
    member of [Object.prototype] picked up by a property lookup, or the
    literal ['error'] of the recovery events. *)
Inductive StopValue :=
| Canonical (r : StopReason)
| PrototypeMember (name : string)
| ErrorLiteral.

Definition is_canonical (v : StopValue) : bool :=
  match v with Canonical _ => true | _ => false end.

(** The own properties of the object literal [mapping]. *)
Definition mapping : gmap string StopReason :=
  <["stop" := end_turn]>
    (<["length" := max_tokens]>
       (<["tool_calls" := tool_use]>
          (<["content_filter" := end_turn]> ∅))).

(** The property names every object literal inherits from
    [Object.prototype] (ECMA-262, with Annex B); all of them hold functions
    or objects, hence truthy values. *)
Definition Object_prototype : list string :=
  [ "constructor"; "hasOwnProperty"; "isPrototypeOf"; "propertyIsEnumerable";
    "toLocaleString"; "toString"; "valueOf"; "__proto__";
    "__defineGetter__"; "__defineSetter__"; "__lookupGetter__"; "__lookupSetter__" ].

(** [mapping[reason]]: own properties first, then the prototype. *)
Definition mapping_get (reason : string) : option StopValue :=
  match mapping !! reason with
  | Some r => Some (Canonical r)
  | None =>
      if bool_decide (reason ∈ Object_prototype)
      then Some (PrototypeMember reason) else None
  end.

Definition mapFinishReason (reason : option string) : StopValue :=
  match reason with
  | None => Canonical end_turn
  | Some r =>
      if negb (str_truthy r) then Canonical end_turn
      else default (Canonical end_turn) (mapping_get r)
  end.

(* ===================================================================== *)
(** ** ClaudeToOpenAITransformer: response side                           *)
(* ===================================================================== *)

(** *** Provider data *)

Record FunctionDelta := mkFunctionDelta {
  fd_name : option string;
  fd_arguments : option string
}.

Record ToolCallDelta := mkToolCallDelta {
  tcd_index : option nat;
  tcd_id : option string;
  tcd_function : option FunctionDelta
}.

Record ChoiceDelta := mkDelta {
  delta_content : option string;
  delta_tool_calls : option (list ToolCallDelta)
}.

Record ChunkChoice := mkChunkChoice {
  choice_delta : ChoiceDelta;
  choice_finish_reason : option string
}.

Record ChatCompletionChunk := mkChunk {
  chunk_model : string;
  chunk_choices : list ChunkChoice
}.

Record Usage := mkUsage { prompt_tokens : nat; completion_tokens : nat }.

(** A JavaScript array that may have holes. *)
Abbreviation sparse A := (list (option A)) (only parsing).

Record CompletionChoice := mkChoice {
  message_content : option string;
  message_tool_calls : option (sparse FunctionToolCall);
  finish_reason : option string
}.

Record ChatCompletion := mkCompletion {
  completion_id : string;
  completion_model : string;
  completion_choices : list CompletionChoice;
  completion_usage : option Usage
}.

(** *** Canonical data *)

Inductive ContentBlock :=
| TextBlock (text : string)
| ToolUseBlock (id name : string) (input : JSON).

Record Message := mkMessage {
  msg_id : string;
  msg_model : string;
  msg_content : list ContentBlock;
  msg_stop_reason : option StopValue;
  msg_input_tokens : nat;
  msg_output_tokens : nat
}.

Inductive BlockDelta :=
| text_delta (text : string)
| input_json_delta (partial_json : string).

(** The frames [createSSEEvent] formats, by event name, with the fields of
    their payloads. *)
Inductive SSEEvent :=
| message_start (message : Message)
| content_block_start (index : nat) (content_block : ContentBlock)
| content_block_delta (index : nat) (delta : BlockDelta)
| content_block_stop (index : nat)
| message_delta (stop_reason : option StopValue)
| message_stop.

(** *** A [Map] in insertion order, and array assignment *)

Section JSMap.
Context {V : Type}.

Definition JSMap := list (nat * V).

Fixpoint map_get (k : nat) (m : JSMap) : option V :=
  match m with
  | (k', v) :: tl => if Nat.eqb k k' then Some v else map_get k tl
  | [] => None
  end.

Definition map_has (k : nat) (m : JSMap) : bool := bool_decide (is_Some (map_get k m)).

(** [m.set(k, v)]: a new key goes last, a known key keeps its place. *)
Fixpoint map_set (k : nat) (v : V) (m : JSMap) : JSMap :=
  match m with
  | (k', v') :: tl =>
      if Nat.eqb k k' then (k, v) :: tl else (k', v') :: map_set k v tl
  | [] => [(k, v)]
  end.

(** [a[i] = v]: in range the slot is overwritten, out of range the array
    grows and the slots in between stay empty. *)
Definition array_set (a : sparse V) (i : nat) (v : V) : sparse V :=
  if Nat.ltb i (length a) then <[i := Some v]> a
  else a ++ replicate (i - length a) None ++ [Some v].

End JSMap.
Arguments JSMap V : clear implicits.

(** *** The controller of the outgoing stream *)

(** What has been handed to [controller.enqueue], in order, the error given
    to [controller.error] if any, and whether [controller.close] ran.  The
    list [emitted] is the log of the calls of [enqueue], as the transformer
    makes them; what reaches the consumer of the stream is given by
    [receives] below. *)
Record Controller := mkController {
  emitted : list SSEEvent;
  errored : option JSError;
  closed : bool
}.

Definition fresh_controller : Controller := mkController [] None false.

Definition readable (c : Controller) : bool :=
  negb (closed c) && negb (bool_decide (is_Some (errored c))).

(** Code that uses the controller and may throw. *)
Definition Eff (A : Type) : Type := Controller -> Exc A * Controller.

#[global] Instance eff_mret : MRet Eff := fun A a c => (Ok a, c).
#[global] Instance eff_mbind : MBind Eff := fun A B k m c =>
  match m c with
  | (Ok a, c') => k a c'
  | (Throw e, c') => (Throw e, c')
  end.

Definition lift {A} (m : Exc A) : Eff A := fun c => (m, c).

Definition eff_try {A} (m : Eff A) (h : JSError -> Eff A) : Eff A := fun c =>
  match m c with
  | (Ok a, c') => (Ok a, c')
  | (Throw e, c') => h e c'
  end.

(** [try { m } finally { f }] *)
Definition eff_finally {A} (m : Eff A) (f : Eff unit) : Eff A := fun c =>
  match m c with
  | (r, c') =>
      match f c' with
      | (Ok _, c'') => (r, c'')
      | (Throw e, c'') => (Throw e, c'')
      end
  end.

(** [if (b) { m }] *)
Definition when (b : bool) (m : Eff unit) : Eff unit := if b then m else mret ().

Definition invalid_state : JSError := mkError TypeError "Invalid state".

Definition enqueue (e : SSEEvent) : Eff unit := fun c =>
  if readable c
  then (Ok (), mkController (emitted c ++ [e]) (errored c) (closed c))
  else (Throw invalid_state, c).

(** [controller.error(e)]: a readable stream becomes errored, and its queue
    is reset, so that the frames enqueued and not yet read are lost to the
    consumer.  The log [emitted] records calls and keeps them; the loss is
    part of [receives].  On a stream that is closed or errored already the
    call does nothing. *)
Definition controller_error (e : JSError) : Eff unit := fun c =>
  if readable c
  then (Ok (), mkController (emitted c) (Some e) (closed c))
  else (Ok (), c).

Definition controller_close : Eff unit := fun c =>
  if readable c
  then (Ok (), mkController (emitted c) (errored c) true)
  else (Throw invalid_state, c).

(** What a consumer that reads the stream to its end is handed, given the
    controller once the producer is done.  A stream that was not errored
    hands over every frame enqueued, in order.  A stream that was errored
    hands over only the frames the consumer had read before the error, the
    rest having been dropped with the queue: some prefix of the frames
    enqueued, possibly empty, which one depending on when the consumer
    read. *)
Definition receives (c : Controller) (frames : list SSEEvent) : Prop :=
  match errored c with
  | Some _ => frames `prefix_of` emitted c
  | None => frames = emitted c
  end.

(** *** The transformer *)

(** The upstream iterable: the chunks it yields and, if it fails, the error
    thrown once they have been yielded. *)
Record ProviderStream := mkStream {
  stream_chunks : list ChatCompletionChunk;
  stream_failure : option JSError
}.

Record Accumulator := mkAcc {
  acc_content : string;
  acc_toolCallsMap : JSMap FunctionToolCall;
  acc_finishReason : option string
}.

Definition no_chunks : JSError := mkError PlainError "没有chunks可以重构".
Definition undefined_read : JSError :=
  mkError TypeError "Cannot read properties of undefined".
Definition stream_failure_prefix : string := "流式处理失败: ".

Section Response.
Context `{RT : JSRuntime}.

(** The two conditional updates of an entry of [toolCallsMap]: the name is
    overwritten, the arguments are appended to. *)
Definition update_call (existingToolCall : FunctionToolCall) (toolCall : ToolCallDelta)
  : FunctionToolCall :=
  let name := tcd_function toolCall ≫= fd_name in
  let arguments := tcd_function toolCall ≫= fd_arguments in
  let existingToolCall :=
    if opt_truthy name
    then mkCall (call_id existingToolCall) (default "" name)
           (call_arguments existingToolCall)
    else existingToolCall in
  if opt_truthy arguments
  then mkCall (call_id existingToolCall) (call_name existingToolCall)
         (call_arguments existingToolCall +:+ default "" arguments)
  else existingToolCall.

(** One iteration of the loop over [choice.delta.tool_calls]: the entry for
    [toolCall.index || 0] is created with [toolCall.id || `tool_${index}`]
    if it is missing, then updated. *)
Definition merge_tool_call (m : JSMap FunctionToolCall) (toolCall : ToolCallDelta)
  : JSMap FunctionToolCall :=
  let index := default 0 (tcd_index toolCall) in
  let m :=
    if map_has index m then m
    else map_set index
           (mkCall (if opt_truthy (tcd_id toolCall)
                    then default "" (tcd_id toolCall)
                    else "tool_" +:+ pretty index) "" "") m in
  match map_get index m with
  | Some existingToolCall => map_set index (update_call existingToolCall toolCall) m
  | None => m
  end.

Definition merge_chunk (a : Accumulator) (chunk : ChatCompletionChunk) : Accumulator :=
  match head (chunk_choices chunk) with
  | None => a
  | Some choice =>
      let delta := choice_delta choice in
      mkAcc
        (if opt_truthy (delta_content delta)
         then acc_content a +:+ default "" (delta_content delta)
         else acc_content a)
        (match delta_tool_calls delta with
         | Some toolCalls => foldl merge_tool_call (acc_toolCallsMap a) toolCalls
         | None => acc_toolCallsMap a
         end)
        (if opt_truthy (choice_finish_reason choice)
         then choice_finish_reason choice
         else acc_finishReason a)
  end.

(** [for (const [index, toolCall] of toolCallsMap) toolCalls[index] = toolCall] *)
Definition map_to_array (m : JSMap FunctionToolCall) : sparse FunctionToolCall :=
  foldl (fun toolCalls kv => array_set toolCalls (fst kv) (snd kv)) [] m.

Definition reconstructCompletionFromChunks (chunks : list ChatCompletionChunk)
  : Exc ChatCompletion :=
  match chunks with
  | [] => Throw no_chunks
  | firstChunk :: _ =>
      let a := foldl merge_chunk (mkAcc "" [] None) chunks in
      let toolCalls := map_to_array (acc_toolCallsMap a) in
      Ok (mkCompletion
            ("chatcmpl_" +:+ pretty Date_now)
            (chunk_model firstChunk)
            [mkChoice
               (if str_truthy (acc_content a) then Some (acc_content a) else None)
               (match toolCalls with [] => None | _ => Some toolCalls end)
               (acc_finishReason a)]
            (Some (mkUsage 0 0)))
  end.

(** The loop over [choice.message.tool_calls]; the iterator of an array
    yields [undefined] for a hole, whose [id] cannot be read. *)
Fixpoint tool_use_blocks (toolCalls : sparse FunctionToolCall)
  : Exc (list ContentBlock) :=
  match toolCalls with
  | [] => Ok []
  | None :: _ => Throw undefined_read
  | Some toolCall :: rest =>
      input ← fixToolCallArguments
                (if str_truthy (call_arguments toolCall)
                 then call_arguments toolCall
                 else "{}");
      blocks ← tool_use_blocks rest;
      Ok (ToolUseBlock (call_id toolCall) (call_name toolCall) input :: blocks)
  end.

Definition transformResponse (response : ChatCompletion) : Exc Message :=
  match head (completion_choices response) with
  | None => Throw undefined_read
  | Some choice =>
      let text :=
        match message_content choice with
        | Some s => if str_truthy s then [TextBlock s] else []
        | None => []
        end in
      tools ← match message_tool_calls choice with
              | Some toolCalls => tool_use_blocks toolCalls
              | None => Ok []
              end;
      Ok (mkMessage
            ("msg_" +:+ pretty Date_now)
            (completion_model response)
            (text ++ tools)
            (Some (mapFinishReason (finish_reason choice)))
            (from_option prompt_tokens 0 (completion_usage response))
            (from_option completion_tokens 0 (completion_usage response)))
  end.

(** One iteration of the loop of [outputClaudeMessageAsStream]. *)
Definition emit_block (contentIndex : nat) (contentBlock : ContentBlock) : Eff unit :=
  match contentBlock with
  | TextBlock text =>
      enqueue (content_block_start contentIndex contentBlock);;
      enqueue (content_block_delta contentIndex (text_delta text));;
      enqueue (content_block_stop contentIndex)
  | ToolUseBlock _ _ input =>
      enqueue (content_block_start contentIndex contentBlock);;
      enqueue (content_block_delta contentIndex
                 (input_json_delta (JSON_stringify (or_default input empty_object))));;
      enqueue (content_block_stop contentIndex)
  end.

Fixpoint emit_blocks (contentIndex : nat) (content : list ContentBlock) : Eff unit :=
  match content with
  | [] => mret ()
  | contentBlock :: rest =>
      emit_block contentIndex contentBlock;;
      emit_blocks (S contentIndex) rest
  end.

Definition outputClaudeMessageAsStream (claudeMessage : Message) : Eff unit :=
  eff_try
    (enqueue (message_start claudeMessage);;
     emit_blocks 0 (msg_content claudeMessage);;
     enqueue (message_delta (msg_stop_reason claudeMessage));;
     enqueue message_stop)
    (fun error => lift (Throw error)).

Definition blank_message (model : string) (stop : option StopValue) : Message :=
  mkMessage ("msg_" +:+ pretty Date_now) model [] stop 0 0.

(** One iteration of the loop of [outputChunksAsStream]; the flags are
    [messageStarted] and [contentStarted], [contentIndex] stays 0. *)
Definition emit_chunk (flags : bool * bool) (chunk : ChatCompletionChunk)
  : Eff (bool * bool) :=
  let '(messageStarted, contentStarted) := flags in
  when (negb messageStarted)
    (enqueue (message_start (blank_message (chunk_model chunk) None)));;
  match head (chunk_choices chunk) with
  | None => mret (true, contentStarted)
  | Some choice =>
      let content := delta_content (choice_delta choice) in
      contentStarted ←
        (if opt_truthy content then
           when (negb contentStarted)
             (enqueue (content_block_start 0 (TextBlock "")));;
           enqueue (content_block_delta 0 (text_delta (default "" content)));;
           mret true
         else mret contentStarted);
      when (opt_truthy (choice_finish_reason choice))
        (when contentStarted (enqueue (content_block_stop 0));;
         enqueue (message_delta (Some (mapFinishReason (choice_finish_reason choice))));;
         enqueue message_stop);;
      mret (true, contentStarted)
  end.

Fixpoint emit_chunks (flags : bool * bool) (chunks : list ChatCompletionChunk)
  : Eff unit :=
  match chunks with
  | [] => mret ()
  | chunk :: rest => flags ← emit_chunk flags chunk; emit_chunks flags rest
  end.

Definition outputChunksAsStream (chunks : list ChatCompletionChunk) : Eff unit :=
  emit_chunks (false, false) chunks.

Definition handleStreamError (error : JSError) : Eff unit :=
  eff_try
    (enqueue (message_start (blank_message "unknown" (Some ErrorLiteral)));;
     enqueue (message_delta (Some ErrorLiteral));;
     enqueue message_stop)
    (fun recoveryError => mret ());;
  controller_error (mkError PlainError (stream_failure_prefix +:+ err_message error)).

(** [chunk.choices[0]?.delta?.tool_calls] is truthy (an array is, even an
    empty one). *)
Definition has_tool_call_delta (chunk : ChatCompletionChunk) : bool :=
  match head (chunk_choices chunk) with
  | Some choice => bool_decide (is_Some (delta_tool_calls (choice_delta choice)))
  | None => false
  end.

(** First phase: buffer the chunks, watching for a tool-call delta. *)
Definition collect (openaiStream : ProviderStream)
  : Exc (list ChatCompletionChunk * bool) :=
  match stream_failure openaiStream with
  | Some e => Throw e
  | None =>
      Ok (stream_chunks openaiStream,
          existsb has_tool_call_delta (stream_chunks openaiStream))
  end.

(** The [start] callback of the returned [ReadableStream]. *)
Definition start (openaiStream : ProviderStream) : Eff unit :=
  eff_finally
    (eff_try
       ('(accumulatedChunks, hasToolCalls) ← lift (collect openaiStream);
        if (hasToolCalls : bool) then
          completeResponse ← lift (reconstructCompletionFromChunks accumulatedChunks);
          claudeMessage ← lift (transformResponse completeResponse);
          outputClaudeMessageAsStream claudeMessage
        else outputChunksAsStream accumulatedChunks)
       handleStreamError)
    controller_close.

(** The controller once [start] is over: the frames the transformer has
    enqueued and the way it has ended the stream. *)
Definition transformStreamResponse (openaiStream : ProviderStream) : Controller :=
  snd (start openaiStream fresh_controller).

End Response.

(* ===================================================================== *)
(** ** KeyPoolManager                                                     *)
(* ===================================================================== *)

Module KeyPool.

(** The two pool classes; an instance is known by the order of its
    construction, its class and the provider id given to its constructor. *)
Inductive PoolClass := GeminiKeyPool | GenericKeyPool.

Record BaseKeyPool := mkPool {
  pool_instance : nat;
  pool_class : PoolClass;
  pool_providerId : string
}.

(** The manager: the [pools] map, the durable store behind [kv], and the
    number of pool objects constructed so far. *)
Record KeyPoolManager := mkManager {
  pools : gmap string BaseKeyPool;
  kv : gmap string string;
  constructed : nat
}.

Definition createPool (m : KeyPoolManager) (providerId providerType : string)
  : BaseKeyPool * KeyPoolManager :=
  let class :=
    if String.eqb providerType "google" then GeminiKeyPool else GenericKeyPool in
  (mkPool (constructed m) class providerId,
   mkManager (pools m) (kv m) (S (constructed m))).

Definition getOrCreatePool (m : KeyPoolManager) (providerId providerType : string)
  : BaseKeyPool * KeyPoolManager :=
  match pools m !! providerId with
  | Some pool => (pool, m)
  | None =>
      let '(pool, m) := createPool m providerId providerType in
      (pool, mkManager (<[providerId := pool]> (pools m)) (kv m) (constructed m))
  end.

Definition getPool (m : KeyPoolManager) (providerId : string) : option BaseKeyPool :=
  pools m !! providerId.

Definition removePool (m : KeyPoolManager) (providerId : string) : KeyPoolManager :=
  mkManager (delete providerId (pools m))
    (delete ("key_pool_" +:+ providerId) (kv m))
    (constructed m).

(** The calls that change the [pools] map, and a run of them. *)
Inductive ManagerCall :=
| GetOrCreatePool (providerId providerType : string)
| RemovePool (providerId : string).

Definition perform (m : KeyPoolManager) (call : ManagerCall) : KeyPoolManager :=
  match call with
  | GetOrCreatePool providerId providerType =>
      snd (getOrCreatePool m providerId providerType)
  | RemovePool providerId => removePool m providerId
  end.

Definition perform_all (m : KeyPoolManager) (calls : list ManagerCall) : KeyPoolManager :=
  foldl perform m calls.

Definition removes (providerId : string) (call : ManagerCall) : bool :=
  match call with
  | RemovePool providerId' => String.eqb providerId providerId'
  | GetOrCreatePool _ _ => false
  end.

End KeyPool.

(* ===================================================================== *)
(** ** The canonical event protocol                                       *)
(* ===================================================================== *)

(** The order of events a consumer accepts, as an automaton:
    [message_start], then the blocks, each a [content_block_start], at least
    one [content_block_delta] of the kind of the block and a
    [content_block_stop], all with the index of the block; the blocks are
    numbered from 0 and no text block follows a tool-use block; then
    [message_delta] and [message_stop]. *)
Inductive BlockKind := TextKind | ToolKind.

Inductive ProtocolState :=
| AwaitStart
| BetweenBlocks (next : nat) (tool_seen : bool)
| BlockOpened (index : nat) (kind : BlockKind) (tool_seen : bool)
| BlockStreaming (index : nat) (kind : BlockKind) (tool_seen : bool)
| AwaitStop
| Finished.

Definition block_kind (b : ContentBlock) : BlockKind :=
  match b with TextBlock _ => TextKind | ToolUseBlock _ _ _ => ToolKind end.

Definition delta_kind (d : BlockDelta) : BlockKind :=
  match d with text_delta _ => TextKind | input_json_delta _ => ToolKind end.

Definition kind_eqb (a b : BlockKind) : bool :=
  match a, b with
  | TextKind, TextKind | ToolKind, ToolKind => true
  | _, _ => false
  end.

Definition protocol_step (s : ProtocolState) (e : SSEEvent) : option ProtocolState :=
  match s, e with
  | AwaitStart, message_start _ => Some (BetweenBlocks 0 false)
  | BetweenBlocks next tool_seen, content_block_start i b =>
      match block_kind b with
      | TextKind =>
          if Nat.eqb i next && negb tool_seen
          then Some (BlockOpened i TextKind tool_seen) else None
      | ToolKind =>
          if Nat.eqb i next then Some (BlockOpened i ToolKind true) else None
      end
  | BlockOpened i k tool_seen, content_block_delta j d
  | BlockStreaming i k tool_seen, content_block_delta j d =>
      if Nat.eqb i j && kind_eqb k (delta_kind d)
      then Some (BlockStreaming i k tool_seen) else None
  | BlockStreaming i k tool_seen, content_block_stop j =>
      if Nat.eqb i j then Some (BetweenBlocks (S i) tool_seen) else None
  | BetweenBlocks _ _, message_delta _ => Some AwaitStop
  | AwaitStop, message_stop => Some Finished
  | _, _ => None
  end.

Fixpoint protocol_run (s : ProtocolState) (events : list SSEEvent)
  : option ProtocolState :=
  match events with
  | [] => Some s
  | e :: rest =>
      match protocol_step s e with
      | Some s' => protocol_run s' rest
      | None => None
      end
  end.

Definition protocol_valid (events : list SSEEvent) : bool :=
  match protocol_run AwaitStart events with
  | Some Finished => true
  | _ => false
  end.

(** The text fragments carried by the [text_delta] events, in order. *)
Definition text_deltas (events : list SSEEvent) : list string :=
  omap (fun e => match e with
                 | content_block_delta _ (text_delta t) => Some t
                 | _ => None
                 end) events.

(** The [tool_use] blocks announced by [content_block_start] events. *)
Definition tool_use_starts (events : list SSEEvent) : list ContentBlock :=
  omap (fun e => match e with
                 | content_block_start _ (ToolUseBlock id name input) =>
                     Some (ToolUseBlock id name input)
                 | _ => None
                 end) events.

Definition concat_strings (l : list string) : string := foldr String.append "" l.

(* ===================================================================== *)
(** ** Definitions used to state the properties                           *)
(* ===================================================================== *)

(** JSON text for examples: a backquote stands for a double quote. *)
Definition dquoted (s : string) : string :=
  str (map (fun c => if Ascii.eqb "`"%char c then dquote else c) (chars s)).

(** [safeParse] as the specification words it: the strict parse if there is
    one, else the parse of the repaired string if there is one, else the
    default. *)
Definition safeParse_spec `{RT : JSRuntime} (s : string) (default : JSON) : JSON :=
  match JSON_parse s with
  | Ok v => v
  | Throw _ =>
      match fixSingleQuoteJson s ≫= JSON_parse with
      | Ok v => v
      | Throw _ => default
      end
  end.

(** The finish-reason table of the specification. *)
Definition finish_reason_table (reason : option string) : StopReason :=
  match reason with
  | Some r =>
      if String.eqb r "stop" then end_turn
      else if String.eqb r "length" then max_tokens
      else if String.eqb r "tool_calls" then tool_use
      else if String.eqb r "content_filter" then end_turn
      else end_turn
  | None => end_turn
  end.

Definition present {A} (o : option A) : bool :=
  match o with Some _ => true | None => false end.

(** The text a chunk carries: the [content] of the delta of its first
    choice, when there is some. *)
Definition chunk_text (chunk : ChatCompletionChunk) : option string :=
  match head (chunk_choices chunk) with
  | Some choice =>
      if opt_truthy (delta_content (choice_delta choice))
      then delta_content (choice_delta choice) else None
  | None => None
  end.

(** The finish reason a chunk carries, when there is some. *)
Definition chunk_finish (chunk : ChatCompletionChunk) : option string :=
  match head (chunk_choices chunk) with
  | Some choice =>
      if opt_truthy (choice_finish_reason choice)
      then choice_finish_reason choice else None
  | None => None
  end.

(** The full text of a turn: the text of its chunks, in arrival order. *)
Definition provider_text (chunks : list ChatCompletionChunk) : string :=
  concat_strings (omap chunk_text chunks).

(** A buffered turn ends properly when one chunk carries a finish reason and
    no later chunk carries text or a finish reason. *)
Definition silent (chunk : ChatCompletionChunk) : bool :=
  negb (present (chunk_text chunk)) && negb (present (chunk_finish chunk)).

Fixpoint well_terminated (chunks : list ChatCompletionChunk) : bool :=
  match chunks with
  | [] => false
  | chunk :: rest =>
      if present (chunk_finish chunk)
      then forallb silent rest
      else well_terminated rest
  end.

(** The tool-call deltas of a turn, in arrival order. *)
Definition tool_call_deltas (chunks : list ChatCompletionChunk) : list ToolCallDelta :=
  concat (map (fun chunk =>
                 match head (chunk_choices chunk) with
                 | Some choice => default [] (delta_tool_calls (choice_delta choice))
                 | None => []
                 end) chunks).

Definition delta_index (d : ToolCallDelta) : nat := default 0 (tcd_index d).

Definition delta_name (d : ToolCallDelta) : option string :=
  let name := tcd_function d ≫= fd_name in
  if opt_truthy name then name else None.

Definition delta_arguments (d : ToolCallDelta) : option string :=
  let arguments := tcd_function d ≫= fd_arguments in
  if opt_truthy arguments then arguments else None.

(** The tool call a sequence of deltas for one index describes: the id of
    the first delta (or a generated one), the name set last, the argument
    fragments joined in arrival order. *)
Definition assemble (index : nat) (ds : list ToolCallDelta) : option FunctionToolCall :=
  match ds with
  | [] => None
  | first :: _ =>
      Some (mkCall
              (if opt_truthy (tcd_id first) then default "" (tcd_id first)
               else "tool_" +:+ pretty index)
              (default "" (last (omap delta_name ds)))
              (concat_strings (omap delta_arguments ds)))
  end.

Definition provider_tool_call (index : nat) (chunks : list ChatCompletionChunk)
  : option FunctionToolCall :=
  assemble index
    (filter (fun d => delta_index d = index) (tool_call_deltas chunks)).

(** One more than the largest index the deltas use; 0 when there are none. *)
Definition index_bound (ds : list ToolCallDelta) : nat :=
  foldr (fun d b => Nat.max (S (delta_index d)) b) 0 ds.

(** The tool calls of a turn by index, with a hole at every index below the
    largest one that no delta uses. *)
Definition provider_tool_calls (chunks : list ChatCompletionChunk)
  : sparse FunctionToolCall :=
  map (fun index => provider_tool_call index chunks)
    (seq 0 (index_bound (tool_call_deltas chunks))).

(** The entry first stored for a delta, and the effect of a delta on the
    entry of its index. *)
Definition new_call (d : ToolCallDelta) : FunctionToolCall :=
  mkCall (if opt_truthy (tcd_id d) then default "" (tcd_id d)
          else "tool_" +:+ pretty (delta_index d)) "" "".

Definition apply_delta (call : FunctionToolCall) (d : ToolCallDelta) : FunctionToolCall :=
  mkCall (call_id call)
    (default (call_name call) (delta_name d))
    (call_arguments call +:+ default "" (delta_arguments d)).

(** One more than the largest key of a map; 0 for the empty map. *)
Definition key_bound {V} (m : JSMap V) : nat :=
  foldr (fun k b => Nat.max (S k) b) 0 m.*1.

(** Reading slot [i] of an array: [undefined] for a hole as for an index out
    of range. *)
Definition array_get {A} (a : sparse A) (i : nat) : option A := a !! i ≫= id.

(** The argument text handed to the repair: the joined fragments, or the
    text of an empty object when there are none. *)
Definition arguments_text (call : FunctionToolCall) : string :=
  if str_truthy (call_arguments call) then call_arguments call
  else "{}".

(** The controller after [events] more have been enqueued. *)
Definition push (c : Controller) (events : list SSEEvent) : Controller :=
  mkController (emitted c ++ events) (errored c) (closed c).

(** The events one content block is replayed as. *)
Definition block_events `{RT : JSRuntime} (index : nat) (b : ContentBlock)
  : list SSEEvent :=
  [ content_block_start index b;
    content_block_delta index
      match b with
      | TextBlock text => text_delta text
      | ToolUseBlock _ _ input =>
          input_json_delta (JSON_stringify (or_default input empty_object))
      end;
    content_block_stop index ].

Fixpoint blocks_events `{RT : JSRuntime} (index : nat) (content : list ContentBlock)
  : list SSEEvent :=
  match content with
  | [] => []
  | b :: rest => block_events index b ++ blocks_events (S index) rest
  end.

(** The events a complete canonical message is replayed as. *)
Definition message_events `{RT : JSRuntime} (m : Message) : list SSEEvent :=
  message_start m
    :: blocks_events 0 (msg_content m)
    ++ [message_delta (msg_stop_reason m); message_stop].

(** The events one buffered chunk is re-emitted as, given whether the
    message and the text block have been started. *)
Definition chunk_events `{RT : JSRuntime} (flags : bool * bool)
  (chunk : ChatCompletionChunk) : list SSEEvent :=
  (if fst flags then []
   else [message_start (blank_message (chunk_model chunk) None)])
  ++ match chunk_text chunk with
     | Some t =>
         (if snd flags then [] else [content_block_start 0 (TextBlock "")])
         ++ [content_block_delta 0 (text_delta t)]
     | None => []
     end
  ++ match chunk_finish chunk with
     | Some f =>
         (if snd flags || present (chunk_text chunk)
          then [content_block_stop 0] else [])
         ++ [message_delta (Some (mapFinishReason (Some f))); message_stop]
     | None => []
     end.

Definition next_flags (flags : bool * bool) (chunk : ChatCompletionChunk)
  : bool * bool :=
  (true, snd flags || present (chunk_text chunk)).

Fixpoint chunks_events `{RT : JSRuntime} (flags : bool * bool)
  (chunks : list ChatCompletionChunk) : list SSEEvent :=
  match chunks with
  | [] => []
  | chunk :: rest =>
      chunk_events flags chunk ++ chunks_events (next_flags flags chunk) rest
  end.

(** Where the protocol stands while chunks are re-emitted and none has
    carried a finish reason yet. *)
Definition flags_state (flags : bool * bool) : ProtocolState :=
  match flags with
  | (false, _) => AwaitStart
  | (true, false) => BetweenBlocks 0 false
  | (true, true) => BlockStreaming 0 TextKind false
  end.

Definition is_tool_use (b : ContentBlock) : bool :=
  match b with ToolUseBlock _ _ _ => true | TextBlock _ => false end.

(** No text block after a tool-use block. *)
Fixpoint text_first (tool_seen : bool) (content : list ContentBlock) : bool :=
  match content with
  | [] => true
  | b :: rest =>
      (is_tool_use b || negb tool_seen) && text_first (tool_seen || is_tool_use b) rest
  end.

(** Chunks for examples: a text delta, and a delta for one tool call. *)
Definition text_chunk (text : string) (finish : option string) : ChatCompletionChunk :=
  mkChunk "gpt" [mkChunkChoice (mkDelta (Some text) None) finish].

Definition tool_chunk (index : nat) (id name arguments finish : option string)
  : ChatCompletionChunk :=
  mkChunk "gpt"
    [mkChunkChoice
       (mkDelta None
          (Some [mkToolCallDelta (Some index) id (Some (mkFunctionDelta name arguments))]))
       finish].

(** The turn of the streaming test: a role chunk, a text chunk, two chunks
    that carry the fragments of one tool call in single-quoted JSON, and the
    finishing chunk. *)
Definition cached_tool_call_turn : ProviderStream :=
  mkStream
    [ mkChunk "gpt-4" [mkChunkChoice (mkDelta None None) None];
      mkChunk "gpt-4" [mkChunkChoice (mkDelta (Some "Creating the task.") None) None];
      mkChunk "gpt-4"
        [mkChunkChoice
           (mkDelta None
              (Some [mkToolCallDelta (Some 0) (Some "call_test")
                       (Some (mkFunctionDelta (Some "create_task") (Some "{'title': '")))]))
           None];
      mkChunk "gpt-4"
        [mkChunkChoice
           (mkDelta None
              (Some [mkToolCallDelta (Some 0) None
                       (Some (mkFunctionDelta None
                                (Some "Test task', 'description': 'A test task'}")))]))
           None];
      mkChunk "gpt-4" [mkChunkChoice (mkDelta None None) (Some "tool_calls")] ]
    None.

(** The input of the [tool_use] block of a call: its argument text, joined
    and repaired. *)
Definition repaired_input `{RT : JSRuntime} (call : FunctionToolCall) : JSON :=
  match fixToolCallArguments (arguments_text call) with
  | Ok v => v
  | Throw _ => empty_object
  end.

Definition tool_use_block `{RT : JSRuntime} (call : FunctionToolCall) : ContentBlock :=
  ToolUseBlock (call_id call) (call_name call) (repaired_input call).

(** The canonical message of a turn with the given tool calls. *)
Definition replayed_message `{RT : JSRuntime} (chunks : list ChatCompletionChunk)
  (calls : list FunctionToolCall) : Message :=
  mkMessage ("msg_" +:+ pretty Date_now)
    (from_option chunk_model "" (head chunks))
    ((if str_truthy (provider_text chunks) then [TextBlock (provider_text chunks)] else [])
     ++ map tool_use_block calls)
    (Some (mapFinishReason (last (omap chunk_finish chunks))))
    0 0.

(** The events of the recovery sequence. *)
Definition fallback_events `{RT : JSRuntime} : list SSEEvent :=
  [ message_start (blank_message "unknown" (Some ErrorLiteral));
    message_delta (Some ErrorLiteral);
    message_stop ].

(* ===================================================================== *)
(** ** utils/json-tools.ts: [fixStreamingToolArgument]                    *)
(* ===================================================================== *)

(** A backslash followed by a double quote becomes a backslash followed by
    a quote. *)
Definition m_escaped_dquote : matcher := fun l =>
  match l with
  | a :: b :: _ =>
      if Ascii.eqb "\"%char a && Ascii.eqb dquote b
      then Some ([backslash; "'"%char], 2) else None
  | _ => None
  end.

(** [s.includes(c)] for a needle of one character. *)
Definition includes (s : string) (c : ascii) : bool :=
  existsb (Ascii.eqb c) (chars s).

(** [s.slice(start)] for a start index that is a length, hence not
    negative; past the end the result is empty. *)
Definition slice (s : string) (start : nat) : string :=
  str (drop start (chars s)).

Section StreamingRepair.
Context `{RT : JSRuntime}.

(** [accumulated] defaults to the empty string. *)
Definition fixStreamingToolArgument (fragment accumulated : string) : Exc string :=
  if negb (str_truthy fragment) then Ok fragment
  else
    try_catch
      (if includes fragment "'"%char then
         let fixed := replace_all m_any_quote fragment in
         let fixed := replace_all m_escaped_dquote fixed in
         Ok fixed
       else if str_truthy accumulated then
         let testStr := accumulated +:+ fragment in
         match JSON_parse testStr with
         | Ok _ => Ok fragment
         | Throw _ =>
             fixedAccumulated ← fixSingleQuoteJson testStr;
             if negb (String.eqb fixedAccumulated testStr) then
               let newFragment := slice fixedAccumulated (String.length accumulated) in
               Ok (if str_truthy newFragment then newFragment else fragment)
             else Ok fragment
         end
       else Ok fragment)
      (fun _ => Ok fragment).

End StreamingRepair.

(* ===================================================================== *)
(** ** ClaudeToOpenAITransformer: tool definitions                        *)
(* ===================================================================== *)

(** The two properties [removeUnsupportedProperties] deletes. *)
Definition unsupported (k : string) : bool :=
  String.eqb k "$schema" || String.eqb k "const".

(** The function works in place on a private copy; the embedding returns the
    object as it is once the call is over.  The two [delete]s come first,
    the values that remain are then visited. *)
Fixpoint removeUnsupportedProperties (obj : JSON) : JSON :=
  match obj with
  | JArr items => JArr (map removeUnsupportedProperties items)
  | JObj props =>
      JObj ((fix values (l : list (string * JSON)) : list (string * JSON) :=
               match l with
               | [] => []
               | (k, value) :: rest =>
                   if unsupported k then values rest
                   else (k, removeUnsupportedProperties value) :: values rest
               end) props)
  | _ => obj
  end.

(** [typeof v === 'object'] for a value that is not [null]. *)
Definition is_object (v : JSON) : bool :=
  match v with
  | JArr _ | JObj _ => true
  | _ => false
  end.

Record ClaudeTool := mkTool {
  tool_name : string;
  tool_description : option string;
  tool_input_schema : JSON
}.

(** An entry of [tools] in the provider request; its [type] is always
    ['function']. *)
Record ChatCompletionTool := mkFunctionTool {
  function_name : string;
  function_description : option string;
  function_parameters : JSON
}.

Section Tools.
Context `{RT : JSRuntime}.

Definition cleanupParameters (params : JSON) : Exc JSON :=
  if negb (truthy params) || negb (is_object params) then Ok params
  else
    cleaned ← JSON_parse (JSON_stringify params);
    Ok (removeUnsupportedProperties cleaned).

(** [tools.map(...)]: the tools are visited in order, and an exception of
    one visit ends the call. *)
Fixpoint transformTools (tools : list ClaudeTool) : Exc (list ChatCompletionTool) :=
  match tools with
  | [] => Ok []
  | tool :: rest =>
      parameters ← cleanupParameters (tool_input_schema tool);
      rest ← transformTools rest;
      Ok (mkFunctionTool (tool_name tool) (tool_description tool) parameters :: rest)
  end.

End Tools.

(* ===================================================================== *)
(** ** ClaudeToOpenAITransformer: the provider request                    *)
(* ===================================================================== *)

(** The [system] field of a request: a string or an array of blocks. *)
Inductive SystemParam :=
| SystemString (s : string)
| SystemBlocks (blocks : list ContentBlockParam).

Definition newline : string := String (chr 10) "".

(** [parts.join(newline)] *)
Fixpoint join_lines (parts : list string) : string :=
  match parts with
  | [] => ""
  | [part] => part
  | part :: rest => part +:+ newline +:+ join_lines rest
  end.

(** The texts of the blocks of type ['text'], one per line. *)
Definition extractTextFromContent (content : list ContentBlockParam) : string :=
  join_lines
    (omap (fun item =>
             match item with
             | TextBlockParam text => Some text
             | _ => None
             end) content).

(** An entry of [messages] in the provider request: the system message or
    the translation of a message of the conversation. *)
Inductive RequestMessage :=
| SystemMessage (content : string)
| TurnMessage (message : ChatCompletionMessageParam).

(** The [tool_choice] of a request as its type declares it: an object with a
    [type] and possibly a [name]. *)
Record ToolChoice := mkToolChoice {
  tool_choice_type : option string;
  tool_choice_name : option string
}.

(** The fields of a request the transformer reads; a field that is not
    supplied is [None]. *)
Record MessageCreateParamsBase := mkRequest {
  req_messages : option (list MessageParam);
  req_system : option SystemParam;
  req_max_tokens : option nat;
  req_temperature : option JSNumber;
  req_top_p : option JSNumber;
  req_stop_sequences : option (list string);
  req_tools : option (list ClaudeTool);
  req_tool_choice : option ToolChoice;
  req_stream : bool
}.

(** [stop] is a string or an array of strings. *)
Inductive StopParam :=
| StopString (s : string)
| StopArray (sequences : list string).

(** The provider request; a property that is not set is [None]. *)
Record ChatCompletionCreateParams := mkParams {
  params_model : string;
  params_messages : list RequestMessage;
  params_max_completion_tokens : option nat;
  params_temperature : option JSNumber;
  params_top_p : option JSNumber;
  params_stop : option StopParam;
  params_tools : option (list ChatCompletionTool);
  params_tool_choice : option ChatCompletionToolChoiceOption;
  params_stream : option bool
}.

Definition with_stream (baseParams : ChatCompletionCreateParams) (stream : bool)
  : ChatCompletionCreateParams :=
  mkParams (params_model baseParams) (params_messages baseParams)
    (params_max_completion_tokens baseParams) (params_temperature baseParams)
    (params_top_p baseParams) (params_stop baseParams) (params_tools baseParams)
    (params_tool_choice baseParams) (Some stream).

Section ProviderRequest.
Context `{RT : JSRuntime}.

Definition transformMessages (messages : list MessageParam) (system : option SystemParam)
  : list RequestMessage :=
  let openaiMessages :=
    match system with
    | Some (SystemString s) => if str_truthy s then [SystemMessage s] else []
    | Some (SystemBlocks blocks) => [SystemMessage (extractTextFromContent blocks)]
    | None => []
    end in
  foldl (fun openaiMessages message =>
           match transformMessage message with
           | Some openaiMessage => openaiMessages ++ [TurnMessage openaiMessage]
           | None => openaiMessages
           end) openaiMessages messages.

Definition buildBaseParams (claudeRequest : MessageCreateParamsBase) (model : string)
  : Exc ChatCompletionCreateParams :=
  let messages :=
    transformMessages (default [] (req_messages claudeRequest))
      (req_system claudeRequest) in
  let max_completion_tokens :=
    match req_max_tokens claudeRequest with
    | Some (S n) => Some (S n)
    | _ => None
    end in
  let stop :=
    match req_stop_sequences claudeRequest with
    | Some [sequence] => Some (StopString sequence)
    | Some sequences => Some (StopArray sequences)
    | None => None
    end in
  '(tools, tool_choice) ←
    match req_tools claudeRequest with
    | Some (tool :: rest) =>
        tools ← transformTools (tool :: rest);
        Ok (Some tools,
            match req_tool_choice claudeRequest with
            | Some toolChoice =>
                Some (transformToolChoice
                        (ChoiceObject (tool_choice_type toolChoice)
                           (tool_choice_name toolChoice)))
            | None => None
            end)
    | _ => Ok (None, None)
    end;
  Ok (mkParams model messages max_completion_tokens
        (req_temperature claudeRequest) (req_top_p claudeRequest)
        stop tools tool_choice None).

Definition buildNonStreamingParams (claudeRequest : MessageCreateParamsBase)
  (model : string) : Exc ChatCompletionCreateParams :=
  baseParams ← buildBaseParams claudeRequest model;
  Ok (with_stream baseParams false).

Definition buildStreamingParams (claudeRequest : MessageCreateParamsBase)
  (model : string) : Exc ChatCompletionCreateParams :=
  baseParams ← buildBaseParams claudeRequest model;
  Ok (with_stream baseParams true).

End ProviderRequest.

(* ===================================================================== *)
(** ** ClaudeToOpenAITransformer: the client and [processRequest]         *)
(* ===================================================================== *)

(** The SDK client, known by the options of its constructor. *)
Record OpenAI := mkClient {
  client_apiKey : string;
  client_baseURL : string
}.

(** [client.chat.completions.create]: what the provider answers to a
    request, a completion or a stream of chunks according to the kind of
    request. *)
Class Provider := {
  create : OpenAI -> ChatCompletionCreateParams -> Exc ChatCompletion;
  create_stream : OpenAI -> ChatCompletionCreateParams -> Exc ProviderStream
}.

(** The private fields of the transformer. *)
Record Transformer := mkTransformer {
  transformer_client : option OpenAI;
  transformer_baseURL : string
}.

Definition new_transformer : Transformer := mkTransformer None "".

Definition baseUrl_required : JSError :=
  mkError PlainError "baseUrl is required for OpenAI-compatible providers".

Definition not_initialized : JSError :=
  mkError PlainError "OpenAI client not initialized. Call initializeClient() first.".

(** [options] may be missing, and so may its [baseUrl]. *)
Definition initializeClient (this : Transformer) (apiKey : string)
  (options : option (option string)) : Exc Transformer :=
  match options with
  | Some (Some baseUrl) =>
      if str_truthy baseUrl
      then Ok (mkTransformer (Some (mkClient apiKey baseUrl)) baseUrl)
      else Throw baseUrl_required
  | _ => Throw baseUrl_required
  end.

Definition getClient (this : Transformer) : Exc OpenAI :=
  match transformer_client this with
  | Some client => Ok client
  | None => Throw not_initialized
  end.

(** What [processRequest] resolves to. *)
Inductive Reply :=
| MessageReply (message : Message)
| StreamReply (stream : Controller).

Section ProcessRequest.
Context `{RT : JSRuntime} `{PR : Provider}.

Definition processRequest (this : Transformer) (claudeRequest : MessageCreateParamsBase)
  (model : string) : Exc Reply :=
  client ← getClient this;
  if req_stream claudeRequest then
    streamParams ← buildStreamingParams claudeRequest model;
    stream ← create_stream client streamParams;
    Ok (StreamReply (transformStreamResponse stream))
  else
    params ← buildNonStreamingParams claudeRequest model;
    response ← create client params;
    claudeResponse ← transformResponse response;
    Ok (MessageReply claudeResponse).

End ProcessRequest.

(* ===================================================================== *)
(** ** routes/admin/providers.ts: the validators of the request body      *)
(* ===================================================================== *)

(** What a validator callback does with a body: hand it on, answer with an
    [HTTPException], or fail on its own. *)
Inductive Validation :=
| Valid (value : JSON)
| HTTPException (status : nat) (message : string)
| Uncaught (error : JSError).

(** [value.k] for a parsed body; none of the names read below is a member of
    a prototype. *)
Fixpoint own_property (props : list (string * JSON)) (k : string) : option JSON :=
  match props with
  | [] => None
  | (k', v) :: rest => if String.eqb k k' then Some v else own_property rest k
  end.

Definition get_property (value : JSON) (k : string) : option JSON :=
  match value with
  | JObj props => own_property props k
  | _ => None
  end.

(** [!!value.k] *)
Definition has_truthy (value : JSON) (k : string) : bool :=
  match get_property value k with
  | Some v => truthy v
  | None => false
  end.

(** [Array.isArray(value.k)] *)
Definition has_array (value : JSON) (k : string) : bool :=
  match get_property value k with
  | Some (JArr _) => true
  | _ => false
  end.

Definition cannot_destructure : JSError :=
  mkError TypeError "Cannot destructure 'value' as it is null.".

(** The validator of [POST /providers]. *)
Definition addProviderValidator (value : JSON) : Validation :=
  match value with
  | JNull => Uncaught cannot_destructure
  | _ =>
      if negb (has_truthy value "name") || negb (has_truthy value "type")
         || negb (has_truthy value "endpoint") || negb (has_truthy value "models")
      then HTTPException 400 "缺少必填字段"
      else Valid value
  end.

(** The validator of the body of [PUT /providers/:id]. *)
Definition editProviderValidator (value : JSON) : Validation :=
  match value with
  | JNull => Uncaught cannot_destructure
  | _ =>
      if negb (has_truthy value "name") || negb (has_truthy value "endpoint")
         || negb (has_truthy value "models") || negb (has_array value "models")
      then HTTPException 400 "缺少必填字段或格式错误"
      else Valid value
  end.

(* ===================================================================== *)
(** ** ClaudeToOpenAITransformer: the chunk-by-chunk [transformStreamResponse] *)
(* ===================================================================== *)

(** The revision of the transformer that translates every chunk as it
    arrives; it is the caller of [fixStreamingToolArgument].  Its other
    methods are those of the revision above. *)
Module LiveStreaming.

(** The variables of [transformStreamResponse] that the loop assigns.
    [contentIndex] is declared with them and never assigned. *)
Record Locals := mkLocals {
  messageStarted : bool;
  currentToolCalls : JSMap FunctionToolCall
}.

Definition contentIndex : nat := 0.

Section Live.
Context `{RT : JSRuntime}.

(** One iteration of the loop over [choice.delta.tool_calls].  The entry of
    the map is an object that the iteration updates in place; when the
    iteration throws, the map is not read again. *)
Definition emit_tool_call (currentToolCalls : JSMap FunctionToolCall)
  (toolCall : ToolCallDelta) : Eff (JSMap FunctionToolCall) :=
  let index := default 0 (tcd_index toolCall) in
  let currentToolCalls :=
    if map_has index currentToolCalls then currentToolCalls
    else map_set index
           (mkCall (if opt_truthy (tcd_id toolCall)
                    then default "" (tcd_id toolCall)
                    else "tool_" +:+ pretty index) "" "") currentToolCalls in
  match map_get index currentToolCalls with
  | None => mret currentToolCalls
  | Some currentToolCall =>
      let name := tcd_function toolCall ≫= fd_name in
      let arguments := tcd_function toolCall ≫= fd_arguments in
      currentToolCall ←
        (if opt_truthy name then
           when (negb (str_truthy (call_name currentToolCall)))
             (enqueue (content_block_start (contentIndex + 1 + index)
                         (ToolUseBlock (call_id currentToolCall) (default "" name)
                            empty_object)));;
           mret (mkCall (call_id currentToolCall) (default "" name)
                   (call_arguments currentToolCall))
         else mret currentToolCall);
      currentToolCall ←
        (if opt_truthy arguments then
           let originalFragment := default "" arguments in
           let previousArgs := call_arguments currentToolCall in
           eff_try
             (fixedFragment ← lift (fixStreamingToolArgument originalFragment previousArgs);
              enqueue (content_block_delta (contentIndex + 1 + index)
                         (input_json_delta fixedFragment)))
             (fun _ =>
                let safeFragment := replace_all m_any_quote originalFragment in
                enqueue (content_block_delta (contentIndex + 1 + index)
                           (input_json_delta safeFragment)));;
           mret (mkCall (call_id currentToolCall) (call_name currentToolCall)
                   (previousArgs +:+ originalFragment))
         else mret currentToolCall);
      mret (map_set index currentToolCall currentToolCalls)
  end.

Fixpoint emit_tool_calls (currentToolCalls : JSMap FunctionToolCall)
  (toolCalls : list ToolCallDelta) : Eff (JSMap FunctionToolCall) :=
  match toolCalls with
  | [] => mret currentToolCalls
  | toolCall :: rest =>
      currentToolCalls ← emit_tool_call currentToolCalls toolCall;
      emit_tool_calls currentToolCalls rest
  end.

(** One iteration of the loop that ends the tool calls. *)
Definition end_tool_call (entry : nat * FunctionToolCall) : Eff unit :=
  let '(index, toolCallData) := entry in
  if negb (str_truthy (call_name toolCallData)) then
    enqueue (content_block_stop (contentIndex + 1 + index))
  else
    when (str_truthy (call_arguments toolCallData))
      (eff_try
         (fixedInput ← lift (fixToolCallArguments (call_arguments toolCallData));
          if is_object fixedInput then
            let finalArgsJson := JSON_stringify fixedInput in
            enqueue (content_block_delta (contentIndex + 1 + index)
                       (input_json_delta finalArgsJson))
          else
            enqueue (content_block_delta (contentIndex + 1 + index)
                       (input_json_delta "{}")))
         (fun _ =>
            enqueue (content_block_delta (contentIndex + 1 + index)
                       (input_json_delta "{}"))));;
    enqueue (content_block_stop (contentIndex + 1 + index)).

Fixpoint end_tool_calls (entries : JSMap FunctionToolCall) : Eff unit :=
  match entries with
  | [] => mret ()
  | entry :: rest => end_tool_call entry;; end_tool_calls rest
  end.

(** One iteration of the loop over the chunks. *)
Definition emit_chunk (locals : Locals) (chunk : ChatCompletionChunk) : Eff Locals :=
  when (negb (messageStarted locals))
    (enqueue (message_start (blank_message (chunk_model chunk) None)));;
  match head (chunk_choices chunk) with
  | None => mret (mkLocals true (currentToolCalls locals))
  | Some choice =>
      let content := delta_content (choice_delta choice) in
      when (opt_truthy content)
        (when (Nat.eqb contentIndex 0)
           (enqueue (content_block_start contentIndex (TextBlock "")));;
         enqueue (content_block_delta contentIndex (text_delta (default "" content))));;
      currentToolCalls ←
        match delta_tool_calls (choice_delta choice) with
        | Some toolCalls => emit_tool_calls (currentToolCalls locals) toolCalls
        | None => mret (currentToolCalls locals)
        end;
      when (opt_truthy (choice_finish_reason choice))
        (when (opt_truthy content) (enqueue (content_block_stop contentIndex));;
         end_tool_calls currentToolCalls;;
         enqueue (message_delta (Some (mapFinishReason (choice_finish_reason choice)))));;
      mret (mkLocals true currentToolCalls)
  end.

Fixpoint emit_chunks (locals : Locals) (chunks : list ChatCompletionChunk)
  : Eff unit :=
  match chunks with
  | [] => mret ()
  | chunk :: rest => locals ← emit_chunk locals chunk; emit_chunks locals rest
  end.

(** The [start] callback: the loop, the final [message_stop], the [catch]
    that hands the error to the controller and the [finally] that closes
    it. *)
Definition start (openaiStream : ProviderStream) : Eff unit :=
  eff_finally
    (eff_try
       (emit_chunks (mkLocals false []) (stream_chunks openaiStream);;
        match stream_failure openaiStream with
        | Some error => lift (Throw error)
        | None => enqueue message_stop
        end)
       controller_error)
    controller_close.

(** The controller once [start] is over. *)
Definition transformStreamResponse (openaiStream : ProviderStream) : Controller :=
  snd (start openaiStream fresh_controller).

End Live.

End LiveStreaming.

(* ===================================================================== *)
(** ** Definitions used to state the further properties                   *)
(* ===================================================================== *)

(** How many [content_block_start] events open the block [index], and how
    many [message_stop] events there are. *)
Definition starts_at (index : nat) (events : list SSEEvent) : nat :=
  length (List.filter (fun e => match e with
                                | content_block_start i _ => Nat.eqb i index
                                | _ => false
                                end) events).

Definition message_stops (events : list SSEEvent) : nat :=
  length (List.filter (fun e => match e with message_stop => true | _ => false end) events).

(** What is counted in a sequence of events: its text fragments, the
    openings of block 0 and the [message_stop] events. *)
Definition summary (events : list SSEEvent) : list string * nat * nat :=
  (text_deltas events, starts_at 0 events, message_stops events).

Definition quiet (events : list SSEEvent) : Prop := summary events = ([], 0, 0).

(** On a readable controller [m] returns, having enqueued events that
    satisfy [P] and done nothing else to the controller. *)
Definition emits {A} (m : Eff A) (P : list SSEEvent -> Prop) : Prop :=
  forall c, readable c = true -> exists a events, m c = (Ok a, push c events) /\ P events.

(** How many more blocks of index 0 a well-formed stream can open from a
    state of the protocol. *)
Definition room (s : ProtocolState) : nat :=
  match s with
  | AwaitStart | BetweenBlocks 0 _ => 1
  | _ => 0
  end.

(** A quote that no backslash comes right before; [escaped] tells whether
    the character before [l] is a backslash. *)
Fixpoint bare_quote (escaped : bool) (l : list ascii) : bool :=
  match l with
  | [] => false
  | c :: rest =>
      (Ascii.eqb "'"%char c && negb escaped) || bare_quote (Ascii.eqb backslash c) rest
  end.

(** Some object inside [v], at any depth, has a property named [$schema] or
    [const]. *)
Fixpoint mentions_unsupported (v : JSON) : bool :=
  match v with
  | JArr items => existsb mentions_unsupported items
  | JObj props =>
      existsb (fun kv => unsupported (fst kv) || mentions_unsupported (snd kv)) props
  | _ => false
  end.

(** The content part and the tool call a block of a request stands for. *)
Definition block_part (b : ContentBlockParam) : option ContentPart :=
  match b with
  | TextBlockParam text => Some (TextPart text)
  | ImageBlockParam (Base64Source media_type data) =>
      Some (ImageUrlPart ("data:" +:+ media_type +:+ ";base64," +:+ data))
  | _ => None
  end.

Definition block_call `{RT : JSRuntime} (b : ContentBlockParam) : option FunctionToolCall :=
  match b with
  | ToolUseBlockParam id (Some name) input =>
      if str_truthy name
      then Some (mkCall id name
                   (JSON_stringify (or_default (default empty_object input) empty_object)))
      else None
  | _ => None
  end.

(** The blocks that leave a trace in the provider message. *)
Definition translated (b : ContentBlockParam) : bool :=
  match b with
  | TextBlockParam _ | ImageBlockParam (Base64Source _ _) | ToolResultBlockParam _ _ => true
  | ToolUseBlockParam _ (Some name) _ => str_truthy name
  | _ => false
  end.

(** A block of a canonical message, sent back as a block of a request. *)
Definition as_param (b : ContentBlock) : ContentBlockParam :=
  match b with
  | TextBlock text => TextBlockParam text
  | ToolUseBlock id name input => ToolUseBlockParam id (Some name) (Some input)
  end.

(** The content of the message is a string or an array. *)
Definition has_content (m : MessageParam) : bool :=
  match mp_content m with
  | ContentOther => false
  | _ => true
  end.

(** The system message a request leads to, if any. *)
Definition system_messages (system : option SystemParam) : list RequestMessage :=
  match system with
  | Some (SystemString s) => if str_truthy s then [SystemMessage s] else []
  | Some (SystemBlocks blocks) => [SystemMessage (extractTextFromContent blocks)]
  | None => []
  end.

(** The text of the last message of a provider request, when it is a plain
    string. *)
Definition last_text (messages : list RequestMessage) : option string :=
  match last messages with
  | Some (TurnMessage (RoleMessage _ (Plain s) _)) => Some s
  | _ => None
  end.

(** A provider that answers with the text of the last message, as one
    completion or as one chunk. *)
Definition echo : Provider :=
  {| create := fun _ params =>
       Ok (mkCompletion "chatcmpl-echo" (params_model params)
             [mkChoice (last_text (params_messages params)) None (Some "stop")] None);
     create_stream := fun _ params =>
       Ok (mkStream
             [mkChunk (params_model params)
                [mkChunkChoice (mkDelta (last_text (params_messages params)) None)
                   (Some "stop")]] None) |}.

(** The tool calls of a turn when every slot of the array is filled. *)
Fixpoint dense {A} (a : sparse A) : option (list A) :=
  match a with
  | [] => Some []
  | Some x :: rest => cons x <$> dense rest
  | None :: _ => None
  end.

Module KeyPoolInvariant.
Import KeyPool.

(** The manager after [new KeyPoolManager(kv)]. *)
Definition new_manager (store : gmap string string) : KeyPoolManager :=
  mkManager ∅ store 0.

(** Every pool is filed under the provider id it was constructed with, its
    object was constructed by this manager, and no object is filed twice. *)
Definition consistent (m : KeyPoolManager) : Prop :=
  (forall id pool,
      pools m !! id = Some pool ->
      pool_providerId pool = id /\ pool_instance pool < constructed m)
  /\ (forall id id' pool pool',
        pools m !! id = Some pool -> pools m !! id' = Some pool' ->
        pool_instance pool = pool_instance pool' -> id = id').

End KeyPoolInvariant.

(* ===================================================================== *)
(** ** Properties of utils/json-tools.ts                                  *)
(* ===================================================================== *)

Section JsonToolsFacts.
Context `{RT : JSRuntime}.

Lemma str_truthy_false (s : string) : str_truthy s = false -> s = "".
Proof.
  unfold str_truthy. intros H. apply negb_false_iff in H.
  by apply String.eqb_eq in H.
Qed.

(** A string that parses is returned as it is. *)
Lemma fixSingleQuoteJson_valid (s : string) :
  returns (JSON_parse s) = true -> fixSingleQuoteJson s = Ok s.
Proof.
  intros H. unfold fixSingleQuoteJson.
  destruct (str_truthy s); cbn; [| done].
  destruct (JSON_parse s); [done | discriminate H].
Qed.

(** The function returns on every input, and what it returns is either the
    input itself or a string that parses. *)
Lemma fixSingleQuoteJson_result (s : string) :
  exists r, fixSingleQuoteJson s = Ok r
            /\ (r = s \/ returns (JSON_parse r) = true).
Proof.
  unfold fixSingleQuoteJson.
  destruct (str_truthy s); cbn; [| by eauto].
  destruct (JSON_parse s) as [v | e]; [by eauto |].
  destruct (negb _ && negb _); [by eauto |].
  destruct (JSON_parse (regex_repair (trim s))) as [v | e'] eqn:Hp; cbn.
  - exists (regex_repair (trim s)). rewrite Hp. auto.
  - unfold aggressive_fix.
    destruct (startsWith _ _ && endsWith _ _); [| by eauto].
    destruct (JSON_parse (replace_all _ _)) as [v | e''] eqn:Ha; [| by eauto].
    eexists. split; [done |]. right. by rewrite Ha.
Qed.

Lemma fixSingleQuoteJson_total (s : string) :
  exists r, fixSingleQuoteJson s = Ok r.
Proof. destruct (fixSingleQuoteJson_result s) as (r & H & _). eauto. Qed.

(** Neither does [safeParseJson] throw. *)
Lemma safeParseJson_total (s : string) (d : JSON) :
  exists v, safeParseJson s d = Ok v.
Proof.
  unfold safeParseJson.
  destruct (negb (str_truthy s)); [by eauto |].
  destruct (JSON_parse s) as [v | e]; cbn; [by eauto |].
  destruct (fixSingleQuoteJson_total s) as [r ->]. cbn.
  destruct (negb (String.eqb r s)); cbn; [| by eauto].
  destruct (JSON_parse r); cbn; eauto.
Qed.

(** C5. [safeParseJson s d] returns what the strict parse of [s] returns
    whenever [s] parses; only when the strict parse fails is the repaired
    string parsed; when that fails too the default [d] is returned;
    [fixToolCallArguments] is the instance with the empty object as default.
    The only fact used about [JSON.parse] is that it rejects the empty
    string. *)
Theorem safeParseJson_strict_then_repair_then_default (s : string) (d : JSON) :
  returns (JSON_parse "") = false ->
  (forall v, JSON_parse s = Ok v -> safeParseJson s d = Ok v)
  /\ safeParseJson s d = Ok (safeParse_spec s d)
  /\ fixToolCallArguments s = Ok (safeParse_spec s empty_object).
Proof.
  intros Hempty.
  assert (Hspec : forall d', safeParseJson s d' = Ok (safeParse_spec s d')).
  { intros d'. unfold safeParseJson, safeParse_spec.
    destruct (str_truthy s) eqn:Hs; cbn.
    - destruct (JSON_parse s) as [v | e] eqn:Hp; cbn; [done |].
      destruct (fixSingleQuoteJson_total s) as [r Hr]. rewrite Hr. cbn.
      destruct (String.eqb r s) eqn:Heq; cbn.
      + apply String.eqb_eq in Heq. subst r. by rewrite Hp.
      + by destruct (JSON_parse r).
    - apply str_truthy_false in Hs. subst s.
      destruct (JSON_parse "") as [v | e] eqn:Hp; [discriminate Hempty |].
      destruct (fixSingleQuoteJson_total "") as [r Hr]. rewrite Hr. cbn.
      assert (r = "") as ->.
      { unfold fixSingleQuoteJson in Hr. cbn in Hr. congruence. }
      by rewrite Hp. }
  split; [| split].
  - intros v Hv. rewrite Hspec. unfold safeParse_spec. by rewrite Hv.
  - apply Hspec.
  - apply Hspec.
Qed.

(** C6, as amended.  [fixSingleQuoteJson] returns on every input; when the
    input with its surrounding white space removed starts with neither a
    brace nor a bracket it is returned unchanged, and so is [hello world];
    when neither the pattern substitutions nor the substitution of every
    quote give a string that parses, the input is returned unchanged; in
    general a result that does not parse is the input itself. *)
Theorem fixSingleQuoteJson_never_raises (s : string) :
  (exists r, fixSingleQuoteJson s = Ok r)
  /\ (startsWith (trim s) "{"%char = false ->
      startsWith (trim s) "["%char = false ->
      fixSingleQuoteJson s = Ok s)
  /\ fixSingleQuoteJson "hello world" = Ok "hello world"
  /\ (returns (JSON_parse (regex_repair (trim s))) = false ->
      returns (JSON_parse (replace_all m_any_quote (regex_repair (trim s)))) = false ->
      fixSingleQuoteJson s = Ok s)
  /\ (forall r, fixSingleQuoteJson s = Ok r ->
                returns (JSON_parse r) = false -> r = s).
Proof.
  split; [apply fixSingleQuoteJson_total |].
  split; [| split; [| split]].
  - intros H1 H2. unfold fixSingleQuoteJson.
    destruct (str_truthy s); cbn; [| done].
    destruct (JSON_parse s); [done |].
    by rewrite H1, H2.
  - unfold fixSingleQuoteJson. cbn.
    by destruct (JSON_parse "hello world").
  - intros H1 H2. unfold fixSingleQuoteJson.
    destruct (str_truthy s); cbn; [| done].
    destruct (JSON_parse s); [done |].
    destruct (negb _ && negb _); [done |].
    destruct (JSON_parse (regex_repair (trim s))); [discriminate H1 |]. cbn.
    unfold aggressive_fix.
    destruct (startsWith _ _ && endsWith _ _); [| done].
    by destruct (JSON_parse (replace_all _ _)); [discriminate H2 |].
  - intros r Hr Hfail.
    destruct (fixSingleQuoteJson_result s) as (r' & Hr' & [-> | Hparse]);
      rewrite Hr in Hr'; injection Hr' as <-; [done | congruence].
Qed.

(** C7. Wherever the repair succeeds, that is, wherever its output parses,
    repairing the output again changes nothing. *)
Theorem fixSingleQuoteJson_idempotent (s r : string) :
  fixSingleQuoteJson s = Ok r ->
  returns (JSON_parse r) = true ->
  fixSingleQuoteJson s ≫= fixSingleQuoteJson = fixSingleQuoteJson s.
Proof.
  intros Hr Hp. rewrite Hr. cbn.
  by apply fixSingleQuoteJson_valid.
Qed.

End JsonToolsFacts.

(** C6, as stated, fails: an input that starts with a blank, hence with
    neither a brace nor a bracket, is repaired all the same, because the
    test is made on the trimmed string. *)
Lemma fixSingleQuoteJson_leading_blank_repaired :
  let s := " {'a': 1}" in
  startsWith s ("{"%char) = false
  /\ startsWith s ("["%char) = false
  /\ @fixSingleQuoteJson Reference.runtime s = Ok (dquoted "{`a`: 1}")
  /\ @fixSingleQuoteJson Reference.runtime s <> Ok s.
Proof. vm_compute. repeat split; discriminate. Qed.

Lemma safeParseJson_witness :
  returns (Reference.parse "") = false
  /\ @safeParseJson Reference.runtime "{'key': 'value'}" empty_object
     = Ok (@safeParse_spec Reference.runtime "{'key': 'value'}" empty_object).
Proof.
  split; [reflexivity |].
  apply (@safeParseJson_strict_then_repair_then_default
           Reference.runtime "{'key': 'value'}" empty_object).
  reflexivity.
Defined.

Lemma fixSingleQuoteJson_never_raises_witness :
  @fixSingleQuoteJson Reference.runtime "not a json" = Ok "not a json"
  /\ @fixSingleQuoteJson Reference.runtime "['a', 'b'" = Ok "['a', 'b'".
Proof.
  split.
  - destruct (@fixSingleQuoteJson_never_raises Reference.runtime "not a json")
      as (_ & Hshape & _ & _ & _).
    apply Hshape; reflexivity.
  - destruct (@fixSingleQuoteJson_never_raises Reference.runtime "['a', 'b'")
      as (_ & _ & _ & Hfail & _).
    apply Hfail; vm_compute; reflexivity.
Defined.

Lemma fixSingleQuoteJson_idempotent_witness :
  @fixSingleQuoteJson Reference.runtime "{'key': 'value'}"
    ≫= @fixSingleQuoteJson Reference.runtime
  = @fixSingleQuoteJson Reference.runtime "{'key': 'value'}".
Proof.
  apply (@fixSingleQuoteJson_idempotent Reference.runtime
           "{'key': 'value'}" (dquoted "{`key`: `value`}"));
    vm_compute; reflexivity.
Defined.

(* ===================================================================== *)
(** ** Properties of the request transform                                *)
(* ===================================================================== *)

(** C8, a defect of the code.  The claim sends every input that is neither
    a string nor an object naming a tool to ["auto"], objects of unrecognized
    type included.  The object [{type: 'any'}], which asks that some tool be
    called, is mapped to ["none"] instead, which forbids tool calls; so is an
    object of an unrecognized type.  The neighbouring paths do default to
    ["auto"]: the same word as a string, a missing directive and any other
    primitive. *)
Theorem transformToolChoice_any_is_none :
  transformToolChoice (ChoiceObject (Some "any") None) = choice_none
  /\ transformToolChoice (ChoiceObject (Some "any") None) <> choice_auto
  /\ transformToolChoice (ChoiceObject (Some "unrecognized") None) = choice_none
  /\ transformToolChoice (ChoiceString "any") = choice_auto
  /\ transformToolChoice ChoiceAbsent = choice_auto
  /\ transformToolChoice ChoicePrimitive = choice_auto.
Proof. repeat apply conj; try reflexivity. discriminate. Qed.

(** The behaviour of [transformToolChoice], case by case.  The string
    ["none"] maps to ["none"] and any other string to ["auto"]; an object of
    type ["tool"] that has a name maps to the forced function call of that
    name; any other object maps to ["auto"] when its type is ["auto"] and to
    ["none"] otherwise; everything else maps to ["auto"]. *)
Theorem transformToolChoice_cases :
  transformToolChoice (ChoiceString "none") = choice_none
  /\ (forall s, s <> "none" -> transformToolChoice (ChoiceString s) = choice_auto)
  /\ (forall n, transformToolChoice (ChoiceObject (Some "tool") (Some n))
                = choice_function n)
  /\ (forall name, transformToolChoice (ChoiceObject (Some "auto") name) = choice_auto)
  /\ (forall type name,
        type <> Some "auto" ->
        (type = Some "tool" -> name = None) ->
        transformToolChoice (ChoiceObject type name) = choice_none)
  /\ transformToolChoice ChoiceAbsent = choice_auto
  /\ transformToolChoice ChoicePrimitive = choice_auto.
Proof.
  repeat apply conj; try reflexivity.
  - intros s Hs. unfold transformToolChoice.
    destruct (String.eqb_spec s "none"); [contradiction | reflexivity].
  - intros type name Hauto Htool. unfold transformToolChoice.
    rewrite (bool_decide_eq_false_2 _ Hauto).
    destruct (bool_decide_reflect (type = Some "tool")) as [Ht | Ht].
    + by rewrite (Htool Ht).
    + done.
Qed.

Lemma transformToolChoice_cases_witness :
  transformToolChoice (ChoiceObject (Some "any") None) = choice_none
  /\ transformToolChoice (ChoiceString "required") = choice_auto.
Proof.
  destruct transformToolChoice_cases as (_ & Hstr & _ & _ & Hobj & _).
  split.
  - apply Hobj; [discriminate | discriminate].
  - apply Hstr. discriminate.
Defined.

Section RequestFacts.
Context `{RT : JSRuntime}.




End RequestFacts.


(* ===================================================================== *)
(** ** Properties of [mapFinishReason]                                    *)
(* ===================================================================== *)

Lemma mapping_lookup (r : string) :
  mapping !! r =
    if String.eqb r "stop" then Some end_turn
    else if String.eqb r "length" then Some max_tokens
    else if String.eqb r "tool_calls" then Some tool_use
    else if String.eqb r "content_filter" then Some end_turn
    else None.
Proof.
  unfold mapping.
  destruct (String.eqb_spec r "stop") as [-> | H1]; [by rewrite lookup_insert_eq |].
  rewrite lookup_insert_ne by done.
  destruct (String.eqb_spec r "length") as [-> | H2]; [by rewrite lookup_insert_eq |].
  rewrite lookup_insert_ne by done.
  destruct (String.eqb_spec r "tool_calls") as [-> | H3]; [by rewrite lookup_insert_eq |].
  rewrite lookup_insert_ne by done.
  destruct (String.eqb_spec r "content_filter") as [-> | H4]; [by rewrite lookup_insert_eq |].
  rewrite lookup_insert_ne by done.
  apply lookup_empty.
Qed.

(** Away from the names inherited from [Object.prototype], the function is
    the table of the specification. *)
Lemma mapFinishReason_table (reason : option string) :
  (forall r, reason = Some r -> r ∉ Object_prototype) ->
  mapFinishReason reason = Canonical (finish_reason_table reason).
Proof.
  destruct reason as [r |]; [| reflexivity].
  intros H. specialize (H r eq_refl).
  unfold mapFinishReason, mapping_get, finish_reason_table.
  destruct (str_truthy r) eqn:Hr; cbn.
  - rewrite mapping_lookup.
    repeat (destruct (String.eqb r _); [reflexivity |]).
    by rewrite bool_decide_eq_false_2.
  - apply str_truthy_false in Hr. by subst r.
Qed.

(** C3. At the finish reason ["constructor"] the lookup in the object
    literal finds the member inherited from [Object.prototype]: the result
    is not a canonical stop reason, and not the default [end_turn]. *)
Theorem mapFinishReason_constructor :
  mapFinishReason (Some "constructor") = PrototypeMember "constructor"
  /\ is_canonical (mapFinishReason (Some "constructor")) = false
  /\ mapFinishReason (Some "constructor")
     <> Canonical (finish_reason_table (Some "constructor")).
Proof. vm_compute. repeat split. discriminate. Qed.

(* ===================================================================== *)
(** ** Properties of the key-pool registry                                *)
(* ===================================================================== *)

Module KeyPoolFacts.
Import KeyPool.

Lemma getOrCreatePool_cached (m : KeyPoolManager) (id ty : string) (pool : BaseKeyPool) :
  pools m !! id = Some pool -> getOrCreatePool m id ty = (pool, m).
Proof. intros H. unfold getOrCreatePool. by rewrite H. Qed.

Lemma getOrCreatePool_registers (m : KeyPoolManager) (id ty : string) :
  pools (snd (getOrCreatePool m id ty)) !! id = Some (fst (getOrCreatePool m id ty)).
Proof.
  unfold getOrCreatePool. destruct (pools m !! id) eqn:H; cbn; [done |].
  apply lookup_insert_eq.
Qed.

Lemma getOrCreatePool_preserves (m : KeyPoolManager) (id id' ty : string)
  (pool : BaseKeyPool) :
  pools m !! id = Some pool ->
  pools (snd (getOrCreatePool m id' ty)) !! id = Some pool.
Proof.
  intros H. unfold getOrCreatePool.
  destruct (pools m !! id') eqn:H'; cbn; [done |].
  rewrite lookup_insert_ne; [done |]. congruence.
Qed.

Lemma perform_preserves (m : KeyPoolManager) (call : ManagerCall) (id : string)
  (pool : BaseKeyPool) :
  removes id call = false ->
  pools m !! id = Some pool ->
  pools (perform m call) !! id = Some pool.
Proof.
  intros Hcall H. destruct call as [id' ty | id']; cbn in *.
  - by apply getOrCreatePool_preserves.
  - rewrite lookup_delete_ne; [done |].
    intros <-. by rewrite String.eqb_refl in Hcall.
Qed.

Lemma perform_all_preserves (calls : list ManagerCall) (m : KeyPoolManager)
  (id : string) (pool : BaseKeyPool) :
  forallb (fun call => negb (removes id call)) calls = true ->
  pools m !! id = Some pool ->
  pools (perform_all m calls) !! id = Some pool.
Proof.
  revert m. induction calls as [| call calls IH]; intros m Hcalls H; [done |].
  cbn in Hcalls. apply andb_true_iff in Hcalls as [Hcall Hcalls].
  apply negb_true_iff in Hcall.
  cbn. apply IH; [done |]. by apply perform_preserves.
Qed.

(** C10. Once a pool exists for a provider id, [getOrCreatePool] returns
    that very pool and leaves the manager as it is, whatever the provider
    type passed; this still holds after any run of further calls that does
    not remove the pool; and the class of the pool is the one chosen from
    the type given to the call that created it. *)
Theorem getOrCreatePool_idempotent
  (m : KeyPoolManager) (id : string) (pool : BaseKeyPool) :
  pools m !! id = Some pool ->
  (forall ty, getOrCreatePool m id ty = (pool, m))
  /\ (forall calls ty,
        forallb (fun call => negb (removes id call)) calls = true ->
        getOrCreatePool (perform_all m calls) id ty = (pool, perform_all m calls))
  /\ (forall m0 ty0,
        pools m0 !! id = None ->
        getOrCreatePool m0 id ty0 = (pool, m) ->
        pool_class pool
        = (if String.eqb ty0 "google" then GeminiKeyPool else GenericKeyPool)
        /\ forall ty, fst (getOrCreatePool m id ty) = pool).
Proof.
  intros H. split; [| split].
  - intros ty. by apply getOrCreatePool_cached.
  - intros calls ty Hcalls. apply getOrCreatePool_cached.
    by apply perform_all_preserves.
  - intros m0 ty0 Hnone Hcreate. unfold getOrCreatePool in Hcreate.
    rewrite Hnone in Hcreate. cbn in Hcreate.
    injection Hcreate as <- _. split; [reflexivity |].
    intros ty. by rewrite (getOrCreatePool_cached _ _ _ _ H).
Qed.

Lemma getOrCreatePool_idempotent_witness :
  let m0 := mkManager ∅ ∅ 0 in
  let '(pool, m) := getOrCreatePool m0 "provider-1" "google" in
  let later := perform_all m [GetOrCreatePool "provider-2" "openai";
                              RemovePool "provider-2"] in
  getOrCreatePool m "provider-1" "openai" = (pool, m)
  /\ getOrCreatePool later "provider-1" "openai" = (pool, later)
  /\ pool_class pool = GeminiKeyPool.
Proof.
  cbn zeta.
  destruct (getOrCreatePool_idempotent
              (snd (getOrCreatePool (mkManager ∅ ∅ 0) "provider-1" "google"))
              "provider-1"
              (fst (getOrCreatePool (mkManager ∅ ∅ 0) "provider-1" "google")))
    as (Hsame & Hlater & Hclass).
  { apply getOrCreatePool_registers. }
  split; [| split].
  - apply (Hsame "openai").
  - apply (Hlater [GetOrCreatePool "provider-2" "openai"; RemovePool "provider-2"]
             "openai"). reflexivity.
  - apply (Hclass (mkManager ∅ ∅ 0) "google"); reflexivity.
Defined.

End KeyPoolFacts.

(* ===================================================================== *)
(** ** Properties of the streaming engine                                 *)
(* ===================================================================== *)

Section StreamFacts.
Context `{RT : JSRuntime}.

(** *** The controller *)

Lemma push_nil (c : Controller) : push c [] = c.
Proof. destruct c. unfold push. cbn. by rewrite app_nil_r. Qed.

Lemma push_push (c : Controller) (a b : list SSEEvent) :
  push (push c a) b = push c (a ++ b).
Proof. unfold push. cbn. by rewrite app_assoc. Qed.

Lemma readable_push (c : Controller) (events : list SSEEvent) :
  readable (push c events) = readable c.
Proof. reflexivity. Qed.

Lemma enqueue_readable (e : SSEEvent) (c : Controller) :
  readable c = true -> enqueue e c = (Ok (), push c [e]).
Proof. intros H. unfold enqueue. by rewrite H. Qed.

(** Running a sequence of [enqueue]s on a readable controller. *)
Ltac run_enqueue :=
  repeat first
    [ rewrite push_push
    | rewrite push_nil
    | match goal with
      | H : readable ?c = true |- context [enqueue ?e (push ?c ?evs)] =>
          rewrite (enqueue_readable e (push c evs)) by (by rewrite readable_push)
      | H : readable ?c = true |- context [enqueue ?e ?c] =>
          rewrite (enqueue_readable e c H)
      end
    | progress cbn [mbind mret eff_mbind eff_mret when negb] ].

Lemma emit_block_events (index : nat) (b : ContentBlock) (c : Controller) :
  readable c = true ->
  emit_block index b c = (Ok (), push c (block_events index b)).
Proof.
  intros H. unfold emit_block, block_events.
  destruct b; unfold mbind, eff_mbind; run_enqueue; reflexivity.
Qed.

Lemma emit_blocks_events (content : list ContentBlock) (index : nat) (c : Controller) :
  readable c = true ->
  emit_blocks index content c = (Ok (), push c (blocks_events index content)).
Proof.
  revert index c. induction content as [| b rest IH]; intros index c H; cbn.
  - by rewrite push_nil.
  - unfold mbind, eff_mbind. rewrite emit_block_events by done.
    rewrite IH by done. by rewrite push_push.
Qed.

Lemma outputClaudeMessageAsStream_events (m : Message) (c : Controller) :
  readable c = true ->
  outputClaudeMessageAsStream m c = (Ok (), push c (message_events m)).
Proof.
  intros H. unfold outputClaudeMessageAsStream, eff_try, message_events.
  unfold mbind, eff_mbind. rewrite (enqueue_readable _ c H).
  rewrite emit_blocks_events by done. rewrite push_push.
  rewrite (enqueue_readable _ (push c _)) by done. rewrite push_push.
  rewrite (enqueue_readable _ (push c _)) by done. rewrite push_push.
  do 2 f_equal. cbn. by rewrite <- !app_assoc.
Qed.

Lemma emit_chunk_events (flags : bool * bool) (chunk : ChatCompletionChunk)
  (c : Controller) :
  readable c = true ->
  emit_chunk flags chunk c
  = (Ok (next_flags flags chunk), push c (chunk_events flags chunk)).
Proof.
  intros H. destruct flags as [ms cs].
  unfold emit_chunk, chunk_events, next_flags, chunk_text, chunk_finish.
  destruct chunk as [model [| choice choices]]; cbn [head chunk_choices chunk_model fst snd].
  - destruct ms; unfold mbind, eff_mbind; run_enqueue; cbn;
      rewrite ?push_nil, ?orb_false_r; reflexivity.
  - destruct choice as [[content tools] fin]; cbn [choice_delta delta_content choice_finish_reason].
    destruct ms, cs, (opt_truthy content) eqn:Hc, (opt_truthy fin) eqn:Hf;
      unfold mbind, eff_mbind; run_enqueue;
      try (destruct content as [t |]; [| discriminate Hc]);
      try (destruct fin as [f |]; [| discriminate Hf]);
      cbn; rewrite ?push_nil; reflexivity.
Qed.

Lemma emit_chunks_events (chunks : list ChatCompletionChunk) (flags : bool * bool)
  (c : Controller) :
  readable c = true ->
  emit_chunks flags chunks c = (Ok (), push c (chunks_events flags chunks)).
Proof.
  revert flags c. induction chunks as [| chunk rest IH]; intros flags c H; cbn.
  - by rewrite push_nil.
  - unfold mbind, eff_mbind. rewrite emit_chunk_events by done.
    rewrite IH by done. by rewrite push_push.
Qed.

(** *** What the engine emits *)

Lemma handleStreamError_events (error : JSError) (c : Controller) :
  readable c = true ->
  handleStreamError error c
  = (Ok (),
     mkController (emitted c ++ fallback_events)
       (Some (mkError PlainError (stream_failure_prefix +:+ err_message error)))
       (closed c)).
Proof.
  intros H. unfold handleStreamError, eff_try, mbind, eff_mbind.
  rewrite (enqueue_readable _ c H).
  rewrite (enqueue_readable _ (push c _)) by done. rewrite push_push.
  rewrite (enqueue_readable _ (push c _)) by done. rewrite push_push.
  unfold controller_error. by rewrite readable_push, H.
Qed.

(** The three ways a turn ends: the upstream failed, or a tool call was seen
    and the turn is replayed from its reconstruction (or from the recovery
    sequence when the reconstruction throws), or the chunks are re-emitted
    one by one. *)
Lemma transformStreamResponse_emitted (s : ProviderStream) :
  emitted (transformStreamResponse s) =
    match stream_failure s with
    | Some _ => fallback_events
    | None =>
        if existsb has_tool_call_delta (stream_chunks s) then
          match reconstructCompletionFromChunks (stream_chunks s) ≫= transformResponse with
          | Ok m => message_events m
          | Throw _ => fallback_events
          end
        else chunks_events (false, false) (stream_chunks s)
    end.
Proof.
  unfold transformStreamResponse, start, eff_finally, eff_try, collect.
  unfold mbind at 1. unfold eff_mbind, lift.
  destruct (stream_failure s) as [e |].
  - by rewrite handleStreamError_events.
  - destruct (existsb has_tool_call_delta (stream_chunks s)).
    + unfold mbind at 1. unfold eff_mbind.
      destruct (reconstructCompletionFromChunks (stream_chunks s)) as [resp | e]; cbn.
      * unfold mbind at 1. unfold eff_mbind.
        destruct (transformResponse resp) as [m | e]; cbn.
        -- rewrite outputClaudeMessageAsStream_events by done. reflexivity.
        -- by rewrite handleStreamError_events.
      * by rewrite handleStreamError_events.
    + unfold outputChunksAsStream.
      rewrite emit_chunks_events by done. reflexivity.
Qed.

Lemma transformStreamResponse_failure (s : ProviderStream) (e : JSError) :
  stream_failure s = Some e ->
  transformStreamResponse s
  = mkController fallback_events
      (Some (mkError PlainError (stream_failure_prefix +:+ err_message e))) false.
Proof.
  intros H.
  unfold transformStreamResponse, start, eff_finally, eff_try, collect.
  unfold mbind at 1. unfold eff_mbind, lift. rewrite H.
  by rewrite handleStreamError_events.
Qed.

(** *** Text of a turn without tool calls *)

Lemma text_deltas_app (a b : list SSEEvent) :
  text_deltas (a ++ b) = text_deltas a ++ text_deltas b.
Proof. apply omap_app. Qed.

Lemma text_deltas_chunk_events (flags : bool * bool) (chunk : ChatCompletionChunk) :
  text_deltas (chunk_events flags chunk)
  = match chunk_text chunk with Some t => [t] | None => [] end.
Proof.
  unfold chunk_events. destruct flags as [[] []], (chunk_text chunk), (chunk_finish chunk);
    reflexivity.
Qed.

Lemma text_deltas_chunks_events (chunks : list ChatCompletionChunk) (flags : bool * bool) :
  text_deltas (chunks_events flags chunks) = omap chunk_text chunks.
Proof.
  revert flags. induction chunks as [| chunk rest IH]; intros flags; [reflexivity |].
  cbn [chunks_events]. rewrite text_deltas_app, text_deltas_chunk_events, IH.
  cbn. by destruct (chunk_text chunk).
Qed.


(** *** Protocol validity *)

Lemma protocol_run_app (a b : list SSEEvent) (st : ProtocolState) :
  protocol_run st (a ++ b) = protocol_run st a ≫= fun st' => protocol_run st' b.
Proof.
  revert st. induction a as [| e a IH]; intros st; cbn; [done |].
  destruct (protocol_step st e); [apply IH | done].
Qed.

Lemma protocol_run_blocks (content : list ContentBlock) (index : nat) (tool_seen : bool) :
  text_first tool_seen content = true ->
  protocol_run (BetweenBlocks index tool_seen) (blocks_events index content)
  = Some (BetweenBlocks (index + length content)
            (tool_seen || existsb is_tool_use content)).
Proof.
  revert index tool_seen.
  induction content as [| b rest IH]; intros index tool_seen H; cbn.
  - by rewrite Nat.add_0_r, orb_false_r.
  - cbn in H. apply andb_true_iff in H as [Hb Hrest].
    rewrite Nat.eqb_refl. destruct b as [text | id name input]; cbn in *.
    + rewrite Hb. cbn. rewrite Nat.eqb_refl. cbn. rewrite Nat.eqb_refl.
      rewrite orb_false_r in Hrest.
      rewrite IH by done. by rewrite Nat.add_succ_r.
    + rewrite Nat.eqb_refl. cbn. rewrite Nat.eqb_refl.
      rewrite orb_true_r in Hrest.
      rewrite IH by done. by rewrite Nat.add_succ_r, orb_true_r.
Qed.

Lemma message_events_valid (m : Message) :
  text_first false (msg_content m) = true ->
  protocol_valid (message_events m) = true.
Proof.
  intros H. unfold protocol_valid, message_events. cbn [protocol_run protocol_step].
  rewrite protocol_run_app, protocol_run_blocks by done. reflexivity.
Qed.

Lemma fallback_events_valid : protocol_valid fallback_events = true.
Proof. reflexivity. Qed.

Lemma tool_use_blocks_are_tools (toolCalls : sparse FunctionToolCall)
  (blocks : list ContentBlock) :
  tool_use_blocks toolCalls = Ok blocks -> forallb is_tool_use blocks = true.
Proof.
  revert blocks. induction toolCalls as [| [call |] rest IH]; intros blocks; cbn.
  - by intros [= <-].
  - unfold mbind, exc_mbind.
    destruct (fixToolCallArguments _) as [input | e]; cbn; [| done].
    destruct (tool_use_blocks rest) as [bs | e]; cbn; [| done].
    intros [= <-]. cbn. by apply IH.
  - done.
Qed.

Lemma text_first_tools (blocks : list ContentBlock) (tool_seen : bool) :
  forallb is_tool_use blocks = true -> text_first tool_seen blocks = true.
Proof.
  revert tool_seen. induction blocks as [| b rest IH]; intros tool_seen H; [done |].
  cbn in *. apply andb_true_iff in H as [-> Hrest]. cbn. by apply IH.
Qed.

Lemma transformResponse_text_first (response : ChatCompletion) (m : Message) :
  transformResponse response = Ok m -> text_first false (msg_content m) = true.
Proof.
  unfold transformResponse.
  destruct (head (completion_choices response)) as [choice |]; [| done].
  unfold mbind, exc_mbind.
  destruct (match message_tool_calls choice with
            | Some toolCalls => tool_use_blocks toolCalls
            | None => Ok []
            end) as [tools | e] eqn:Ht; cbn; [| done].
  intros [= <-]. cbn.
  assert (Htools : forallb is_tool_use tools = true).
  { destruct (message_tool_calls choice); [by eapply tool_use_blocks_are_tools |].
    by injection Ht as <-. }
  destruct (message_content choice) as [t |]; [destruct (str_truthy t) |]; cbn;
    by apply text_first_tools.
Qed.

(** Once the stream has finished, only silence keeps it valid. *)
Lemma protocol_run_after_finish (rest : list ChatCompletionChunk) (cs : bool) :
  protocol_run Finished (chunks_events (true, cs) rest)
  = if forallb silent rest then Some Finished else None.
Proof.
  revert cs. induction rest as [| chunk rest IH]; intros cs; [reflexivity |].
  cbn [chunks_events forallb]. unfold silent at 1, chunk_events, next_flags.
  cbn [fst snd].
  destruct (chunk_text chunk) as [t |]; cbn.
  - destruct cs; cbn; reflexivity.
  - destruct (chunk_finish chunk) as [f |]; cbn.
    + destruct cs; cbn; reflexivity.
    + rewrite orb_false_r. apply IH.
Qed.

Lemma chunks_events_valid (chunks : list ChatCompletionChunk) (flags : bool * bool) :
  (snd flags = true -> fst flags = true) ->
  match protocol_run (flags_state flags) (chunks_events flags chunks) with
  | Some Finished => true
  | _ => false
  end = well_terminated chunks.
Proof.
  revert flags. induction chunks as [| chunk rest IH]; intros [ms cs] Hflags.
  - cbn. destruct ms, cs; reflexivity.
  - cbn [chunks_events well_terminated]. rewrite protocol_run_app.
    unfold chunk_events, next_flags. cbn [fst snd] in *.
    destruct (chunk_finish chunk) as [f |] eqn:Hf; cbn [present].
    + assert (Hrun : forall st, st = Some Finished ->
                st ≫= (fun st' => protocol_run st'
                         (chunks_events (true, cs || present (chunk_text chunk)) rest))
                = if forallb silent rest then Some Finished else None).
      { intros st ->. cbn. apply protocol_run_after_finish. }
      rewrite Hrun; [by destruct (forallb silent rest) |].
      destruct ms, cs, (chunk_text chunk) as [t |]; cbn;
        first [reflexivity | by specialize (Hflags eq_refl)].
    + rewrite app_nil_r.
      assert (Hstep : protocol_run (flags_state (ms, cs))
                ((if ms then [] else [message_start (blank_message (chunk_model chunk) None)])
                 ++ match chunk_text chunk with
                    | Some t =>
                        (if cs then [] else [content_block_start 0 (TextBlock "")])
                        ++ [content_block_delta 0 (text_delta t)]
                    | None => []
                    end)
              = Some (flags_state (true, cs || present (chunk_text chunk)))).
      { destruct ms, cs, (chunk_text chunk) as [t |]; cbn;
          first [reflexivity | by specialize (Hflags eq_refl)]. }
      rewrite Hstep. cbn [mbind option_bind]. apply IH. cbn. done.
Qed.

(** Every turn that fails upstream or carries a tool call is closed by a
    valid event sequence; a turn re-emitted chunk by chunk is valid exactly
    when it ends properly. *)
Lemma transformStreamResponse_valid (s : ProviderStream) :
  protocol_valid (emitted (transformStreamResponse s))
  = bool_decide (is_Some (stream_failure s))
    || existsb has_tool_call_delta (stream_chunks s)
    || well_terminated (stream_chunks s).
Proof.
  rewrite transformStreamResponse_emitted.
  destruct (stream_failure s) as [e |]; [reflexivity |].
  rewrite bool_decide_eq_false_2 by (by intros [? ?]). cbn [orb].
  destruct (existsb has_tool_call_delta (stream_chunks s)); cbn [orb].
  - destruct (reconstructCompletionFromChunks (stream_chunks s)) as [resp | e];
      cbn; [| reflexivity].
    destruct (transformResponse resp) as [m | e] eqn:Hm; [| reflexivity].
    apply message_events_valid. by eapply transformResponse_text_first.
  - unfold protocol_valid.
    by rewrite <- (chunks_events_valid (stream_chunks s) (false, false)).
Qed.

(** C2. A turn without tool calls whose chunks carry no finish reason (here
    a single text chunk) is emitted as [message_start],
    [content_block_start], [content_block_delta] and nothing more: the block
    is never stopped and neither [message_delta] nor [message_stop] follows
    before the stream is closed, without an error being signalled, so the
    sequence the consumer observes is truncated. *)
Theorem unfinished_turn_is_truncated :
  emitted (transformStreamResponse (mkStream [text_chunk "Hi" None] None))
  = [ message_start (blank_message "gpt" None);
      content_block_start 0 (TextBlock "");
      content_block_delta 0 (text_delta "Hi") ]
  /\ errored (transformStreamResponse (mkStream [text_chunk "Hi" None] None)) = None
  /\ closed (transformStreamResponse (mkStream [text_chunk "Hi" None] None)) = true
  /\ protocol_valid
       (emitted (transformStreamResponse (mkStream [text_chunk "Hi" None] None)))
     = false.
Proof. repeat apply conj; reflexivity. Qed.

(** C1. A turn whose only tool call arrives with index 1 leaves a hole at
    index 0 of the reconstructed [tool_calls] array; reading the hole throws,
    and the turn is closed by the recovery sequence: no [tool_use] block is
    emitted for the name and arguments the provider sent. *)
Theorem tool_call_at_index_one_is_lost :
  let s := mkStream
             [tool_chunk 1 (Some "call_1") (Some "get_weather")
                (Some "{}") (Some "tool_calls")] None in
  (exists response,
     reconstructCompletionFromChunks (stream_chunks s) = Ok response
     /\ (message_tool_calls <$> head (completion_choices response))
        = Some (Some [None; Some (mkCall "call_1" "get_weather" "{}")])
     /\ transformResponse response = Throw undefined_read)
  /\ emitted (transformStreamResponse s) = fallback_events
  /\ tool_use_starts (emitted (transformStreamResponse s)) = []
  /\ errored (transformStreamResponse s)
     = Some (mkError PlainError (stream_failure_prefix +:+ err_message undefined_read)).
Proof.
  cbn zeta. repeat apply conj; try reflexivity.
  eexists. repeat apply conj; reflexivity.
Qed.

End StreamFacts.


(* ===================================================================== *)
(** ** The reconstruction of a turn with tool calls                       *)
(* ===================================================================== *)

Section ReconstructionFacts.
Context `{RT : JSRuntime}.

(** *** Strings *)

Lemma string_app_nil_r (s : string) : s +:+ "" = s.
Proof.
  induction s as [| c s IH]; [done |].
  change (String c (s +:+ "") = String c s). by rewrite IH.
Qed.

Lemma string_app_assoc (a b c : string) : (a +:+ b) +:+ c = a +:+ b +:+ c.
Proof.
  induction a as [| x a IH]; [done |].
  change (String x ((a +:+ b) +:+ c) = String x (a +:+ b +:+ c)). by rewrite IH.
Qed.

Lemma concat_strings_app (a b : list string) :
  concat_strings (a ++ b) = concat_strings a +:+ concat_strings b.
Proof.
  unfold concat_strings. induction a as [| x a IH]; cbn [foldr app]; [done |].
  by rewrite IH, string_app_assoc.
Qed.

(** *** The map *)

Lemma map_get_set_eq {V} (k : nat) (v : V) (m : JSMap V) :
  map_get k (map_set k v m) = Some v.
Proof.
  induction m as [| [k' v'] m IH]; cbn.
  - by rewrite Nat.eqb_refl.
  - destruct (Nat.eqb k k') eqn:E; cbn; rewrite ?Nat.eqb_refl, ?E; done.
Qed.

Lemma map_get_set_ne {V} (k i : nat) (v : V) (m : JSMap V) :
  i <> k -> map_get i (map_set k v m) = map_get i m.
Proof.
  intros Hne. induction m as [| [k' v'] m IH]; cbn.
  - by rewrite (proj2 (Nat.eqb_neq i k)).
  - destruct (Nat.eqb_spec k k') as [<- | Hkk']; cbn.
    + by rewrite (proj2 (Nat.eqb_neq i k)).
    + destruct (Nat.eqb i k'); [done | apply IH].
Qed.

Lemma map_set_keys {V} (k : nat) (v : V) (m : JSMap V) :
  (map_set k v m).*1 = if map_has k m then m.*1 else m.*1 ++ [k].
Proof.
  unfold map_has. induction m as [| [k' v'] m IH]; cbn; [done |].
  destruct (Nat.eqb_spec k k') as [<- | Hkk']; cbn.
  - done.
  - rewrite IH. by destruct (bool_decide (is_Some (map_get k m))).
Qed.

Lemma map_has_elem_of {V} (k : nat) (m : JSMap V) :
  map_has k m = true <-> k ∈ m.*1.
Proof.
  unfold map_has. rewrite bool_decide_eq_true.
  induction m as [| [k' v'] m IH]; cbn.
  - split; [by intros [? ?] | by intros ?%elem_of_nil].
  - rewrite elem_of_cons. destruct (Nat.eqb_spec k k') as [<- | Hkk'].
    + split; [by left | eauto].
    + rewrite IH. intuition congruence.
Qed.

Lemma map_set_NoDup {V} (k : nat) (v : V) (m : JSMap V) :
  NoDup m.*1 -> NoDup (map_set k v m).*1.
Proof.
  intros H. rewrite map_set_keys. destruct (map_has k m) eqn:E; [done |].
  apply NoDup_app. split; [done |]. split; [| apply NoDup_singleton].
  intros x Hx ->%list_elem_of_singleton.
  apply map_has_elem_of in Hx. congruence.
Qed.

(** *** One delta *)

Lemma update_call_apply (call : FunctionToolCall) (d : ToolCallDelta) :
  update_call call d = apply_delta call d.
Proof.
  unfold update_call, apply_delta, delta_name, delta_arguments.
  destruct call as [cid cname cargs].
  destruct (tcd_function d ≫= fd_name) as [n |];
    destruct (tcd_function d ≫= fd_arguments) as [a |]; cbn;
    repeat match goal with |- context [str_truthy ?x] => destruct (str_truthy x) end;
    cbn; rewrite ?string_app_nil_r; reflexivity.
Qed.

Lemma merge_tool_call_get (m : JSMap FunctionToolCall) (d : ToolCallDelta) (i : nat) :
  map_get i (merge_tool_call m d)
  = if decide (i = delta_index d)
    then Some (apply_delta (default (new_call d) (map_get i m)) d)
    else map_get i m.
Proof.
  unfold merge_tool_call. fold (delta_index d). fold (new_call d).
  unfold map_has. destruct (map_get (delta_index d) m) as [call |] eqn:Hj.
  - rewrite bool_decide_eq_true_2 by eauto. rewrite Hj, update_call_apply.
    destruct (decide (i = delta_index d)) as [-> | Hne].
    + by rewrite map_get_set_eq, Hj.
    + by rewrite map_get_set_ne.
  - rewrite bool_decide_eq_false_2 by (by intros [? ?]).
    rewrite map_get_set_eq, update_call_apply.
    destruct (decide (i = delta_index d)) as [-> | Hne].
    + by rewrite map_get_set_eq, Hj.
    + by rewrite !map_get_set_ne.
Qed.

Lemma merge_tool_call_NoDup (m : JSMap FunctionToolCall) (d : ToolCallDelta) :
  NoDup m.*1 -> NoDup (merge_tool_call m d).*1.
Proof.
  intros H. unfold merge_tool_call.
  set (m' := if map_has _ m then m else _).
  assert (H' : NoDup m'.*1).
  { unfold m'. destruct (map_has _ m); [done | by apply map_set_NoDup]. }
  destruct (map_get _ m'); [by apply map_set_NoDup | done].
Qed.

(** *** All the deltas of a turn *)

Lemma last_name_snoc (l : list ToolCallDelta) (d : ToolCallDelta) :
  default "" (last (omap delta_name (l ++ [d])))
  = default (default "" (last (omap delta_name l))) (delta_name d).
Proof.
  rewrite omap_app, last_app. cbn [omap list_omap].
  destruct (delta_name d); [done |]. done.
Qed.

Lemma joined_arguments_snoc (l : list ToolCallDelta) (d : ToolCallDelta) :
  concat_strings (omap delta_arguments (l ++ [d]))
  = concat_strings (omap delta_arguments l) +:+ default "" (delta_arguments d).
Proof.
  rewrite omap_app, concat_strings_app. f_equal. cbn [omap list_omap].
  destruct (delta_arguments d); [apply string_app_nil_r | done].
Qed.

Lemma assemble_snoc (i : nat) (fs : list ToolCallDelta) (d : ToolCallDelta) :
  delta_index d = i ->
  assemble i (fs ++ [d]) = Some (apply_delta (default (new_call d) (assemble i fs)) d).
Proof.
  intros Hd. unfold apply_delta.
  pose proof (last_name_snoc fs d) as Hname.
  pose proof (joined_arguments_snoc fs d) as Hargs.
  destruct fs as [| f fs].
  - unfold assemble, new_call. cbn [app default call_id call_name call_arguments].
    rewrite Hd. do 2 f_equal; [apply Hname | apply Hargs].
  - unfold assemble. cbn [app default call_id call_name call_arguments].
    do 2 f_equal; [apply Hname | apply Hargs].
Qed.

(** The fold over the deltas computes, for every index, the call the deltas
    of that index describe. *)
Lemma merge_tool_calls_get (ds : list ToolCallDelta) (i : nat) :
  map_get i (foldl merge_tool_call [] ds)
  = assemble i (filter (fun d => delta_index d = i) ds).
Proof.
  induction ds as [| d ds IH] using rev_ind; [done |].
  rewrite foldl_app, filter_app. cbn [foldl].
  rewrite merge_tool_call_get, IH.
  destruct (decide (i = delta_index d)) as [-> | Hne].
  - rewrite filter_cons_True by done. cbn [filter list_filter].
    by rewrite assemble_snoc.
  - rewrite filter_cons_False by done. cbn. by rewrite app_nil_r.
Qed.

Lemma merge_tool_calls_NoDup (ds : list ToolCallDelta) :
  NoDup (foldl merge_tool_call [] ds).*1.
Proof.
  induction ds as [| d ds IH] using rev_ind; [apply NoDup_nil_2 |].
  rewrite foldl_app. cbn. by apply merge_tool_call_NoDup.
Qed.

Lemma key_bound_elem_of {V} (m : JSMap V) (k : nat) :
  k ∈ m.*1 -> S k <= key_bound m.
Proof.
  unfold key_bound. induction m as [| [k' v'] m IH]; cbn.
  - by intros ?%elem_of_nil.
  - intros [-> | H]%elem_of_cons; [lia |]. specialize (IH H). cbn in IH. lia.
Qed.

Lemma map_set_key_bound {V} (k : nat) (v : V) (m : JSMap V) :
  key_bound (map_set k v m) = Nat.max (key_bound m) (S k).
Proof.
  unfold key_bound at 1. rewrite map_set_keys.
  destruct (map_has k m) eqn:E.
  - apply map_has_elem_of, key_bound_elem_of in E. fold (key_bound m). lia.
  - rewrite foldr_app. cbn. fold (@key_bound V).
    clear E. unfold key_bound. induction (m.*1) as [| k' l IH]; cbn; [lia |].
    rewrite IH. lia.
Qed.

Lemma merge_tool_call_key_bound (m : JSMap FunctionToolCall) (d : ToolCallDelta) :
  key_bound (merge_tool_call m d) = Nat.max (key_bound m) (S (delta_index d)).
Proof.
  unfold merge_tool_call. fold (delta_index d).
  set (m' := if map_has _ m then m else _).
  assert (Hm' : key_bound m' = Nat.max (key_bound m) (S (delta_index d))).
  { unfold m'. destruct (map_has (delta_index d) m) eqn:E.
    - apply map_has_elem_of, key_bound_elem_of in E. lia.
    - apply map_set_key_bound. }
  destruct (map_get (delta_index d) m'); [| done].
  rewrite map_set_key_bound. lia.
Qed.

Lemma index_bound_snoc (ds : list ToolCallDelta) (d : ToolCallDelta) :
  index_bound (ds ++ [d]) = Nat.max (index_bound ds) (S (delta_index d)).
Proof.
  unfold index_bound. induction ds as [| d' ds IH]; cbn [foldr app]; [lia |].
  rewrite IH. lia.
Qed.

Lemma merge_tool_calls_key_bound (ds : list ToolCallDelta) :
  key_bound (foldl merge_tool_call [] ds) = index_bound ds.
Proof.
  induction ds as [| d ds IH] using rev_ind; [done |].
  rewrite foldl_app. cbn [foldl].
  by rewrite merge_tool_call_key_bound, IH, index_bound_snoc.
Qed.

(** *** From the map to the array *)

Lemma array_set_length {V} (a : sparse V) (i : nat) (v : V) :
  length (array_set a i v) = Nat.max (length a) (S i).
Proof.
  unfold array_set. destruct (Nat.ltb_spec i (length a)); cbv beta iota.
  - rewrite length_insert. lia.
  - rewrite !length_app, length_replicate. cbn. lia.
Qed.

Lemma array_set_get_eq {V} (a : sparse V) (i : nat) (v : V) :
  array_get (array_set a i v) i = Some v.
Proof.
  unfold array_get, array_set. destruct (Nat.ltb_spec i (length a)); cbv beta iota.
  - by rewrite list_lookup_insert_eq.
  - rewrite lookup_app_r by lia. rewrite lookup_app_r by (rewrite length_replicate; lia).
    rewrite length_replicate. by replace (i - length a - (i - length a)) with 0 by lia.
Qed.

Lemma array_set_get_ne {V} (a : sparse V) (i j : nat) (v : V) :
  j <> i -> array_get (array_set a i v) j = array_get a j.
Proof.
  intros Hne. unfold array_get, array_set. destruct (Nat.ltb_spec i (length a)); cbv beta iota.
  - by rewrite list_lookup_insert_ne.
  - destruct (Nat.ltb_spec j (length a)).
    + by rewrite lookup_app_l.
    + rewrite (lookup_ge_None_2 a j) by lia. rewrite lookup_app_r by lia.
      destruct (Nat.ltb_spec (j - length a) (i - length a)).
      * rewrite lookup_app_l by (rewrite length_replicate; lia).
        by rewrite lookup_replicate_2.
      * rewrite lookup_app_r by (rewrite length_replicate; lia).
        rewrite length_replicate. rewrite lookup_ge_None_2; [done |]. cbn. lia.
Qed.

Lemma foldl_array_set_get {V} (m : JSMap V) (a : sparse V) (i : nat) :
  NoDup m.*1 ->
  array_get (foldl (fun toolCalls kv => array_set toolCalls (fst kv) (snd kv)) a m) i
  = match map_get i m with Some v => Some v | None => array_get a i end.
Proof.
  revert a. induction m as [| [k v] m IH]; intros a Hnd; [done |].
  cbn in Hnd. apply NoDup_cons in Hnd as [Hk Hnd].
  cbn [foldl map_get fst snd]. rewrite IH by done.
  destruct (Nat.eqb_spec i k) as [-> | Hne].
  - destruct (map_get k m) as [v' |] eqn:Hget.
    + exfalso. apply Hk. apply map_has_elem_of. unfold map_has.
      rewrite Hget. by apply bool_decide_eq_true_2.
    + apply array_set_get_eq.
  - by rewrite array_set_get_ne.
Qed.

Lemma foldl_array_set_length {V} (m : JSMap V) (a : sparse V) :
  length (foldl (fun toolCalls kv => array_set toolCalls (fst kv) (snd kv)) a m)
  = Nat.max (length a) (key_bound m).
Proof.
  revert a. induction m as [| [k v] m IH]; intros a; cbn [foldl fst snd].
  - cbn. lia.
  - rewrite IH, array_set_length. unfold key_bound. cbn. lia.
Qed.

Lemma map_to_array_lookup (m : JSMap FunctionToolCall) (i : nat) :
  NoDup m.*1 ->
  map_to_array m !! i = if Nat.ltb i (key_bound m) then Some (map_get i m) else None.
Proof.
  intros Hnd. pose proof (foldl_array_set_get m [] i Hnd) as Hget.
  pose proof (foldl_array_set_length m []) as Hlen.
  fold (map_to_array m) in Hget, Hlen. cbn [length Nat.max] in Hlen.
  unfold array_get in Hget.
  destruct (Nat.ltb_spec i (key_bound m)).
  - destruct (map_to_array m !! i) as [slot |] eqn:Hslot.
    + cbn in Hget. rewrite Hget. by destruct (map_get i m).
    + apply lookup_ge_None in Hslot. lia.
  - apply lookup_ge_None. lia.
Qed.

(** The array handed to the response transform holds, slot by slot, the
    tool calls the provider sent. *)
Lemma map_to_array_provider (chunks : list ChatCompletionChunk) :
  map_to_array (foldl merge_tool_call [] (tool_call_deltas chunks))
  = provider_tool_calls chunks.
Proof.
  apply list_eq. intros i. unfold provider_tool_calls, provider_tool_call.
  rewrite map_to_array_lookup by apply merge_tool_calls_NoDup.
  rewrite merge_tool_calls_key_bound, merge_tool_calls_get.
  rewrite list_lookup_fmap.
  destruct (Nat.ltb_spec i (index_bound (tool_call_deltas chunks))).
  - by rewrite lookup_seq_lt.
  - by rewrite lookup_seq_ge.
Qed.

(** *** All the chunks of a turn *)

Lemma provider_text_cons (chunk : ChatCompletionChunk) (rest : list ChatCompletionChunk) :
  provider_text (chunk :: rest) = default "" (chunk_text chunk) +:+ provider_text rest.
Proof. unfold provider_text. cbn. by destruct (chunk_text chunk). Qed.

Lemma foldl_merge_chunk (chunks : list ChatCompletionChunk) (a : Accumulator) :
  foldl merge_chunk a chunks
  = mkAcc (acc_content a +:+ provider_text chunks)
      (foldl merge_tool_call (acc_toolCallsMap a) (tool_call_deltas chunks))
      (from_option Some (acc_finishReason a) (last (omap chunk_finish chunks))).
Proof.
  revert a. induction chunks as [| chunk rest IH]; intros a.
  - destruct a. cbn. by rewrite string_app_nil_r.
  - cbn [foldl]. rewrite IH. rewrite provider_text_cons.
    unfold tool_call_deltas. cbn [map concat]. rewrite foldl_app.
    unfold merge_chunk, chunk_text, chunk_finish. cbn [omap list_omap].
    destruct (head (chunk_choices chunk)) as [choice |]; cbn [acc_content acc_toolCallsMap acc_finishReason].
    + f_equal.
      * destruct (opt_truthy (delta_content (choice_delta choice))) eqn:E.
        -- by rewrite string_app_assoc.
        -- cbn. done.
      * by destruct (delta_tool_calls (choice_delta choice)).
      * destruct (opt_truthy (choice_finish_reason choice)) eqn:E.
        -- destruct (choice_finish_reason choice) as [f |]; [| discriminate E].
           rewrite last_cons. by destruct (last _).
        -- done.
    + done.
Qed.

(** The reconstruction is the response the buffered chunks describe: their
    texts joined in arrival order, and for each tool-call index the id first
    seen, the name set last and the argument fragments joined in arrival
    order. *)
Lemma reconstructCompletionFromChunks_spec
  (first : ChatCompletionChunk) (rest : list ChatCompletionChunk) :
  let chunks := first :: rest in
  reconstructCompletionFromChunks chunks
  = Ok (mkCompletion ("chatcmpl_" +:+ pretty Date_now) (chunk_model first)
          [mkChoice
             (if str_truthy (provider_text chunks) then Some (provider_text chunks) else None)
             (match provider_tool_calls chunks with
              | [] => None
              | _ => Some (provider_tool_calls chunks)
              end)
             (last (omap chunk_finish chunks))]
          (Some (mkUsage 0 0))).
Proof.
  intros chunks. unfold reconstructCompletionFromChunks. fold chunks.
  rewrite foldl_merge_chunk. cbn [acc_content acc_toolCallsMap acc_finishReason].
  rewrite map_to_array_provider.
  change ("" +:+ provider_text chunks) with (provider_text chunks).
  by destruct (last (omap chunk_finish chunks)).
Qed.

(** *** Replaying the reconstruction *)

Lemma tool_use_blocks_dense (calls : list FunctionToolCall) :
  tool_use_blocks (Some <$> calls) = Ok (map tool_use_block calls).
Proof.
  induction calls as [| call calls IH]; [done |].
  cbn [fmap list_fmap tool_use_blocks map]. rewrite IH.
  unfold tool_use_block at 2, repaired_input, arguments_text.
  destruct (safeParseJson_total
              (if str_truthy (call_arguments call) then call_arguments call
               else "{}") empty_object)
    as [v Hv].
  unfold fixToolCallArguments. by rewrite Hv.
Qed.

(** A turn with tool calls whose indices leave no gap is replayed as the
    canonical message of its reconstruction: the text block if there is
    text, then one [tool_use] block per call with the provider's name and
    the joined, repaired arguments. *)
Lemma dense_tool_turn_replayed (s : ProviderStream) (calls : list FunctionToolCall) :
  stream_failure s = None ->
  existsb has_tool_call_delta (stream_chunks s) = true ->
  provider_tool_calls (stream_chunks s) = Some <$> calls ->
  emitted (transformStreamResponse s)
  = message_events (replayed_message (stream_chunks s) calls).
Proof.
  intros Hok Htool Hdense. rewrite transformStreamResponse_emitted, Hok, Htool.
  destruct (stream_chunks s) as [| first rest] eqn:Hchunks; [discriminate Htool |].
  rewrite reconstructCompletionFromChunks_spec. cbn [mbind exc_mbind exc_bind].
  unfold transformResponse.
  cbn [completion_choices head message_content message_tool_calls finish_reason
       completion_model completion_usage from_option prompt_tokens completion_tokens].
  rewrite Hdense.
  assert (Htools : match (match Some <$> calls with
                          | [] => None
                          | _ :: _ => Some (Some <$> calls)
                          end) with
                   | Some toolCalls => tool_use_blocks toolCalls
                   | None => Ok []
                   end = Ok (map tool_use_block calls)).
  { destruct calls; [done |]. apply tool_use_blocks_dense. }
  rewrite Htools. cbn [mbind exc_mbind exc_bind].
  unfold replayed_message. cbn [head from_option].
  destruct (str_truthy (provider_text (first :: rest))) eqn:E; [by rewrite E | done].
Qed.

End ReconstructionFacts.

(* ===================================================================== *)
(** ** The examples of the test suite and of the specification            *)
(* ===================================================================== *)

(** Run on the reference runtime. *)
Module Examples.

Example fix_simple_object :
  @fixSingleQuoteJson Reference.runtime "{'key': 'value'}"
  = Ok (dquoted "{`key`: `value`}").
Proof. vm_compute. reflexivity. Qed.

Example fix_nested_object :
  @fixSingleQuoteJson Reference.runtime "{'title': 'A', 'nested': {'x': 1}}"
  = Ok (dquoted "{`title`: `A`, `nested`: {`x`: 1}}").
Proof. vm_compute. reflexivity. Qed.

Example fix_array :
  @fixSingleQuoteJson Reference.runtime "{'items': ['one', 'two', 'three']}"
    ≫= Reference.parse
  = Ok (JObj [("items", JArr [JStr "one"; JStr "two"; JStr "three"])]).
Proof. vm_compute. reflexivity. Qed.

Example fix_valid_unchanged :
  @fixSingleQuoteJson Reference.runtime (dquoted "{`key`: `value`}")
  = Ok (dquoted "{`key`: `value`}").
Proof. vm_compute. reflexivity. Qed.

Example fix_not_json :
  @fixSingleQuoteJson Reference.runtime "hello world" = Ok "hello world".
Proof. vm_compute. reflexivity. Qed.

Example safe_parse_not_json :
  @safeParseJson Reference.runtime "hello world" empty_object = Ok empty_object.
Proof. vm_compute. reflexivity. Qed.

Example safe_parse_default :
  @safeParseJson Reference.runtime "invalid json" (JObj [("error", JBool true)])
  = Ok (JObj [("error", JBool true)]).
Proof. vm_compute. reflexivity. Qed.

Example tool_arguments_empty_string :
  @fixToolCallArguments Reference.runtime "" = Ok empty_object.
Proof. vm_compute. reflexivity. Qed.

Example tool_arguments_nested :
  @fixToolCallArguments Reference.runtime
    "{'function': 'analyze_code', 'params': {'file': 'main.py', 'checks': ['syntax', 'style']}}"
  = Ok (JObj [("function", JStr "analyze_code");
              ("params", JObj [("file", JStr "main.py");
                               ("checks", JArr [JStr "syntax"; JStr "style"])])]).
Proof. vm_compute. reflexivity. Qed.

Example tool_arguments_escaped_quotes :
  @fixToolCallArguments Reference.runtime
    "{'code': 'function test() { return \'hello\'; }', 'language': 'javascript'}"
  = Ok (JObj [("code", JStr (dquoted "function test() { return `hello`; }"));
              ("language", JStr "javascript")]).
Proof. vm_compute. reflexivity. Qed.

Example cached_tool_call_turn_replayed :
  let input := JObj [("title", JStr "Test task"); ("description", JStr "A test task")] in
  let content := [TextBlock "Creating the task.";
                  ToolUseBlock "call_test" "create_task" input] in
  emitted (@transformStreamResponse Reference.runtime cached_tool_call_turn)
  = [ message_start
        (mkMessage "msg_1700000000000" "gpt-4" content (Some (Canonical tool_use)) 0 0);
      content_block_start 0 (TextBlock "Creating the task.");
      content_block_delta 0 (text_delta "Creating the task.");
      content_block_stop 0;
      content_block_start 1 (ToolUseBlock "call_test" "create_task" input);
      content_block_delta 1
        (input_json_delta (dquoted "{`title`:`Test task`,`description`:`A test task`}"));
      content_block_stop 1;
      message_delta (Some (Canonical tool_use));
      message_stop ]
  /\ protocol_valid (emitted (@transformStreamResponse Reference.runtime cached_tool_call_turn))
     = true.
Proof. vm_compute. split; reflexivity. Qed.

End Examples.

(* ===================================================================== *)
(** ** Further properties of utils/json-tools.ts                          *)
(* ===================================================================== *)

Lemma str_chars (s : string) : str (chars s) = s.
Proof. apply string_of_list_ascii_of_string. Qed.

Lemma chars_str (l : list ascii) : chars (str l) = l.
Proof. apply list_ascii_of_string_of_list_ascii. Qed.

Lemma length_chars (s : string) : length (chars s) = String.length s.
Proof. induction s as [| c s IH]; cbn; [reflexivity | by rewrite <- IH]. Qed.

Lemma length_str (l : list ascii) : String.length (str l) = length l.
Proof. by rewrite <- length_chars, chars_str. Qed.

Lemma span_app (p : ascii -> bool) (l : list ascii) :
  l = fst (span p l) ++ snd (span p l).
Proof.
  induction l as [| c l IH]; cbn; [reflexivity |].
  destruct (p c); [| reflexivity].
  destruct (span p l) as [a b]; cbn in *. by rewrite IH at 1.
Qed.

Lemma existsb_span_snd (q p : ascii -> bool) (l : list ascii) :
  existsb q l = false -> existsb q (snd (span p l)) = false.
Proof.
  intros H. rewrite (span_app p l), existsb_app in H.
  by apply orb_false_elim in H as [_ H].
Qed.

Lemma existsb_rev (q : ascii -> bool) (l : list ascii) :
  existsb q (rev l) = existsb q l.
Proof.
  induction l as [| c l IH]; cbn; [reflexivity |].
  rewrite existsb_app, IH. cbn. rewrite orb_false_r. apply orb_comm.
Qed.

Lemma includes_trim (s : string) (c : ascii) :
  includes s c = false -> includes (trim s) c = false.
Proof.
  unfold includes, trim, trim_start. intros H.
  rewrite chars_str, existsb_rev. apply existsb_span_snd.
  rewrite existsb_rev. by apply existsb_span_snd.
Qed.

(** A pattern that matches nowhere in a text leaves it as it is. *)
Lemma replace_from_none (m : matcher) (q : ascii -> bool) :
  (forall l, existsb q l = false -> m l = None) ->
  forall l, existsb q l = false -> replace_from m l 0 = l.
Proof.
  intros Hm l. induction l as [| c l IH]; intros Hl; [reflexivity |].
  cbn [replace_from]. rewrite (Hm _ Hl).
  cbn in Hl. apply orb_false_elim in Hl as [_ Hl]. by rewrite IH.
Qed.

Lemma quoted_has_quote (l : list ascii) :
  existsb (Ascii.eqb "'"%char) l = false -> quoted l = None.
Proof.
  destruct l as [| q tl]; [reflexivity |]. cbn.
  intros H. apply orb_false_elim in H as [-> _]. reflexivity.
Qed.

Lemma m_escaped_quote_none (l : list ascii) :
  existsb (Ascii.eqb "'"%char) l = false -> m_escaped_quote l = None.
Proof.
  destruct l as [| a [| b tl]]; try reflexivity. cbn.
  intros H. apply orb_false_elim in H as [_ H].
  apply orb_false_elim in H as [-> _]. by rewrite andb_false_r.
Qed.

Lemma m_key_none (l : list ascii) :
  existsb (Ascii.eqb "'"%char) l = false -> m_key l = None.
Proof.
  intros H. unfold m_key.
  pose proof (existsb_span_snd _ is_space l H) as H1.
  destruct (span is_space l) as [ws1 l1]; cbn in H1.
  by rewrite (quoted_has_quote _ H1).
Qed.

Lemma m_after_none (x : ascii) (l : list ascii) :
  existsb (Ascii.eqb "'"%char) l = false -> m_after x l = None.
Proof.
  destruct l as [| c tl]; [reflexivity |]. cbn.
  intros H. apply orb_false_elim in H as [_ H].
  destruct (Ascii.eqb x c); [| reflexivity].
  pose proof (existsb_span_snd _ is_space tl H) as H1.
  destruct (span is_space tl) as [ws l1]; cbn in H1.
  by rewrite (quoted_has_quote _ H1).
Qed.

Lemma m_any_quote_none (l : list ascii) :
  existsb (Ascii.eqb "'"%char) l = false -> m_any_quote l = None.
Proof.
  destruct l as [| c tl]; [reflexivity |]. cbn.
  intros H. apply orb_false_elim in H as [-> _]. reflexivity.
Qed.

Lemma m_sentinel_none (l : list ascii) :
  existsb (Ascii.eqb sentinel) l = false -> m_sentinel l = None.
Proof.
  destruct l as [| c tl]; [reflexivity |]. cbn [existsb m_sentinel].
  intros H. apply orb_false_elim in H as [-> _]. reflexivity.
Qed.

Lemma replace_all_none (m : matcher) (q : ascii -> bool) (s : string) :
  (forall l, existsb q l = false -> m l = None) ->
  existsb q (chars s) = false -> replace_all m s = s.
Proof.
  intros Hm Hs. unfold replace_all.
  by rewrite (replace_from_none m q Hm _ Hs), str_chars.
Qed.

Lemma regex_repair_quote_free (s : string) :
  includes s "'"%char = false -> includes s sentinel = false -> regex_repair s = s.
Proof.
  unfold includes, regex_repair. intros Hq Hs.
  rewrite (replace_all_none _ _ s m_escaped_quote_none Hq).
  rewrite (replace_all_none _ _ s m_key_none Hq).
  rewrite !(replace_all_none _ _ s (m_after_none _) Hq).
  by rewrite (replace_all_none _ _ s m_sentinel_none Hs).
Qed.

Lemma replace_any_quote_keeps (q : ascii -> bool) (l : list ascii) :
  q dquote = false ->
  existsb q l = false -> existsb q (replace_from m_any_quote l 0) = false.
Proof.
  intros Hq. induction l as [| c l IH]; intros Hl; [reflexivity |].
  cbn in Hl. apply orb_false_elim in Hl as [Hc Hl].
  cbn [replace_from m_any_quote pred].
  destruct (Ascii.eqb "'"%char c); cbn [app existsb pred]; rewrite IH by done.
  - by rewrite Hq.
  - by rewrite Hc.
Qed.

Lemma replace_any_quote_no_quote (l : list ascii) :
  existsb (Ascii.eqb "'"%char) (replace_from m_any_quote l 0) = false.
Proof.
  induction l as [| c l IH]; [reflexivity |].
  cbn [replace_from m_any_quote pred].
  destruct (Ascii.eqb "'"%char c) eqn:Hc; cbn [app existsb pred]; rewrite IH.
  - reflexivity.
  - by rewrite Hc.
Qed.

Lemma replace_any_quote_length (l : list ascii) :
  length (replace_from m_any_quote l 0) = length l.
Proof.
  induction l as [| c l IH]; [reflexivity |].
  cbn [replace_from m_any_quote pred].
  destruct (Ascii.eqb "'"%char c); cbn [app length pred]; by rewrite IH.
Qed.

Lemma replace_sentinel_no_sentinel (l : list ascii) :
  existsb (Ascii.eqb sentinel) (replace_from m_sentinel l 0) = false.
Proof.
  induction l as [| c l IH]; [reflexivity |].
  cbn [replace_from m_sentinel pred].
  destruct (Ascii.eqb sentinel c) eqn:Hc; cbn [app existsb pred]; rewrite IH.
  - reflexivity.
  - by rewrite Hc.
Qed.

(** Induction on a list two elements at a time. *)
Lemma list_pair_ind {A} (P : list A -> Prop) :
  P [] -> (forall a, P [a]) ->
  (forall a b l, P l -> P (b :: l) -> P (a :: b :: l)) ->
  forall l, P l.
Proof.
  intros H0 H1 H2 l.
  assert (P l /\ forall a, P (a :: l)) as [H _]; [| exact H].
  induction l as [| b l [IH IH']]; split; auto.
Qed.

Lemma replace_escaped_dquote_cons (a b : ascii) (l : list ascii) :
  replace_from m_escaped_dquote (a :: b :: l) 0
  = if Ascii.eqb "\"%char a && Ascii.eqb dquote b
    then backslash :: "'"%char :: replace_from m_escaped_dquote l 0
    else a :: replace_from m_escaped_dquote (b :: l) 0.
Proof.
  cbn [replace_from m_escaped_dquote].
  by destruct (Ascii.eqb "\"%char a && Ascii.eqb dquote b).
Qed.

Lemma replace_escaped_dquote_length (l : list ascii) :
  length (replace_from m_escaped_dquote l 0) = length l.
Proof.
  induction l as [| a | a b l IH IH'] using list_pair_ind; try reflexivity.
  rewrite replace_escaped_dquote_cons.
  destruct (Ascii.eqb "\"%char a && Ascii.eqb dquote b);
    cbn [length]; rewrite ?IH, ?IH'; reflexivity.
Qed.

Lemma replace_escaped_dquote_bare (l : list ascii) :
  existsb (Ascii.eqb "'"%char) l = false ->
  forall escaped, bare_quote escaped (replace_from m_escaped_dquote l 0) = false.
Proof.
  induction l as [| a | a b l IH IH'] using list_pair_ind; intros Hl escaped.
  - reflexivity.
  - cbn in *. apply orb_false_elim in Hl as [-> _]. reflexivity.
  - rewrite replace_escaped_dquote_cons.
    cbn [existsb] in Hl. apply orb_false_elim in Hl as [Ha Hl].
    pose proof Hl as Hbl. cbn [existsb] in Hl. apply orb_false_elim in Hl as [Hb Hl].
    destruct (Ascii.eqb "\"%char a && Ascii.eqb dquote b).
    + cbn [bare_quote]. rewrite (IH Hl). reflexivity.
    + cbn [bare_quote]. rewrite (IH' Hbl), Ha. reflexivity.
Qed.

Section MoreJsonToolsFacts.
Context `{RT : JSRuntime}.

(** X1 ([safeParseJson], [fixToolCallArguments]).  Whatever the parser
    does, [safeParseJson] returns and never throws, and what it returns is
    the default, the strict parse of the input, or the parse of a repaired
    text that differs from the input.  [fixToolCallArguments] therefore
    always returns as well. *)
Theorem safeParseJson_never_raises (s : string) (d : JSON) :
  (exists v,
      safeParseJson s d = Ok v
      /\ (v = d
          \/ JSON_parse s = Ok v
          \/ exists fixed,
               fixSingleQuoteJson s = Ok fixed /\ fixed <> s /\ JSON_parse fixed = Ok v))
  /\ exists v, fixToolCallArguments s = Ok v.
Proof.
  split; [| apply safeParseJson_total].
  unfold safeParseJson.
  destruct (str_truthy s); cbn; [| eauto].
  destruct (JSON_parse s) as [v | e] eqn:Hs; cbn; [eauto |].
  destruct (fixSingleQuoteJson_total s) as [r Hr]. rewrite Hr. cbn.
  destruct (String.eqb_spec r s) as [-> | Hne]; cbn; [eauto |].
  destruct (JSON_parse r) as [v | e'] eqn:Hp; cbn; [| eauto].
  exists v. split; [reflexivity |]. right; right. by exists r.
Qed.

(** X2 ([fixSingleQuoteJson]).  The repair only rewrites quotes: a text
    with no quote and no U+0001 comes back as it is or, when only its
    trimmed form parses, trimmed. *)
Theorem fixSingleQuoteJson_without_quotes (s : string) :
  includes s "'"%char = false ->
  includes s sentinel = false ->
  fixSingleQuoteJson s = Ok s
  \/ (fixSingleQuoteJson s = Ok (trim s)
      /\ returns (JSON_parse s) = false /\ returns (JSON_parse (trim s)) = true).
Proof.
  intros Hq Hs. unfold fixSingleQuoteJson.
  destruct (negb (str_truthy s)); [by left |].
  destruct (JSON_parse s) as [v | e] eqn:Hp; [by left |].
  destruct (negb (startsWith (trim s) "{"%char) && negb (startsWith (trim s) "["%char));
    [by left |].
  rewrite (regex_repair_quote_free (trim s))
    by (by apply includes_trim).
  destruct (JSON_parse (trim s)) as [v | e'] eqn:Ht; cbn.
  - right. done.
  - left. unfold aggressive_fix.
    destruct (startsWith (trim s) "{"%char && endsWith (trim s) "}"%char); [| reflexivity].
    rewrite (replace_all_none _ _ (trim s) m_any_quote_none)
      by (by apply includes_trim).
    by rewrite Ht.
Qed.

(** X3 ([fixSingleQuoteJson]).  The placeholder of the repair never leaks:
    a result that differs from the input contains no U+0001. *)
Theorem fixSingleQuoteJson_no_placeholder (s r : string) :
  fixSingleQuoteJson s = Ok r ->
  r <> s ->
  includes r sentinel = false.
Proof.
  unfold fixSingleQuoteJson. intros H Hne.
  destruct (negb (str_truthy s)); [congruence |].
  destruct (JSON_parse s) as [v | e]; [congruence |].
  destruct (negb (startsWith (trim s) "{"%char) && negb (startsWith (trim s) "["%char));
    [congruence |].
  assert (Hfixed : includes (regex_repair (trim s)) sentinel = false).
  { unfold regex_repair, includes, replace_all at 1.
    rewrite chars_str. apply replace_sentinel_no_sentinel. }
  destruct (JSON_parse (regex_repair (trim s))) as [v | e']; cbn in H.
  - by simplify_eq.
  - unfold aggressive_fix in H.
    destruct (startsWith _ _ && endsWith _ _); [| congruence].
    destruct (JSON_parse (replace_all m_any_quote _)); [| congruence].
    simplify_eq. unfold includes, replace_all. rewrite chars_str.
    by apply replace_any_quote_keeps.
Qed.

End MoreJsonToolsFacts.

Section StreamingRepairFacts.
Context `{RT : JSRuntime}.

Lemma includes_nonempty (s : string) (c : ascii) :
  includes s c = true -> str_truthy s = true.
Proof. by destruct s. Qed.

Lemma str_truthy_length (s : string) :
  str_truthy s = true <-> String.length s <> 0.
Proof. destruct s; cbn; split; intros; (done || lia). Qed.

(** X4 ([fixStreamingToolArgument]).  A fragment that contains a quote is
    rewritten character for character, whatever has been accumulated: the
    result has the length of the fragment, and every quote left in it comes
    right after a backslash. *)
Theorem fixStreamingToolArgument_quotes (fragment accumulated : string) :
  includes fragment "'"%char = true ->
  exists fixed,
    fixStreamingToolArgument fragment accumulated = Ok fixed
    /\ fixStreamingToolArgument fragment "" = Ok fixed
    /\ String.length fixed = String.length fragment
    /\ bare_quote false (chars fixed) = false.
Proof.
  intros Hq. unfold fixStreamingToolArgument.
  rewrite (includes_nonempty _ _ Hq), Hq. cbn [negb try_catch].
  eexists. repeat apply conj; try reflexivity.
  - unfold replace_all.
    by rewrite length_str, replace_escaped_dquote_length, chars_str,
      replace_any_quote_length, length_chars.
  - unfold replace_all. rewrite !chars_str.
    apply replace_escaped_dquote_bare, replace_any_quote_no_quote.
Qed.

(** X5 ([fixStreamingToolArgument]).  The function never throws and never
    swallows a fragment: the result is empty only for the empty fragment.
    A fragment without a quote is returned as it is when nothing has been
    accumulated, or when the accumulated text followed by the fragment
    parses. *)
Theorem fixStreamingToolArgument_keeps_fragment (fragment accumulated : string) :
  (exists r,
      fixStreamingToolArgument fragment accumulated = Ok r
      /\ (r = "" <-> fragment = ""))
  /\ (includes fragment "'"%char = false ->
      accumulated = "" \/ returns (JSON_parse (accumulated +:+ fragment)) = true ->
      fixStreamingToolArgument fragment accumulated = Ok fragment).
Proof.
  split.
  - destruct (str_truthy fragment) eqn:Hf.
    + assert (Hne : fragment <> "") by (by intros ->).
      destruct (includes fragment "'"%char) eqn:Hq.
      * destruct (fixStreamingToolArgument_quotes fragment accumulated Hq)
          as (fixed & -> & _ & Hlen & _).
        exists fixed. split; [reflexivity |].
        apply str_truthy_length in Hf. split; [| done].
        intros ->. cbn in Hlen. lia.
      * unfold fixStreamingToolArgument. rewrite Hf, Hq. cbn [negb].
        destruct (str_truthy accumulated); [| by exists fragment].
        destruct (JSON_parse (accumulated +:+ fragment)); [by exists fragment |].
        destruct (fixSingleQuoteJson_total (accumulated +:+ fragment)) as [r ->].
        cbn. destruct (negb (r =? accumulated +:+ fragment)%string);
          [| by exists fragment].
        destruct (str_truthy (slice r (String.length accumulated))) eqn:Hs;
          [| by exists fragment].
        eexists. split; [reflexivity |]. split; [| done].
        intros E. by rewrite E in Hs.
    + apply str_truthy_false in Hf as ->. by exists "".
  - intros Hq Hacc. unfold fixStreamingToolArgument. rewrite Hq.
    destruct (negb (str_truthy fragment)); [reflexivity |].
    destruct Hacc as [-> | Hp]; [reflexivity |].
    destruct (str_truthy accumulated); [| reflexivity].
    by destruct (JSON_parse (accumulated +:+ fragment)).
Qed.

End StreamingRepairFacts.

Lemma fixSingleQuoteJson_without_quotes_witness :
  @fixSingleQuoteJson Reference.runtime (dquoted "  {`a`: tru")
  = Ok (dquoted "  {`a`: tru")
  \/ (@fixSingleQuoteJson Reference.runtime (dquoted "  {`a`: tru")
      = Ok (trim (dquoted "  {`a`: tru"))
      /\ returns (Reference.parse (dquoted "  {`a`: tru")) = false
      /\ returns (Reference.parse (trim (dquoted "  {`a`: tru"))) = true).
Proof.
  apply (@fixSingleQuoteJson_without_quotes Reference.runtime); vm_compute; reflexivity.
Defined.

Lemma fixSingleQuoteJson_no_placeholder_witness :
  includes (dquoted "{`it`: `it\`s`}") sentinel = false.
Proof.
  apply (@fixSingleQuoteJson_no_placeholder Reference.runtime "{'it': 'it\'s'}").
  - vm_compute. reflexivity.
  - vm_compute. discriminate.
Defined.

Lemma fixStreamingToolArgument_quotes_witness :
  exists fixed,
    @fixStreamingToolArgument Reference.runtime "'command': 'ls -la'" "{" = Ok fixed
    /\ @fixStreamingToolArgument Reference.runtime "'command': 'ls -la'" "" = Ok fixed
    /\ String.length fixed = 19
    /\ bare_quote false (chars fixed) = false.
Proof.
  apply (@fixStreamingToolArgument_quotes Reference.runtime). vm_compute. reflexivity.
Defined.

Lemma fixStreamingToolArgument_keeps_fragment_witness :
  @fixStreamingToolArgument Reference.runtime (dquoted ": `value`}") (dquoted "{`key`")
  = Ok (dquoted ": `value`}").
Proof.
  apply (@fixStreamingToolArgument_keeps_fragment Reference.runtime).
  - vm_compute. reflexivity.
  - right. vm_compute. reflexivity.
Defined.

(* ===================================================================== *)
(** ** Properties of the tool definitions                                 *)
(* ===================================================================== *)

(** Induction on a JSON value, with the property at hand for every item of
    an array and every value of an object. *)
Lemma JSON_nested_ind (P : JSON -> Prop) :
  P JNull -> (forall b, P (JBool b)) -> (forall n, P (JNum n)) ->
  (forall s, P (JStr s)) ->
  (forall items, Forall P items -> P (JArr items)) ->
  (forall props, Forall (fun kv => P (snd kv)) props -> P (JObj props)) ->
  forall v, P v.
Proof.
  intros Hnull Hbool Hnum Hstr Harr Hobj.
  fix IH 1. intros [| b | n | s | items | props].
  - exact Hnull.
  - apply Hbool.
  - apply Hnum.
  - apply Hstr.
  - apply Harr. revert items. fix IHitems 1.
    intros [| v items]; constructor; [apply IH | apply IHitems].
  - apply Hobj. revert props. fix IHprops 1.
    intros [| [k v] props]; constructor; [apply IH | apply IHprops].
Qed.

(** The loop over the properties of an object, as a filter and a map. *)
Lemma removeUnsupportedProperties_object (props : list (string * JSON)) :
  removeUnsupportedProperties (JObj props)
  = JObj (map (fun kv => (fst kv, removeUnsupportedProperties (snd kv)))
            (List.filter (fun kv => negb (unsupported (fst kv))) props)).
Proof.
  cbn [removeUnsupportedProperties]. f_equal.
  induction props as [| [k v] props IH]; [reflexivity |].
  cbn [List.filter fst]. destruct (unsupported k); cbn [negb map fst snd]; by rewrite IH.
Qed.

Lemma removeUnsupportedProperties_removes (v : JSON) :
  mentions_unsupported (removeUnsupportedProperties v) = false.
Proof.
  induction v as [| | | | items IH | props IH] using JSON_nested_ind; try reflexivity.
  - cbn [removeUnsupportedProperties mentions_unsupported].
    induction IH as [| v items Hv _ IH]; [reflexivity |].
    cbn [map existsb]. by rewrite Hv, IH.
  - rewrite removeUnsupportedProperties_object. cbn [mentions_unsupported].
    induction IH as [| [k v] props Hv _ IH]; [reflexivity |].
    cbn [List.filter fst]. destruct (unsupported k) eqn:Hk; [exact IH |].
    cbn [negb map existsb fst snd] in *. by rewrite Hk, Hv, IH.
Qed.

Lemma removeUnsupportedProperties_id (v : JSON) :
  mentions_unsupported v = false -> removeUnsupportedProperties v = v.
Proof.
  induction v as [| | | | items IH | props IH] using JSON_nested_ind; try reflexivity.
  - cbn [removeUnsupportedProperties mentions_unsupported]. intros H. f_equal.
    induction IH as [| v items Hv _ IH]; [reflexivity |].
    cbn [existsb] in H. apply orb_false_elim in H as [H1 H2].
    cbn [map]. by rewrite Hv, IH.
  - rewrite removeUnsupportedProperties_object. cbn [mentions_unsupported].
    intros H. f_equal.
    induction IH as [| [k v] props Hv _ IH]; [reflexivity |].
    cbn [existsb fst snd] in H. apply orb_false_elim in H as [H1 H2].
    apply orb_false_elim in H1 as [Hk H1].
    cbn [List.filter fst snd] in *. rewrite Hk. cbn [negb map fst snd].
    by rewrite Hv, IH.
Qed.

(** X6 ([removeUnsupportedProperties]).  After the call no object of the
    schema, at any depth, has a [$schema] or a [const] property; a second
    call changes nothing; and the call changes a schema exactly when the
    schema has such a property somewhere. *)
Theorem removeUnsupportedProperties_clean (v : JSON) :
  mentions_unsupported (removeUnsupportedProperties v) = false
  /\ removeUnsupportedProperties (removeUnsupportedProperties v)
     = removeUnsupportedProperties v
  /\ (removeUnsupportedProperties v = v <-> mentions_unsupported v = false).
Proof.
  repeat apply conj.
  - apply removeUnsupportedProperties_removes.
  - apply removeUnsupportedProperties_id, removeUnsupportedProperties_removes.
  - intros E. rewrite <- E. apply removeUnsupportedProperties_removes.
  - apply removeUnsupportedProperties_id.
Qed.

Section ToolsFacts.
Context `{RT : JSRuntime}.

Lemma cleanupParameters_removes (params r : JSON) :
  cleanupParameters params = Ok r -> mentions_unsupported r = false.
Proof.
  unfold cleanupParameters.
  destruct params; cbn; rewrite ?orb_true_r; try (intros [= <-]; reflexivity).
  all: destruct (JSON_parse _); cbn; [| discriminate].
  all: intros [= <-]; apply removeUnsupportedProperties_removes.
Qed.

Lemma cleanupParameters_faithful (params : JSON) :
  JSON_parse (JSON_stringify params) = Ok params ->
  cleanupParameters params = Ok (removeUnsupportedProperties params).
Proof.
  unfold cleanupParameters. intros H.
  destruct params; cbn; rewrite ?orb_true_r; try reflexivity; by rewrite H.
Qed.

(** X7 ([cleanupParameters]).  Whatever the call returns has no [$schema]
    and no [const] property at any depth.  A schema that is not an object
    or an array is returned as it is, and when the copy made through
    [JSON.stringify] and [JSON.parse] is faithful, the result is the schema
    without these properties and nothing else is lost. *)
Theorem cleanupParameters_clean (params r : JSON) :
  cleanupParameters params = Ok r ->
  mentions_unsupported r = false
  /\ (is_object params = false -> r = params)
  /\ (JSON_parse (JSON_stringify params) = Ok params ->
      r = removeUnsupportedProperties params).
Proof.
  intros H. repeat apply conj.
  - by apply cleanupParameters_removes in H.
  - unfold cleanupParameters in H. intros Hobj. rewrite Hobj, orb_true_r in H.
    by simplify_eq.
  - intros Hcopy. rewrite (cleanupParameters_faithful _ Hcopy) in H. by simplify_eq.
Qed.

(** X8 ([transformTools]).  When the call returns, the provider gets one
    function per tool, in the same order, with the same name and
    description, and no parameter schema has a [$schema] or a [const]
    property at any depth; with faithful copies the schemas are the input
    schemas without these properties. *)
Theorem transformTools_names_and_schemas
  (tools : list ClaudeTool) (out : list ChatCompletionTool) :
  transformTools tools = Ok out ->
  map function_name out = map tool_name tools
  /\ map function_description out = map tool_description tools
  /\ Forall (fun t => mentions_unsupported (function_parameters t) = false) out
  /\ (Forall (fun t => JSON_parse (JSON_stringify (tool_input_schema t))
                       = Ok (tool_input_schema t)) tools ->
      map function_parameters out
      = map (fun t => removeUnsupportedProperties (tool_input_schema t)) tools).
Proof.
  revert out. induction tools as [| tool rest IH]; intros out H.
  - cbn in H. simplify_eq. repeat apply conj; by constructor.
  - cbn [transformTools] in H.
    destruct (cleanupParameters (tool_input_schema tool)) as [p | e] eqn:Hp;
      cbn in H; [| discriminate].
    destruct (transformTools rest) as [out' | e] eqn:Hrest; cbn in H; [| discriminate].
    simplify_eq. destruct (IH out' eq_refl) as (Hn & Hd & Hc & Hf).
    repeat apply conj; cbn [map function_name function_description function_parameters].
    + by rewrite Hn.
    + by rewrite Hd.
    + constructor; [by apply cleanupParameters_removes in Hp | exact Hc].
    + intros Hall. apply Forall_cons in Hall as [Hcopy Hall].
      rewrite (cleanupParameters_faithful _ Hcopy) in Hp. simplify_eq.
      by rewrite (Hf Hall).
Qed.

End ToolsFacts.

Lemma removeUnsupportedProperties_clean_witness :
  let schema :=
    JObj [("type", JStr "object");
          ("properties", JObj [("mode", JObj [("enum", JArr [JStr "fast"; JStr "slow"])])])] in
  removeUnsupportedProperties schema = schema.
Proof.
  apply (proj2 (proj2 (removeUnsupportedProperties_clean _))). reflexivity.
Defined.

Lemma cleanupParameters_clean_witness :
  let schema :=
    JObj [("$schema", JStr "http://json-schema.org/draft-07/schema#");
          ("type", JStr "object");
          ("properties", JObj [("mode", JObj [("const", JStr "fast");
                                              ("type", JStr "string")])])] in
  let cleaned :=
    JObj [("type", JStr "object");
          ("properties", JObj [("mode", JObj [("type", JStr "string")])])] in
  mentions_unsupported cleaned = false
  /\ (is_object schema = false -> cleaned = schema)
  /\ (Reference.parse (Reference.stringify schema) = Ok schema ->
      cleaned = removeUnsupportedProperties schema).
Proof.
  apply (@cleanupParameters_clean Reference.runtime). vm_compute. reflexivity.
Defined.

Lemma transformTools_names_and_schemas_witness :
  let schema := JObj [("type", JStr "object"); ("const", JNull)] in
  let tools := [mkTool "get_weather" (Some "Weather of a city") schema;
                mkTool "now" None (JObj [])] in
  let out := [mkFunctionTool "get_weather" (Some "Weather of a city")
                (JObj [("type", JStr "object")]);
              mkFunctionTool "now" None (JObj [])] in
  map function_name out = ["get_weather"; "now"]
  /\ map function_description out = [Some "Weather of a city"; None]
  /\ Forall (fun t => mentions_unsupported (function_parameters t) = false) out
  /\ (Forall (fun t => Reference.parse (Reference.stringify (tool_input_schema t))
                       = Ok (tool_input_schema t)) tools ->
      map function_parameters out
      = map (fun t => removeUnsupportedProperties (tool_input_schema t)) tools).
Proof.
  intros schema tools out.
  apply (@transformTools_names_and_schemas Reference.runtime tools out).
  vm_compute. reflexivity.
Defined.

(* ===================================================================== *)
(** ** Further properties of the request side                             *)
(* ===================================================================== *)

Section MoreRequestFacts.
Context `{RT : JSRuntime}.

Lemma scan_blocks_completed (items : list ContentBlockParam)
  (content : list ContentPart) (toolCalls : list FunctionToolCall) :
  existsb is_tool_result items = false ->
  scan_blocks items content toolCalls
  = Completed (content ++ omap block_part items) (toolCalls ++ omap block_call items).
Proof.
  revert content toolCalls.
  induction items as [| item rest IH]; intros content toolCalls H.
  - cbn. by rewrite !app_nil_r.
  - cbn [existsb] in H. apply orb_false_elim in H as [Hitem H].
    destruct item as [text | [media_type data |] | id [name |] input | id c | type];
      cbn; try discriminate.
    all: try (rewrite (IH _ _ H); by rewrite <- ?app_assoc).
    destruct (str_truthy name); rewrite (IH _ _ H); rewrite <- ?app_assoc; [| done].
    by destruct input.
Qed.

Lemma scan_blocks_translated (items : list ContentBlockParam)
  (content : list ContentPart) (toolCalls : list FunctionToolCall) :
  scan_blocks (List.filter translated items) content toolCalls
  = scan_blocks items content toolCalls.
Proof.
  revert content toolCalls.
  induction items as [| item rest IH]; intros content toolCalls; [reflexivity |].
  destruct item as [text | [media_type data |] | id [name |] input | id c | type];
    cbn [List.filter translated scan_blocks]; try apply IH; try reflexivity.
  destruct (str_truthy name) eqn:Hn; cbn [scan_blocks]; rewrite ?Hn; apply IH.
Qed.

(** X9 ([transformMessage]).  For a message whose blocks hold no tool
    result, the provider message carries the text blocks and the base64
    images as parts, in order (an empty string when there are none), and,
    for the assistant only, one tool call per tool-use block with a
    non-empty name, in order, with the id and the name of the block.  Any
    role other than ['assistant'] is sent as ['user'] and never carries
    tool calls. *)
Theorem transformMessage_blocks (role : string) (blocks : list ContentBlockParam) :
  existsb is_tool_result blocks = false ->
  transformMessage (mkMessageParam role (ContentArray blocks))
  = Some (RoleMessage
            (if String.eqb role "assistant" then assistant else user)
            (match omap block_part blocks with
             | [] => Plain ""
             | parts => Parts parts
             end)
            (if String.eqb role "assistant"
             then match omap block_call blocks with
                  | [] => None
                  | calls => Some calls
                  end
             else None)).
Proof.
  intros H. unfold transformMessage. cbn [mp_role mp_content].
  rewrite (scan_blocks_completed _ _ _ H). cbn [app].
  by destruct (String.eqb role "assistant"),
    (omap block_part blocks), (omap block_call blocks).
Qed.

(** X10 ([transformMessage]).  The blocks the loop skips leave no trace: a
    tool-use block without a non-empty name, an image that is not base64
    and a block of an unknown type can be removed from a message without
    changing its translation. *)
Theorem transformMessage_ignores_untranslated (role : string)
  (blocks : list ContentBlockParam) :
  transformMessage (mkMessageParam role (ContentArray blocks))
  = transformMessage (mkMessageParam role (ContentArray (List.filter translated blocks))).
Proof.
  unfold transformMessage. cbn [mp_role mp_content].
  by rewrite scan_blocks_translated.
Qed.

Lemma transformMessages_loop (messages : list MessageParam) (acc : list RequestMessage) :
  foldl (fun openaiMessages message =>
           match transformMessage message with
           | Some openaiMessage => openaiMessages ++ [TurnMessage openaiMessage]
           | None => openaiMessages
           end) acc messages
  = acc ++ (TurnMessage <$> omap transformMessage messages).
Proof.
  revert acc. induction messages as [| message rest IH]; intros acc; cbn [foldl].
  - cbn. by rewrite app_nil_r.
  - rewrite IH.
    change (omap transformMessage (message :: rest))
      with (match transformMessage message with
            | Some y => y :: omap transformMessage rest
            | None => omap transformMessage rest
            end).
    destruct (transformMessage message); [| reflexivity].
    by rewrite <- app_assoc.
Qed.

(** X11 ([transformMessages], [extractTextFromContent]).  The provider
    messages are the system message, if any, followed by the translations
    of the messages in their order; only a message whose content is neither
    a string nor an array is dropped.  A system array always gives a system
    message, even without any text block; a system string gives one unless
    it is empty. *)
Theorem transformMessages_order (messages : list MessageParam)
  (system : option SystemParam) :
  transformMessages messages system
  = system_messages system ++ (TurnMessage <$> omap transformMessage messages)
  /\ length (omap transformMessage messages)
     = length (List.filter has_content messages)
  /\ (forall blocks,
        head (transformMessages messages (Some (SystemBlocks blocks)))
        = Some (SystemMessage (extractTextFromContent blocks)))
  /\ (forall s,
        head (transformMessages messages (Some (SystemString s)))
        = Some (SystemMessage s) <-> s <> "").
Proof.
  assert (Hspec : forall sys,
             transformMessages messages sys
             = system_messages sys ++ (TurnMessage <$> omap transformMessage messages)).
  { intros sys. unfold transformMessages. by rewrite transformMessages_loop. }
  repeat apply conj.
  - apply Hspec.
  - clear Hspec.
    induction messages as [| [role [s | blocks |]] rest IH]; cbn;
      [reflexivity | | | exact IH].
    + cbn. by rewrite IH.
    + destruct (scan_blocks blocks [] []); cbn; by rewrite IH.
  - intros blocks. by rewrite Hspec.
  - intros s. rewrite Hspec. cbn [system_messages]. unfold str_truthy.
    destruct (String.eqb_spec s "") as [-> | Hne]; cbn [negb app]; [| done].
    split; [| done]. intros E.
    destruct (omap transformMessage messages); cbn in E; discriminate.
Qed.

End MoreRequestFacts.

Lemma transformMessage_blocks_witness :
  @transformMessage Reference.runtime
    (mkMessageParam "assistant"
       (ContentArray [ TextBlockParam "Let me check.";
                       ToolUseBlockParam "toolu_01" (Some "get_weather")
                         (Some (JObj [("city", JStr "Paris")]));
                       ToolUseBlockParam "toolu_02" None None ]))
  = Some (RoleMessage assistant (Parts [TextPart "Let me check."])
            (Some [mkCall "toolu_01" "get_weather" (dquoted "{`city`:`Paris`}")])).
Proof.
  apply (@transformMessage_blocks Reference.runtime "assistant"). reflexivity.
Defined.

Lemma transformMessages_order_witness :
  head (@transformMessages Reference.runtime [] (Some (SystemString "Be brief.")))
  = Some (SystemMessage "Be brief.").
Proof.
  apply (proj2 (proj2 (proj2 (@transformMessages_order Reference.runtime [] None)))).
  discriminate.
Defined.

Section ProviderRequestFacts.
Context `{RT : JSRuntime}.

Lemma buildBaseParams_inv (claudeRequest : MessageCreateParamsBase) (model : string)
  (params : ChatCompletionCreateParams) :
  buildBaseParams claudeRequest model = Ok params ->
  exists tools tool_choice,
    params
    = mkParams model
        (transformMessages (default [] (req_messages claudeRequest))
           (req_system claudeRequest))
        match req_max_tokens claudeRequest with
        | Some (S n) => Some (S n)
        | _ => None
        end
        (req_temperature claudeRequest) (req_top_p claudeRequest)
        match req_stop_sequences claudeRequest with
        | Some [sequence] => Some (StopString sequence)
        | Some sequences => Some (StopArray sequences)
        | None => None
        end
        tools tool_choice None
    /\ match req_tools claudeRequest with
       | Some (tool :: rest) =>
           (exists out, transformTools (tool :: rest) = Ok out /\ tools = Some out)
           /\ tool_choice
              = (fun toolChoice =>
                   transformToolChoice
                     (ChoiceObject (tool_choice_type toolChoice)
                        (tool_choice_name toolChoice)))
                  <$> req_tool_choice claudeRequest
       | _ => tools = None /\ tool_choice = None
       end.
Proof.
  unfold buildBaseParams. intros H.
  destruct (req_tools claudeRequest) as [[| tool rest] |]; cbn in H.
  1, 3: simplify_eq; by eexists _, _.
  destruct (cleanupParameters (tool_input_schema tool)) as [p | e] eqn:Hp;
    cbn in H; [| discriminate].
  destruct (transformTools rest) as [out | e] eqn:Hrest; cbn in H; [| discriminate].
  simplify_eq. eexists _, _. split; [reflexivity |].
  cbn [transformTools]. rewrite Hp, Hrest. cbn.
  split; [by eexists |]. by destruct (req_tool_choice claudeRequest).
Qed.

Lemma transformTools_length (tools : list ClaudeTool) (out : list ChatCompletionTool) :
  transformTools tools = Ok out -> length out = length tools.
Proof.
  revert out. induction tools as [| tool rest IH]; intros out H; cbn in H.
  - by simplify_eq.
  - destruct (cleanupParameters (tool_input_schema tool)); cbn in H; [| discriminate].
    destruct (transformTools rest) as [out' |]; cbn in H; [| discriminate].
    simplify_eq. cbn. by rewrite (IH out').
Qed.

(** X12 ([buildBaseParams]).  The provider request has a [tools] property
    exactly when the request has at least one tool, and then one function
    per tool; a [tool_choice] is never sent without [tools], whatever the
    request says, and with tools it is the translation of the one of the
    request. *)
Theorem buildBaseParams_tools (claudeRequest : MessageCreateParamsBase)
  (model : string) (params : ChatCompletionCreateParams) :
  buildBaseParams claudeRequest model = Ok params ->
  (params_tools params = None <-> default [] (req_tools claudeRequest) = [])
  /\ (params_tools params = None -> params_tool_choice params = None)
  /\ (forall tools,
        params_tools params = Some tools ->
        transformTools (default [] (req_tools claudeRequest)) = Ok tools
        /\ length tools = length (default [] (req_tools claudeRequest))
        /\ params_tool_choice params
           = (fun toolChoice =>
                transformToolChoice
                  (ChoiceObject (tool_choice_type toolChoice)
                     (tool_choice_name toolChoice)))
               <$> req_tool_choice claudeRequest).
Proof.
  intros H. destruct (buildBaseParams_inv _ _ _ H) as (tools & tool_choice & -> & Ht).
  cbn [params_tools params_tool_choice].
  destruct (req_tools claudeRequest) as [[| tool rest] |]; cbn [default].
  1, 3: destruct Ht as [-> ->]; repeat apply conj; done.
  destruct Ht as [(out & Hout & ->) ->]. repeat apply conj; try done.
  intros tools [= <-]. repeat apply conj; try done.
  by apply transformTools_length in Hout.
Qed.

(** X13 ([buildBaseParams], [buildStreamingParams],
    [buildNonStreamingParams]).  A [max_tokens] of zero is dropped while a
    temperature or a [top_p] of zero is kept; [stop] is a bare string
    exactly when there is one stop sequence, so an empty list stays a list;
    and the streaming and the non-streaming request differ in the [stream]
    flag only. *)
Theorem buildBaseParams_fields (claudeRequest : MessageCreateParamsBase)
  (model : string) (params : ChatCompletionCreateParams) :
  buildBaseParams claudeRequest model = Ok params ->
  params_model params = model
  /\ params_max_completion_tokens params <> Some 0
  /\ (forall n, req_max_tokens claudeRequest = Some (S n) ->
                params_max_completion_tokens params = Some (S n))
  /\ params_temperature params = req_temperature claudeRequest
  /\ params_top_p params = req_top_p claudeRequest
  /\ (forall s, params_stop params = Some (StopString s)
                <-> req_stop_sequences claudeRequest = Some [s])
  /\ (forall l, params_stop params = Some (StopArray l)
                <-> req_stop_sequences claudeRequest = Some l /\ length l <> 1)
  /\ params_stream params = None
  /\ buildStreamingParams claudeRequest model = Ok (with_stream params true)
  /\ buildNonStreamingParams claudeRequest model = Ok (with_stream params false).
Proof.
  intros H. unfold buildStreamingParams, buildNonStreamingParams. rewrite H.
  destruct (buildBaseParams_inv _ _ _ H) as (tools & tool_choice & -> & _).
  cbn. repeat apply conj; try done.
  - by destruct (req_max_tokens claudeRequest) as [[|] |].
  - by intros n ->.
  - intros s. destruct (req_stop_sequences claudeRequest) as [[| s1 [| s2 l]] |];
      split; intros E; by simplify_eq.
  - intros l. destruct (req_stop_sequences claudeRequest) as [[| s1 [| s2 l']] |];
      split; try (intros [E Hl]); try intros E; simplify_eq; try done.
Qed.

End ProviderRequestFacts.

(* ===================================================================== *)
(** ** Further properties of the response side                            *)
(* ===================================================================== *)

Section MoreStreamFacts.
Context `{RT : JSRuntime}.

(** The controller once [start] is over, in full. *)
Lemma transformStreamResponse_state (s : ProviderStream) :
  transformStreamResponse s =
    let failed e :=
      mkController fallback_events
        (Some (mkError PlainError (stream_failure_prefix +:+ err_message e))) false in
    match stream_failure s with
    | Some e => failed e
    | None =>
        if existsb has_tool_call_delta (stream_chunks s) then
          match reconstructCompletionFromChunks (stream_chunks s) ≫= transformResponse with
          | Ok m => mkController (message_events m) None true
          | Throw e => failed e
          end
        else mkController (chunks_events (false, false) (stream_chunks s)) None true
    end.
Proof.
  unfold transformStreamResponse, start, eff_finally, eff_try, collect.
  unfold mbind at 1. unfold eff_mbind, lift.
  destruct (stream_failure s) as [e |].
  - by rewrite handleStreamError_events.
  - destruct (existsb has_tool_call_delta (stream_chunks s)).
    + unfold mbind at 1. unfold eff_mbind.
      destruct (reconstructCompletionFromChunks (stream_chunks s)) as [resp | e]; cbn.
      * unfold mbind at 1. unfold eff_mbind.
        destruct (transformResponse resp) as [m | e]; cbn.
        -- rewrite outputClaudeMessageAsStream_events by done. reflexivity.
        -- by rewrite handleStreamError_events.
      * by rewrite handleStreamError_events.
    + unfold outputChunksAsStream.
      rewrite emit_chunks_events by done. reflexivity.
Qed.

Lemma tool_use_blocks_sparse (toolCalls : sparse FunctionToolCall) :
  tool_use_blocks toolCalls
  = match dense toolCalls with
    | Some calls => Ok (map tool_use_block calls)
    | None => Throw undefined_read
    end.
Proof.
  induction toolCalls as [| [call |] rest IH]; [done | | done].
  cbn [tool_use_blocks dense]. rewrite IH.
  destruct (safeParseJson_total (arguments_text call) empty_object) as [v Hv].
  unfold arguments_text in Hv. unfold fixToolCallArguments. rewrite Hv.
  destruct (dense rest) as [calls |]; cbn; [| reflexivity].
  unfold tool_use_block at 2, repaired_input, fixToolCallArguments, arguments_text.
  by rewrite Hv.
Qed.

Lemma dense_fmap_Some {A} (l : list A) : dense (Some <$> l) = Some l.
Proof. induction l as [| x l IH]; [done |]. cbn. by rewrite IH. Qed.

Lemma dense_Some {A} (a : sparse A) (l : list A) : dense a = Some l -> a = Some <$> l.
Proof.
  revert l. induction a as [| [x |] a IH]; intros l H; cbn in H; [by simplify_eq | | done].
  destruct (dense a) as [l' |]; cbn in H; [| done].
  simplify_eq. cbn. by rewrite (IH l').
Qed.

Lemma dense_None {A} (a : sparse A) : dense a = None <-> None ∈ a.
Proof.
  induction a as [| [x |] a IH]; cbn.
  - split; [done | by intros ?%elem_of_nil].
  - destruct (dense a); cbn.
    + split; [done |]. intros [E | H]%elem_of_cons; [done |]. by apply IH in H.
    + split; [| done]. intros _. apply elem_of_cons. right. by apply IH.
  - split; [| done]. intros _. apply elem_of_cons. by left.
Qed.

Lemma text_deltas_prefix (frames events : list SSEEvent) :
  frames `prefix_of` events -> text_deltas frames `prefix_of` text_deltas events.
Proof. intros [rest ->]. rewrite text_deltas_app. by apply prefix_app_r. Qed.

Lemma tool_use_starts_prefix (frames events : list SSEEvent) :
  frames `prefix_of` events -> tool_use_starts frames `prefix_of` tool_use_starts events.
Proof.
  intros [rest ->]. unfold tool_use_starts. rewrite omap_app. by apply prefix_app_r.
Qed.

(** The frames a consumer can get of the recovery sequence carry no text
    and announce no tool call. *)
Lemma recovery_prefix_silent (frames : list SSEEvent) :
  frames `prefix_of` fallback_events ->
  text_deltas frames = [] /\ tool_use_starts frames = [].
Proof.
  intros H. split.
  - apply text_deltas_prefix in H. by apply prefix_nil_inv in H.
  - apply tool_use_starts_prefix in H. by apply prefix_nil_inv in H.
Qed.

(** A turn with a tool-call delta, in full. *)
Lemma tool_turn_state (s : ProviderStream) :
  stream_failure s = None ->
  existsb has_tool_call_delta (stream_chunks s) = true ->
  transformStreamResponse s
  = match dense (provider_tool_calls (stream_chunks s)) with
    | Some calls =>
        mkController (message_events (replayed_message (stream_chunks s) calls)) None true
    | None =>
        mkController fallback_events
          (Some (mkError PlainError (stream_failure_prefix +:+ err_message undefined_read)))
          false
    end.
Proof.
  intros Hok Htool. rewrite transformStreamResponse_state. cbn zeta. rewrite Hok, Htool.
  destruct (stream_chunks s) as [| first rest] eqn:Hchunks; [discriminate Htool |].
  rewrite reconstructCompletionFromChunks_spec. cbn [mbind exc_mbind exc_bind].
  unfold transformResponse.
  cbn [completion_choices head message_content message_tool_calls finish_reason
       completion_model completion_usage from_option prompt_tokens completion_tokens].
  assert (Htools : match (match provider_tool_calls (first :: rest) with
                          | [] => None
                          | _ :: _ => Some (provider_tool_calls (first :: rest))
                          end) with
                   | Some toolCalls => tool_use_blocks toolCalls
                   | None => Ok []
                   end = tool_use_blocks (provider_tool_calls (first :: rest))).
  { by destruct (provider_tool_calls (first :: rest)). }
  rewrite Htools, tool_use_blocks_sparse.
  destruct (dense (provider_tool_calls (first :: rest))) as [calls |];
    cbn [mbind exc_mbind exc_bind]; [| reflexivity].
  unfold replayed_message. cbn [head from_option].
  destruct (str_truthy (provider_text (first :: rest))) eqn:E; [by rewrite E | done].
Qed.

Lemma provider_tool_calls_lookup (chunks : list ChatCompletionChunk)
  (calls : list FunctionToolCall) (index : nat) (call : FunctionToolCall) :
  dense (provider_tool_calls chunks) = Some calls ->
  calls !! index = Some call ->
  provider_tool_call index chunks = Some call.
Proof.
  intros Hd Hcall. apply dense_Some in Hd.
  assert (H : provider_tool_calls chunks !! index = Some (Some call))
    by (by rewrite Hd, list_lookup_fmap, Hcall).
  unfold provider_tool_calls in H.
  apply list_lookup_fmap_Some in H as (i & E & Hi).
  apply lookup_seq in Hi as [-> _]. done.
Qed.

(** X14 ([transformStreamResponse], [handleStreamError]).  The stream
    always ends, and in exactly one way: it is closed or it is errored, never
    both.  It is errored exactly when the provider stream fails or the
    tool-call turn cannot be rebuilt.  The error carries the message of the
    cause after a fixed prefix, and the only frames enqueued are then the
    three of the recovery sequence; as the error drops the frames not read
    yet, the consumer gets a prefix of these three, possibly none, and in any
    case no text and no tool call. *)
Theorem transformStreamResponse_ends (s : ProviderStream) :
  let out := transformStreamResponse s in
  closed out = negb (present (errored out))
  /\ (present (errored out) = true <->
      present (stream_failure s) = true
      \/ (existsb has_tool_call_delta (stream_chunks s) = true
          /\ returns (reconstructCompletionFromChunks (stream_chunks s)
                        ≫= transformResponse) = false))
  /\ (forall error,
        errored out = Some error ->
        (exists cause,
            error = mkError PlainError (stream_failure_prefix +:+ err_message cause))
        /\ emitted out = fallback_events
        /\ forall frames,
             receives out frames ->
             frames `prefix_of` fallback_events
             /\ text_deltas frames = [] /\ tool_use_starts frames = []).
Proof.
  cbn zeta. unfold receives. rewrite transformStreamResponse_state. cbn zeta.
  assert (Hfailed : forall e error,
            Some (mkError PlainError (stream_failure_prefix +:+ err_message e)) = Some error ->
            (exists cause,
                error = mkError PlainError (stream_failure_prefix +:+ err_message cause))
            /\ fallback_events = fallback_events
            /\ forall frames,
                 frames `prefix_of` fallback_events ->
                 frames `prefix_of` fallback_events
                 /\ text_deltas frames = [] /\ tool_use_starts frames = []).
  { intros e error [= <-]. split; [by exists e |]. split; [done |].
    intros frames H. split; [done |]. by apply recovery_prefix_silent. }
  destruct (stream_failure s) as [e |]; cbn.
  { split; [done | split]; [split; [by left | done] |]. apply Hfailed. }
  destruct (existsb has_tool_call_delta (stream_chunks s)); cbn.
  - destruct (reconstructCompletionFromChunks (stream_chunks s) ≫= transformResponse)
      as [m | e]; cbn.
    + split; [done | split]; [| done]. split; [done |]. by intros [? | [_ ?]].
    + split; [done | split]; [split; [by right | done] |]. apply Hfailed.
  - split; [done | split]; [| done]. split; [done |]. by intros [? | [? _]].
Qed.

(** X15 ([transformStreamResponse], [reconstructCompletionFromChunks],
    [transformResponse]).  A turn with a tool-call delta whose provider
    stream does not fail has exactly two outcomes.  When the indices of its
    tool calls leave no gap, the stream is closed without error and the
    consumer receives the replay of one message: the whole text as one
    block, then one tool-use block per call in index order.  The call of an
    index has the id of the first delta of that index, or [tool_<index>]
    when that delta has none (an id sent by a later delta is ignored), the
    name set last, and the argument fragments joined in arrival order, then
    repaired.  When an index is missing, the stream is errored: the consumer
    gets a prefix of the recovery sequence, possibly none of it, and no tool
    call. *)
Theorem tool_turn_replayed_or_replaced (s : ProviderStream) :
  stream_failure s = None ->
  existsb has_tool_call_delta (stream_chunks s) = true ->
  let out := transformStreamResponse s in
  match dense (provider_tool_calls (stream_chunks s)) with
  | Some calls =>
      closed out = true /\ errored out = None
      /\ (forall frames,
            receives out frames ->
            frames = message_events (replayed_message (stream_chunks s) calls))
      /\ (forall index call,
            calls !! index = Some call ->
            exists first rest,
              filter (fun d => delta_index d = index) (tool_call_deltas (stream_chunks s))
              = first :: rest
              /\ call_id call
                 = (if opt_truthy (tcd_id first) then default "" (tcd_id first)
                    else "tool_" +:+ pretty index)
              /\ call_name call = default "" (last (omap delta_name (first :: rest)))
              /\ call_arguments call
                 = concat_strings (omap delta_arguments (first :: rest)))
  | None =>
      None ∈ provider_tool_calls (stream_chunks s)
      /\ present (errored out) = true
      /\ closed out = false
      /\ forall frames,
           receives out frames ->
           frames `prefix_of` fallback_events /\ tool_use_starts frames = []
  end.
Proof.
  intros Hok Htool. cbn zeta. unfold receives. rewrite (tool_turn_state s Hok Htool).
  destruct (dense (provider_tool_calls (stream_chunks s))) as [calls |] eqn:Hd;
    cbn [emitted errored closed present].
  - repeat apply conj; try done.
    intros index call Hcall.
    pose proof (provider_tool_calls_lookup _ _ _ _ Hd Hcall) as H.
    unfold provider_tool_call, assemble in H.
    destruct (filter _ _) as [| first rest]; [discriminate |].
    exists first, rest. by simplify_eq.
  - repeat apply conj; try done.
    + by apply dense_None.
    + intros frames H. split; [done |]. by apply recovery_prefix_silent.
Qed.

End MoreStreamFacts.

Section MoreResponseFacts.
Context `{RT : JSRuntime}.

(** X16 ([transformStreamResponse], [outputChunksAsStream],
    [outputClaudeMessageAsStream], [handleStreamError]).  Whatever the
    consumer has read when the stream ends, it has been handed a well-formed
    message stream exactly when the provider stream does not fail and the
    turn either has a tool-call delta and tool-call indices without a gap,
    or has no tool-call delta and ends properly: one chunk carries a finish
    reason and no later chunk carries text or a finish reason.  In the two
    cases where the stream is errored the recovery frames do not make up for
    it, since the error drops those not read yet. *)
Theorem stream_events_well_formed (s : ProviderStream) :
  (forall frames,
      receives (transformStreamResponse s) frames -> protocol_valid frames = true)
  <-> stream_failure s = None
      /\ (if existsb has_tool_call_delta (stream_chunks s)
          then present (dense (provider_tool_calls (stream_chunks s))) = true
          else well_terminated (stream_chunks s) = true).
Proof.
  pose proof (transformStreamResponse_valid s) as Hvalid.
  destruct (stream_failure s) as [e |] eqn:Hfail.
  { rewrite (transformStreamResponse_failure s e Hfail). unfold receives. cbn.
    split; [| by intros [? _]].
    intros H. by specialize (H [] (prefix_nil _)). }
  destruct (existsb has_tool_call_delta (stream_chunks s)) eqn:Htool.
  - rewrite (tool_turn_state s Hfail Htool) in Hvalid |- *. unfold receives.
    destruct (dense (provider_tool_calls (stream_chunks s))) as [calls |]; cbn in *.
    + split; [done |]. by intros _ frames ->.
    + split; [| by intros [_ ?]].
      intros H. by specialize (H [] (prefix_nil _)).
  - rewrite transformStreamResponse_state in Hvalid |- *. cbn zeta in *.
    rewrite Hfail, Htool in Hvalid |- *. unfold receives. cbn in *.
    split.
    + intros H. split; [done |]. rewrite <- Hvalid. by apply H.
    + intros [_ H] frames ->. by rewrite Hvalid.
Qed.

(** X17 ([reconstructCompletionFromChunks]).  Without chunks the function
    throws.  Otherwise it returns one completion with one choice: the model
    of the first chunk, the texts of the chunks joined in arrival order
    (absent when empty), the tool calls by index with a hole at every index
    no delta uses (absent when there is no delta), and the last finish
    reason seen; the usage is zero. *)
Theorem reconstructCompletionFromChunks_rebuilds (chunks : list ChatCompletionChunk) :
  reconstructCompletionFromChunks chunks
  = match chunks with
    | [] => Throw no_chunks
    | first :: _ =>
        Ok (mkCompletion ("chatcmpl_" +:+ pretty Date_now) (chunk_model first)
              [mkChoice
                 (if str_truthy (provider_text chunks)
                  then Some (provider_text chunks) else None)
                 (match provider_tool_calls chunks with
                  | [] => None
                  | _ => Some (provider_tool_calls chunks)
                  end)
                 (last (omap chunk_finish chunks))]
              (Some (mkUsage 0 0)))
    end.
Proof.
  destruct chunks as [| first rest]; [reflexivity |].
  apply reconstructCompletionFromChunks_spec.
Qed.

(** X18 ([mapFinishReason]).  The whole table: a missing or empty reason
    and every reason that is not listed give [end_turn], the four listed
    reasons give their entry, and the only reasons that do not give a
    canonical stop reason are the names of the members of
    [Object.prototype]. *)
Theorem mapFinishReason_total_table (reason : option string) :
  mapFinishReason reason
  = match reason with
    | Some r =>
        if bool_decide (r ∈ Object_prototype) then PrototypeMember r
        else Canonical (finish_reason_table reason)
    | None => Canonical end_turn
    end.
Proof.
  destruct reason as [r |]; [| reflexivity].
  destruct (decide (r ∈ Object_prototype)) as [Hin | Hout].
  - rewrite bool_decide_eq_true_2 by done.
    unfold Object_prototype in Hin.
    repeat (apply elem_of_cons in Hin as [-> | Hin]; [vm_compute; reflexivity |]).
    by apply elem_of_nil in Hin.
  - rewrite bool_decide_eq_false_2 by done.
    apply mapFinishReason_table. by intros ? [= <-].
Qed.

End MoreResponseFacts.

Lemma transformStreamResponse_ends_witness :
  let e := mkError PlainError "socket hang up" in
  let out := @transformStreamResponse Reference.runtime
               (mkStream [text_chunk "Hi" None] (Some e)) in
  (exists cause,
      mkError PlainError (stream_failure_prefix +:+ "socket hang up")
      = mkError PlainError (stream_failure_prefix +:+ err_message cause))
  /\ emitted out = @fallback_events Reference.runtime
  /\ forall frames,
       receives out frames ->
       frames `prefix_of` @fallback_events Reference.runtime
       /\ text_deltas frames = [] /\ tool_use_starts frames = [].
Proof.
  intros e out.
  apply (proj2 (proj2 (@transformStreamResponse_ends Reference.runtime
                         (mkStream [text_chunk "Hi" None] (Some e))))).
  vm_compute. reflexivity.
Defined.

Lemma tool_turn_replayed_or_replaced_witness :
  let s := mkStream
             [tool_chunk 0 (Some "call_0") (Some "get_weather")
                (Some "{'city': 'Paris'}") None;
              tool_chunk 2 (Some "call_2") (Some "get_time") (Some "{}")
                (Some "tool_calls")] None in
  let out := @transformStreamResponse Reference.runtime s in
  None ∈ provider_tool_calls (stream_chunks s)
  /\ present (errored out) = true
  /\ closed out = false
  /\ forall frames,
       receives out frames ->
       frames `prefix_of` @fallback_events Reference.runtime
       /\ tool_use_starts frames = [].
Proof.
  intros s out.
  apply (@tool_turn_replayed_or_replaced Reference.runtime s eq_refl eq_refl).
Defined.

Lemma stream_events_well_formed_witness :
  let s := mkStream [text_chunk "Hi" None; text_chunk " there" (Some "stop")] None in
  protocol_valid (emitted (@transformStreamResponse Reference.runtime s)) = true.
Proof.
  intros s.
  apply (proj2 (@stream_events_well_formed Reference.runtime s)).
  - vm_compute. split; reflexivity.
  - vm_compute. reflexivity.
Defined.

(* ===================================================================== *)
(** ** Properties of [processRequest]                                     *)
(* ===================================================================== *)

Section ProcessRequestFacts.
Context `{RT : JSRuntime}.

Lemma str_truthy_true (s : string) : s <> "" -> str_truthy s = true.
Proof. unfold str_truthy. by destruct (String.eqb_spec s ""). Qed.

Lemma transformMessages_last (messages : list MessageParam)
  (system : option SystemParam) (role s : string) :
  last_text (transformMessages (messages ++ [mkMessageParam role (ContentString s)]) system)
  = Some s.
Proof.
  unfold transformMessages, last_text. rewrite transformMessages_loop.
  rewrite omap_app, fmap_app. cbn [omap list_omap transformMessage mp_content mp_role].
  cbn [fmap list_fmap]. rewrite app_assoc, last_snoc. reflexivity.
Qed.

(** X19 ([processRequest], [initializeClient], [getClient]).  Plain text
    goes through both translations unchanged.  With a client initialised
    for a non-empty base URL and a provider that answers with the text of
    the last message it is sent, a request that ends with a plain-text
    message gets that text back: as the single text block of the message
    when [stream] is off, as the single text delta of a well-formed,
    closed stream when it is on. *)
Theorem processRequest_echoes_text
  (apiKey baseUrl model role s : string) (claudeRequest : MessageCreateParamsBase)
  (messages : list MessageParam) :
  baseUrl <> "" ->
  s <> "" ->
  req_messages claudeRequest = Some (messages ++ [mkMessageParam role (ContentString s)]) ->
  returns (buildBaseParams claudeRequest model) = true ->
  exists this,
    initializeClient new_transformer apiKey (Some (Some baseUrl)) = Ok this
    /\ if req_stream claudeRequest then
         exists out,
           @processRequest RT echo this claudeRequest model = Ok (StreamReply out)
           /\ text_deltas (emitted out) = [s]
           /\ protocol_valid (emitted out) = true
           /\ closed out = true
           /\ errored out = None
       else
         exists message,
           @processRequest RT echo this claudeRequest model = Ok (MessageReply message)
           /\ msg_content message = [TextBlock s]
           /\ msg_model message = model
           /\ msg_stop_reason message = Some (Canonical end_turn).
Proof.
  intros Hurl Hs Hmessages Hbuild.
  unfold initializeClient. rewrite (str_truthy_true _ Hurl).
  eexists. split; [reflexivity |].
  destruct (buildBaseParams claudeRequest model) as [base | e] eqn:Hbase; [| done].
  destruct (buildBaseParams_inv _ _ _ Hbase) as (tools & tool_choice & Ebase & _).
  assert (Hlast : last_text (params_messages base) = Some s).
  { rewrite Ebase. cbn [params_messages]. rewrite Hmessages. cbn [default].
    apply transformMessages_last. }
  unfold processRequest, buildStreamingParams, buildNonStreamingParams.
  cbn [getClient transformer_client mbind exc_mbind exc_bind]. rewrite Hbase.
  cbn [mbind exc_mbind exc_bind create create_stream echo with_stream
       params_messages params_model].
  rewrite Hlast.
  destruct (req_stream claudeRequest).
  - eexists. split; [reflexivity |].
    split; [| split].
    + rewrite transformStreamResponse_emitted. cbn [stream_failure stream_chunks].
      cbn [existsb has_tool_call_delta chunk_choices head choice_delta delta_tool_calls
           orb bool_decide].
      rewrite bool_decide_eq_false_2 by (by intros [? ?]). cbn [orb].
      rewrite text_deltas_chunks_events. cbn [omap list_omap].
      unfold chunk_text. cbn. by rewrite (str_truthy_true _ Hs).
    + rewrite transformStreamResponse_valid. cbn. by rewrite ?orb_true_r.
    + rewrite transformStreamResponse_state. cbn.
      rewrite ?bool_decide_eq_false_2 by (by intros [? ?]). done.
  - unfold transformResponse.
    cbn [completion_choices head message_content message_tool_calls mbind exc_mbind
         exc_bind]. rewrite (str_truthy_true _ Hs).
    eexists. split; [reflexivity |]. cbn. rewrite Ebase. done.
Qed.

End ProcessRequestFacts.

Section RoundTripFacts.
Context `{RT : JSRuntime}.

Lemma as_param_no_tool_result (content : list ContentBlock) :
  existsb is_tool_result (as_param <$> content) = false.
Proof. induction content as [| [text | id name input] content IH]; done. Qed.

Lemma tool_use_blocks_parts (calls : list FunctionToolCall) :
  omap block_part (as_param <$> (tool_use_block <$> calls)) = [].
Proof. induction calls as [| call calls IH]; done. Qed.

Lemma tool_use_blocks_calls (calls : list FunctionToolCall) :
  Forall (fun call => call_name call <> "") calls ->
  omap block_call (as_param <$> (tool_use_block <$> calls))
  = (fun call =>
       mkCall (call_id call) (call_name call)
         (JSON_stringify (or_default (repaired_input call) empty_object))) <$> calls.
Proof.
  induction 1 as [| call calls Hname _ IH]; [done |].
  cbn [fmap list_fmap tool_use_block as_param].
  change (omap block_call (?b :: ?l))
    with (match block_call b with
          | Some y => y :: omap block_call l
          | None => omap block_call l
          end).
  cbn [block_call]. rewrite (str_truthy_true _ Hname). cbn [default].
  f_equal. exact IH.
Qed.

(** X20 ([transformResponse], [transformMessage]).  Tool-call ids survive
    both translations.  When a completion whose tool calls all have a name
    is translated, and the content of the resulting message is sent back as
    an assistant message of a later request, the provider message carries
    one tool call per original call, in order, with the same id and the same
    name, and the text of the completion as its only part. *)
Theorem tool_call_ids_round_trip
  (response : ChatCompletion) (choice : CompletionChoice)
  (calls : list FunctionToolCall) :
  head (completion_choices response) = Some choice ->
  message_tool_calls choice = Some (Some <$> calls) ->
  Forall (fun call => call_name call <> "") calls ->
  exists message content tool_calls,
    transformResponse response = Ok message
    /\ transformMessage
         (mkMessageParam "assistant" (ContentArray (as_param <$> msg_content message)))
       = Some (RoleMessage assistant content tool_calls)
    /\ call_id <$> default [] tool_calls = call_id <$> calls
    /\ call_name <$> default [] tool_calls = call_name <$> calls
    /\ content
       = (if opt_truthy (message_content choice)
          then Parts [TextPart (default "" (message_content choice))]
          else Plain "").
Proof.
  intros Hchoice Hcalls Hnames.
  unfold transformResponse. rewrite Hchoice, Hcalls, tool_use_blocks_dense.
  cbn [mbind exc_mbind exc_bind].
  eexists _, _, _. split; [reflexivity |].
  cbn [msg_content]. unfold transformMessage. cbn [mp_role mp_content].
  rewrite String.eqb_refl.
  rewrite (scan_blocks_completed _ _ _ (as_param_no_tool_result _)). cbn [app].
  change (map tool_use_block calls) with (tool_use_block <$> calls).
  rewrite !fmap_app, !omap_app, tool_use_blocks_parts, (tool_use_blocks_calls _ Hnames).
  rewrite app_nil_r.
  set (text := match message_content choice with
               | Some s => if str_truthy s then [TextBlock s] else []
               | None => []
               end).
  assert (Hcall : omap block_call (as_param <$> text) = []).
  { subst text. destruct (message_content choice) as [s |]; [| done].
    by destruct (str_truthy s). }
  assert (Hpart : omap block_part (as_param <$> text)
                  = if opt_truthy (message_content choice)
                    then [TextPart (default "" (message_content choice))] else []).
  { subst text. destruct (message_content choice) as [s |]; [| done].
    cbn. by destruct (str_truthy s). }
  rewrite Hcall, Hpart. cbn [app].
  assert (Hshape : forall (parts : list ContentPart) (l : list FunctionToolCall),
             Some (RoleMessage assistant
                     match parts with [] => Plain "" | _ :: _ => Parts parts end
                     match l with [] => None | _ :: _ => Some l end)
             = Some (RoleMessage assistant
                       match parts with [] => Plain "" | _ :: _ => Parts parts end
                       match l with [] => None | _ :: _ => Some l end)) by done.
  split; [apply Hshape |].
  set (resent := fun call =>
                   mkCall (call_id call) (call_name call)
                     (JSON_stringify (or_default (repaired_input call) empty_object))).
  assert (Hid : call_id <$> (resent <$> calls) = call_id <$> calls)
    by (by rewrite <- list_fmap_compose).
  assert (Hname : call_name <$> (resent <$> calls) = call_name <$> calls)
    by (by rewrite <- list_fmap_compose).
  repeat apply conj.
  - destruct calls; [done | exact Hid].
  - destruct calls; [done | exact Hname].
  - by destruct (opt_truthy (message_content choice)).
Qed.

End RoundTripFacts.

(* ===================================================================== *)
(** ** Further properties of KeyPoolManager                               *)
(* ===================================================================== *)

Module KeyPoolMoreFacts.
Import KeyPool KeyPoolInvariant.

Lemma new_manager_consistent (store : gmap string string) :
  consistent (new_manager store).
Proof. split; intros *; cbn; by rewrite lookup_empty. Qed.

Lemma getOrCreatePool_consistent (m : KeyPoolManager) (id ty : string) :
  consistent m -> consistent (snd (getOrCreatePool m id ty)).
Proof.
  intros [Hid Hone]. unfold getOrCreatePool.
  destruct (pools m !! id) as [pool |] eqn:Hpool; [done |].
  cbn. split; cbn [pools constructed].
  - intros id' pool'. destruct (decide (id' = id)) as [-> | Hne].
    + rewrite lookup_insert_eq. intros [= <-]. cbn. split; [done | lia].
    + rewrite lookup_insert_ne by done. intros H.
      destruct (Hid _ _ H). split; [done | lia].
  - intros id1 id2 pool1 pool2.
    destruct (decide (id1 = id)) as [-> | Hne1], (decide (id2 = id)) as [-> | Hne2];
      rewrite ?lookup_insert_eq, ?lookup_insert_ne by done; try done.
    + intros [= <-] H2 E. cbn in E. destruct (Hid _ _ H2). lia.
    + intros H1 [= <-] E. cbn in E. destruct (Hid _ _ H1). lia.
    + apply Hone.
Qed.

Lemma removePool_consistent (m : KeyPoolManager) (id : string) :
  consistent m -> consistent (removePool m id).
Proof.
  intros [Hid Hone]. split; cbn.
  - intros id' pool' [_ H]%lookup_delete_Some. by apply Hid.
  - intros id1 id2 pool1 pool2 [_ H1]%lookup_delete_Some [_ H2]%lookup_delete_Some.
    by apply Hone.
Qed.

Lemma perform_all_consistent (calls : list ManagerCall) (m : KeyPoolManager) :
  consistent m -> consistent (perform_all m calls).
Proof.
  revert m. induction calls as [| call calls IH]; intros m H; [done |].
  apply IH. destruct call; [by apply getOrCreatePool_consistent |].
  by apply removePool_consistent.
Qed.

(** X21 ([getOrCreatePool], [createPool], [removePool]).  Whatever calls
    a manager has served since its construction, every pool it holds is
    filed under the provider id the pool was built for, and no pool object
    is filed under two provider ids. *)
Theorem registry_consistent (store : gmap string string) (calls : list ManagerCall) :
  let m := perform_all (new_manager store) calls in
  (forall id pool, getPool m id = Some pool -> pool_providerId pool = id)
  /\ (forall id id' pool pool',
        getPool m id = Some pool -> getPool m id' = Some pool' ->
        pool_instance pool = pool_instance pool' -> id = id').
Proof.
  cbn zeta.
  destruct (perform_all_consistent calls _ (new_manager_consistent store)) as [Hid Hone].
  split; [| exact Hone]. intros id pool H. by destruct (Hid _ _ H).
Qed.

(** X22 ([removePool], [getPool], [getOrCreatePool]).  Removing a
    provider forgets its pool and deletes its entry [key_pool_<id>] of the
    durable store, and touches no other provider and no other entry.  A
    later [getOrCreatePool] for the same id builds a new pool, of the class
    that the type given then selects, and never hands back an object the
    manager held before the removal. *)
Theorem removePool_then_recreate
  (store : gmap string string) (calls : list ManagerCall) (id ty : string) :
  let m := perform_all (new_manager store) calls in
  let removed := removePool m id in
  let recreated := getOrCreatePool removed id ty in
  getPool removed id = None
  /\ kv removed !! ("key_pool_" +:+ id) = None
  /\ (forall id', id' <> id -> getPool removed id' = getPool m id')
  /\ (forall k, k <> "key_pool_" +:+ id -> kv removed !! k = kv m !! k)
  /\ getPool (snd recreated) id = Some (fst recreated)
  /\ pool_class (fst recreated)
     = (if String.eqb ty "google" then GeminiKeyPool else GenericKeyPool)
  /\ pool_providerId (fst recreated) = id
  /\ (forall id' old,
        getPool m id' = Some old -> pool_instance old <> pool_instance (fst recreated)).
Proof.
  cbn zeta. set (m := perform_all (new_manager store) calls).
  pose proof (perform_all_consistent calls _ (new_manager_consistent store)) as [Hid _].
  fold m in Hid.
  unfold getOrCreatePool, getPool. cbn [removePool pools kv constructed].
  rewrite lookup_delete_eq. cbn.
  repeat apply conj.
  - reflexivity.
  - apply lookup_delete_eq.
  - intros id' Hne. by rewrite lookup_delete_ne.
  - intros k Hne. by rewrite lookup_delete_ne.
  - by rewrite lookup_insert_eq.
  - reflexivity.
  - reflexivity.
  - intros id' old H. destruct (Hid _ _ H). lia.
Qed.

End KeyPoolMoreFacts.

(* ===================================================================== *)
(** ** Properties of the validators of the provider routes                *)
(* ===================================================================== *)

Lemma addProviderValidator_valid (value v : JSON) :
  addProviderValidator value = Valid v ->
  v = value
  /\ has_truthy value "name" = true /\ has_truthy value "type" = true
  /\ has_truthy value "endpoint" = true /\ has_truthy value "models" = true.
Proof.
  unfold addProviderValidator. intros H.
  destruct (has_truthy value "name"), (has_truthy value "type"),
    (has_truthy value "endpoint"), (has_truthy value "models");
    cbn in H; by destruct value; simplify_eq.
Qed.

Lemma editProviderValidator_valid (value v : JSON) :
  editProviderValidator value = Valid v ->
  v = value
  /\ has_truthy value "name" = true /\ has_truthy value "endpoint" = true
  /\ has_truthy value "models" = true /\ has_array value "models" = true.
Proof.
  unfold editProviderValidator. intros H.
  destruct (has_truthy value "name"), (has_truthy value "endpoint"),
    (has_truthy value "models"), (has_array value "models");
    cbn in H; by destruct value; simplify_eq.
Qed.

Lemma has_truthy_object (value : JSON) (k : string) :
  has_truthy value k = true -> exists props, value = JObj props.
Proof. destruct value; try done. by eexists. Qed.

(** X23 (validators of [POST /providers] and [PUT /providers/:id]).  A
    body that passes a validator is handed on unchanged and is an object.
    The two validators agree except on two points: only the first one asks
    for a [type], and only the second one asks for [models] to be an array,
    so a body with a [type] that passes the second passes the first, and a
    body whose [models] is an array that passes the first passes the
    second.  The body [null] is not answered with status 400 by either: the
    callback itself fails. *)
Theorem provider_validators_agree (value : JSON) :
  (forall v, addProviderValidator value = Valid v ->
             v = value /\ exists props, value = JObj props)
  /\ (forall v, editProviderValidator value = Valid v ->
                v = value /\ (exists props, value = JObj props)
                /\ has_array value "models" = true)
  /\ (editProviderValidator value = Valid value ->
      has_truthy value "type" = true ->
      addProviderValidator value = Valid value)
  /\ (addProviderValidator value = Valid value ->
      has_array value "models" = true ->
      editProviderValidator value = Valid value)
  /\ (value = JNull ->
      addProviderValidator value = Uncaught cannot_destructure
      /\ editProviderValidator value = Uncaught cannot_destructure).
Proof.
  repeat apply conj.
  - intros v (-> & Hn & _)%addProviderValidator_valid.
    split; [done |]. by apply has_truthy_object in Hn.
  - intros v (-> & Hn & _ & _ & Ha)%editProviderValidator_valid.
    split; [done |]. split; [| done]. by apply has_truthy_object in Hn.
  - intros (_ & Hn & He & Hm & _)%editProviderValidator_valid Ht.
    unfold addProviderValidator. rewrite Hn, Ht, He, Hm. cbn.
    by destruct (has_truthy_object _ _ Hn) as [props ->].
  - intros (_ & Hn & _ & He & Hm)%addProviderValidator_valid Ha.
    unfold editProviderValidator. rewrite Hn, He, Hm, Ha. cbn.
    by destruct (has_truthy_object _ _ Hn) as [props ->].
  - by intros ->.
Qed.

(* ===================================================================== *)
(** ** The further properties on concrete inputs                          *)
(* ===================================================================== *)

Lemma buildBaseParams_tools_witness :
  let claudeRequest :=
    mkRequest (Some [mkMessageParam "user" (ContentString "Hi")]) None (Some 16)
      None None None None (Some (mkToolChoice (Some "any") None)) false in
  let params :=
    mkParams "gpt-4" [TurnMessage (RoleMessage user (Plain "Hi") None)] (Some 16)
      None None None None None None in
  @buildBaseParams Reference.runtime claudeRequest "gpt-4" = Ok params
  /\ params_tool_choice params = None.
Proof.
  intros claudeRequest params.
  assert (H : @buildBaseParams Reference.runtime claudeRequest "gpt-4" = Ok params)
    by (vm_compute; reflexivity).
  split; [exact H |].
  apply (proj1 (proj2 (@buildBaseParams_tools Reference.runtime _ _ _ H))).
  reflexivity.
Defined.

Lemma buildBaseParams_fields_witness :
  let claudeRequest :=
    mkRequest (Some [mkMessageParam "user" (ContentString "Hi")]) None (Some 0)
      (Some (mkNum 0 0)) None (Some ["END"]) None None true in
  let params :=
    mkParams "gpt-4" [TurnMessage (RoleMessage user (Plain "Hi") None)] None
      (Some (mkNum 0 0)) None (Some (StopString "END")) None None None in
  @buildBaseParams Reference.runtime claudeRequest "gpt-4" = Ok params
  /\ @buildStreamingParams Reference.runtime claudeRequest "gpt-4"
     = Ok (with_stream params true).
Proof.
  intros claudeRequest params.
  assert (H : @buildBaseParams Reference.runtime claudeRequest "gpt-4" = Ok params)
    by (vm_compute; reflexivity).
  split; [exact H |].
  apply (@buildBaseParams_fields Reference.runtime _ _ _ H).
Defined.

Lemma processRequest_echoes_text_witness :
  let claudeRequest :=
    mkRequest (Some [mkMessageParam "user" (ContentString "Hello")])
      (Some (SystemString "Be brief.")) (Some 64) None None None None None false in
  exists this,
    initializeClient new_transformer "sk-test" (Some (Some "https://api.example/v1"))
    = Ok this
    /\ exists message,
         @processRequest Reference.runtime echo this claudeRequest "gpt-4"
         = Ok (MessageReply message)
         /\ msg_content message = [TextBlock "Hello"]
         /\ msg_model message = "gpt-4"
         /\ msg_stop_reason message = Some (Canonical end_turn).
Proof.
  intros claudeRequest.
  apply (@processRequest_echoes_text Reference.runtime
           "sk-test" "https://api.example/v1" "gpt-4" "user" "Hello" claudeRequest []).
  - discriminate.
  - discriminate.
  - reflexivity.
  - vm_compute. reflexivity.
Defined.

Lemma tool_call_ids_round_trip_witness :
  let choice :=
    mkChoice (Some "Checking.")
      (Some [Some (mkCall "call_1" "get_weather" "{'city': 'Paris'}")])
      (Some "tool_calls") in
  let response := mkCompletion "chatcmpl-1" "gpt-4" [choice] None in
  exists message content tool_calls,
    @transformResponse Reference.runtime response = Ok message
    /\ @transformMessage Reference.runtime
         (mkMessageParam "assistant" (ContentArray (as_param <$> msg_content message)))
       = Some (RoleMessage assistant content tool_calls)
    /\ call_id <$> default [] tool_calls = ["call_1"]
    /\ call_name <$> default [] tool_calls = ["get_weather"]
    /\ content = Parts [TextPart "Checking."].
Proof.
  intros choice response.
  apply (@tool_call_ids_round_trip Reference.runtime response choice
           [mkCall "call_1" "get_weather" "{'city': 'Paris'}"]).
  - reflexivity.
  - reflexivity.
  - constructor; [discriminate | constructor].
Defined.

Lemma registry_consistent_witness :
  KeyPool.pool_providerId (KeyPool.mkPool 1 KeyPool.GenericKeyPool "provider-2")
  = "provider-2".
Proof.
  apply (proj1 (KeyPoolMoreFacts.registry_consistent ∅
                  [KeyPool.GetOrCreatePool "provider-1" "google";
                   KeyPool.GetOrCreatePool "provider-2" "openai";
                   KeyPool.RemovePool "provider-1"])).
  vm_compute. reflexivity.
Defined.

Lemma removePool_then_recreate_witness :
  let m := KeyPool.perform_all (KeyPoolInvariant.new_manager ∅)
             [KeyPool.GetOrCreatePool "provider-1" "google";
              KeyPool.GetOrCreatePool "provider-2" "openai"] in
  KeyPool.getPool (KeyPool.removePool m "provider-1") "provider-2"
  = KeyPool.getPool m "provider-2".
Proof.
  intros m.
  apply (proj1 (proj2 (proj2
           (KeyPoolMoreFacts.removePool_then_recreate ∅
              [KeyPool.GetOrCreatePool "provider-1" "google";
               KeyPool.GetOrCreatePool "provider-2" "openai"] "provider-1" "openai")))).
  discriminate.
Defined.

Lemma provider_validators_agree_witness :
  let value :=
    JObj [("name", JStr "OpenAI"); ("type", JStr "openai");
          ("endpoint", JStr "https://api.openai.com/v1");
          ("models", JArr [])] in
  addProviderValidator value = Valid value.
Proof.
  intros value.
  apply (proj1 (proj2 (proj2 (provider_validators_agree value)))); reflexivity.
Defined.

(* ===================================================================== *)
(** ** Properties of the chunk-by-chunk [transformStreamResponse]         *)
(* ===================================================================== *)

Lemma summary_app (a b : list SSEEvent) :
  summary (a ++ b)
  = ((summary a).1.1 ++ (summary b).1.1,
     (summary a).1.2 + (summary b).1.2,
     (summary a).2 + (summary b).2).
Proof.
  unfold summary, starts_at, message_stops, text_deltas. cbn.
  by rewrite omap_app, !List.filter_app, !length_app.
Qed.

Lemma quiet_nil : quiet [].
Proof. reflexivity. Qed.

Lemma quiet_app (a b : list SSEEvent) : quiet a -> quiet b -> quiet (a ++ b).
Proof. unfold quiet. intros Ha Hb. by rewrite summary_app, Ha, Hb. Qed.

Lemma emits_ret {A} (a : A) (P : list SSEEvent -> Prop) : P [] -> emits (mret a) P.
Proof.
  intros HP c _. exists a, []. split; [| done].
  destruct c. unfold push. cbn. by rewrite app_nil_r.
Qed.

Lemma emits_enqueue (e : SSEEvent) (P : list SSEEvent -> Prop) :
  P [e] -> emits (enqueue e) P.
Proof.
  intros HP c Hc. exists (), [e]. split; [| done]. unfold enqueue. by rewrite Hc.
Qed.

Lemma emits_bind {A B} (m : Eff A) (k : A -> Eff B) (P Q R : list SSEEvent -> Prop) :
  emits m P -> (forall a, emits (k a) Q) ->
  (forall a b, P a -> Q b -> R (a ++ b)) ->
  emits (m ≫= k) R.
Proof.
  intros Hm Hk HR c Hc.
  destruct (Hm c Hc) as (a & e1 & Em & HP).
  destruct (Hk a (push c e1) Hc) as (b & e2 & Ek & HQ).
  exists b, (e1 ++ e2). split; [| by apply HR].
  unfold mbind, eff_mbind. rewrite Em, Ek. f_equal.
  unfold push. cbn. by rewrite app_assoc.
Qed.

Lemma emits_when (b : bool) (m : Eff unit) (P : list SSEEvent -> Prop) :
  (b = true -> emits m P) -> (b = false -> P []) -> emits (when b m) P.
Proof. destruct b; cbn; intros Hm HP; [by apply Hm | by apply emits_ret, HP]. Qed.

Lemma emits_try {A} (m : Eff A) (h : JSError -> Eff A) (P : list SSEEvent -> Prop) :
  emits m P -> emits (eff_try m h) P.
Proof.
  intros Hm c Hc. destruct (Hm c Hc) as (a & events & Em & HP).
  exists a, events. split; [| done]. unfold eff_try. by rewrite Em.
Qed.

Lemma emits_lift {A} (m : Exc A) (a : A) (P : list SSEEvent -> Prop) :
  m = Ok a -> P [] -> emits (lift m) P.
Proof.
  intros -> HP c _. exists a, []. split; [| done].
  destruct c. unfold lift, push. cbn. by rewrite app_nil_r.
Qed.

Lemma emits_quiet_bind {A B} (m : Eff A) (k : A -> Eff B) :
  emits m quiet -> (forall a, emits (k a) quiet) -> emits (m ≫= k) quiet.
Proof. intros Hm Hk. eapply emits_bind; [exact Hm | exact Hk | apply quiet_app]. Qed.

Module LiveStreamingFacts.
Import LiveStreaming.

Section LiveFacts.
Context `{RT : JSRuntime}.

Lemma fixStreamingToolArgument_total (fragment accumulated : string) :
  exists r, fixStreamingToolArgument fragment accumulated = Ok r.
Proof.
  unfold fixStreamingToolArgument.
  destruct (negb (str_truthy fragment)); [by eexists |].
  match goal with |- exists r, try_catch ?m _ = _ => destruct m end; by eexists.
Qed.

Lemma emit_tool_call_quiet (calls : JSMap FunctionToolCall) (toolCall : ToolCallDelta) :
  emits (emit_tool_call calls toolCall) quiet.
Proof.
  unfold emit_tool_call.
  match goal with |- emits (match ?x with _ => _ end) _ => destruct x as [current |] end;
    [| by apply emits_ret].
  apply emits_quiet_bind.
  { destruct (opt_truthy (tcd_function toolCall ≫= fd_name)); [| by apply emits_ret].
    apply emits_quiet_bind; [| intros; by apply emits_ret].
    apply emits_when; [| done]. intros _. by apply emits_enqueue. }
  intros current'. apply emits_quiet_bind; [| intros; by apply emits_ret].
  destruct (opt_truthy (tcd_function toolCall ≫= fd_arguments)); [| by apply emits_ret].
  apply emits_quiet_bind; [| intros; by apply emits_ret].
  apply emits_try.
  destruct (fixStreamingToolArgument_total
              (default "" (tcd_function toolCall ≫= fd_arguments))
              (call_arguments current')) as [fixed Hfixed].
  eapply emits_quiet_bind; [by eapply emits_lift |].
  intros. by apply emits_enqueue.
Qed.

Lemma emit_tool_calls_quiet (toolCalls : list ToolCallDelta)
  (calls : JSMap FunctionToolCall) :
  emits (emit_tool_calls calls toolCalls) quiet.
Proof.
  revert calls. induction toolCalls as [| toolCall rest IH]; intros calls; cbn.
  - by apply emits_ret.
  - apply emits_quiet_bind; [apply emit_tool_call_quiet | exact IH].
Qed.

Lemma end_tool_call_quiet (entry : nat * FunctionToolCall) :
  emits (end_tool_call entry) quiet.
Proof.
  destruct entry as [index data]. unfold end_tool_call.
  destruct (negb (str_truthy (call_name data))); [by apply emits_enqueue |].
  apply emits_quiet_bind; [| intros; by apply emits_enqueue].
  apply emits_when; [| done]. intros _. apply emits_try.
  destruct (safeParseJson_total (call_arguments data) empty_object) as [v Hv].
  eapply emits_quiet_bind; [by eapply emits_lift |].
  intros fixedInput. destruct (is_object fixedInput); by apply emits_enqueue.
Qed.

Lemma end_tool_calls_quiet (entries : JSMap FunctionToolCall) :
  emits (end_tool_calls entries) quiet.
Proof.
  induction entries as [| entry rest IH]; cbn; [by apply emits_ret |].
  apply emits_quiet_bind; [apply end_tool_call_quiet | intros; exact IH].
Qed.

Lemma summary_quiet_r (a b : list SSEEvent) (x : list string * nat * nat) :
  summary a = x -> quiet b -> summary (a ++ b) = x.
Proof.
  unfold quiet. intros <- Hb. rewrite summary_app, Hb. cbn.
  by rewrite app_nil_r, !Nat.add_0_r.
Qed.

Lemma summary_quiet_l (a b : list SSEEvent) (x : list string * nat * nat) :
  quiet a -> summary b = x -> summary (a ++ b) = x.
Proof. unfold quiet. intros Ha <-. by rewrite summary_app, Ha. Qed.

Lemma emits_summary_l {A B} (m : Eff A) (k : A -> Eff B) (x : list string * nat * nat) :
  emits m quiet -> (forall a, emits (k a) (fun events => summary events = x)) ->
  emits (m ≫= k) (fun events => summary events = x).
Proof.
  intros Hm Hk. eapply emits_bind; [exact Hm | exact Hk |].
  intros a b Ha Hb. by apply summary_quiet_l.
Qed.

Lemma emits_summary_r {A B} (m : Eff A) (k : A -> Eff B) (x : list string * nat * nat) :
  emits m (fun events => summary events = x) -> (forall a, emits (k a) quiet) ->
  emits (m ≫= k) (fun events => summary events = x).
Proof.
  intros Hm Hk. eapply emits_bind; [exact Hm | exact Hk |].
  intros a b Ha Hb. by apply summary_quiet_r.
Qed.

Lemma emit_chunk_summary (locals : Locals) (chunk : ChatCompletionChunk) :
  emits (emit_chunk locals chunk)
    (fun events =>
       summary events
       = (match chunk_text chunk with Some t => [t] | None => [] end,
          if present (chunk_text chunk) then 1 else 0, 0)).
Proof.
  unfold emit_chunk, chunk_text.
  apply emits_summary_l.
  { apply emits_when; [| done]. intros _. by apply emits_enqueue. }
  intros _. destruct (head (chunk_choices chunk)) as [choice |]; [| by apply emits_ret].
  apply emits_summary_r.
  { apply emits_when.
    - intros Hc. rewrite Hc.
      change (Nat.eqb contentIndex 0) with true. cbn [when].
      eapply (emits_bind _ _
                (fun a => a = [content_block_start contentIndex (TextBlock "")])
                (fun b => b = [content_block_delta contentIndex
                                 (text_delta (default ""
                                    (delta_content (choice_delta choice))))])).
      + by apply emits_enqueue.
      + intros. by apply emits_enqueue.
      + intros a b -> ->. destruct (delta_content (choice_delta choice)); done.
    - by intros ->. }
  intros _. apply emits_quiet_bind.
  { destruct (delta_tool_calls (choice_delta choice));
      [apply emit_tool_calls_quiet | by apply emits_ret]. }
  intros calls. apply emits_quiet_bind; [| intros; by apply emits_ret].
  apply emits_when; [| done]. intros _.
  apply emits_quiet_bind.
  { apply emits_when; [| done]. intros _. by apply emits_enqueue. }
  intros _. apply emits_quiet_bind; [apply end_tool_calls_quiet |].
  intros _. by apply emits_enqueue.
Qed.

Lemma emit_chunks_summary (chunks : list ChatCompletionChunk) (locals : Locals) :
  emits (emit_chunks locals chunks)
    (fun events =>
       summary events
       = (omap chunk_text chunks, length (omap chunk_text chunks), 0)).
Proof.
  revert locals. induction chunks as [| chunk rest IH]; intros locals; cbn [emit_chunks].
  - by apply emits_ret.
  - eapply emits_bind; [apply emit_chunk_summary | intros; apply IH |].
    intros a b Ha Hb. rewrite summary_app, Ha, Hb. cbn.
    by destruct (chunk_text chunk).
Qed.

(** The controller once [start] is over, in full. *)
Lemma transformStreamResponse_live (s : ProviderStream) :
  let events :=
    emitted (snd (emit_chunks (mkLocals false []) (stream_chunks s) fresh_controller)) in
  summary events
  = (omap chunk_text (stream_chunks s), length (omap chunk_text (stream_chunks s)), 0)
  /\ transformStreamResponse s
     = match stream_failure s with
       | None => mkController (events ++ [message_stop]) None true
       | Some error => mkController events (Some error) false
       end.
Proof.
  destruct (emit_chunks_summary (stream_chunks s) (mkLocals false []) fresh_controller
              eq_refl) as ([] & events & Hrun & Hsum).
  cbn zeta. rewrite Hrun. cbn [snd push emitted fresh_controller app].
  split; [exact Hsum |].
  unfold transformStreamResponse, start, eff_finally, eff_try.
  unfold mbind at 1. unfold eff_mbind. rewrite Hrun.
  by destruct (stream_failure s).
Qed.

Lemma message_stops_prefix (frames events : list SSEEvent) :
  frames `prefix_of` events -> message_stops frames <= message_stops events.
Proof.
  intros [rest ->]. unfold message_stops. rewrite List.filter_app, length_app. lia.
Qed.

(** X24 (chunk-by-chunk [transformStreamResponse]).  The text of the
    provider is forwarded as it arrives, whether or not the turn has tool
    calls, and none of the events generated for tool calls is a text delta.
    When the provider stream ends normally, the text deltas the consumer
    receives are exactly the non-empty contents of the chunks, in order.
    When it fails, the frames not read yet are dropped with the error, so
    the consumer has received the first of these contents only: a prefix of
    them, in order. *)
Theorem live_text_forwarded (s : ProviderStream) (frames : list SSEEvent) :
  receives (transformStreamResponse s) frames ->
  text_deltas frames `prefix_of` omap chunk_text (stream_chunks s)
  /\ (stream_failure s = None ->
      text_deltas frames = omap chunk_text (stream_chunks s)
      /\ concat_strings (text_deltas frames) = provider_text (stream_chunks s)).
Proof.
  destruct (transformStreamResponse_live s) as (Hsum & ->).
  set (events := emitted (snd (emit_chunks _ _ _))) in *.
  assert (H : text_deltas events = omap chunk_text (stream_chunks s))
    by (by injection Hsum).
  unfold receives.
  destruct (stream_failure s) as [error |]; cbn [emitted errored].
  - intros Hprefix. split; [| done].
    rewrite <- H. by apply text_deltas_prefix.
  - intros ->.
    assert (E : text_deltas (events ++ [message_stop]) = omap chunk_text (stream_chunks s)).
    { rewrite text_deltas_app, H. cbn. by rewrite app_nil_r. }
    rewrite E. split; [done |]. by intros _.
Qed.

(** X25 (chunk-by-chunk [transformStreamResponse]).  When the provider
    stream ends normally the stream is closed without error and the consumer
    receives exactly one [message_stop], as the last event, even if no chunk
    carried a finish reason.  When the provider stream fails, the stream is
    errored with the cause itself and is not closed, and no recovery event
    is enqueued: the consumer gets part of what it would have received
    without the failure, a prefix that stops before the final
    [message_stop] and, the error dropping the frames not read yet, possibly
    earlier. *)
Theorem live_stream_ends (s : ProviderStream) :
  let out := transformStreamResponse s in
  match stream_failure s with
  | None =>
      closed out = true /\ errored out = None
      /\ forall frames,
           receives out frames ->
           last frames = Some message_stop /\ message_stops frames = 1
  | Some error =>
      closed out = false /\ errored out = Some error
      /\ forall frames,
           receives out frames ->
           message_stops frames = 0
           /\ frames `prefix_of`
                emitted (transformStreamResponse (mkStream (stream_chunks s) None))
           /\ frames <> emitted (transformStreamResponse (mkStream (stream_chunks s) None))
  end.
Proof.
  cbn zeta. destruct (transformStreamResponse_live s) as (Hsum & ->).
  destruct (transformStreamResponse_live (mkStream (stream_chunks s) None)) as (_ & E).
  cbn [stream_chunks stream_failure] in E.
  set (events := emitted (snd (emit_chunks _ _ _))) in *.
  assert (H : message_stops events = 0) by (by injection Hsum).
  unfold receives.
  destruct (stream_failure s) as [error |]; cbn [emitted closed errored].
  - split; [done | split]; [done |]. intros frames Hprefix. rewrite E. cbn [emitted].
    assert (Hnone : message_stops frames = 0).
    { apply message_stops_prefix in Hprefix. lia. }
    repeat apply conj.
    + exact Hnone.
    + by apply prefix_app_r.
    + intros ->. unfold message_stops in Hnone, H.
      rewrite List.filter_app, length_app in Hnone. cbn in Hnone. lia.
  - split; [done | split]; [done |]. intros frames ->. split.
    + by rewrite last_snoc.
    + unfold message_stops in *. by rewrite List.filter_app, length_app, H.
Qed.

Lemma protocol_step_room (st st' : ProtocolState) (e : SSEEvent) :
  protocol_step st e = Some st' -> starts_at 0 [e] + room st' <= room st.
Proof.
  destruct st as [| next seen | i k seen | i k seen | |], e as [m | j b | j d | j | r |];
    cbn; try discriminate.
  - intros [= <-]. cbn. lia.
  - destruct (block_kind b), next as [| next], j as [| j]; cbn;
      try discriminate; destruct seen; cbn; try discriminate;
      try (intros [= <-]; cbn; lia);
      destruct (j =? next); cbn; try discriminate; intros [= <-]; cbn; lia.
  - intros [= <-]. destruct next; cbn; lia.
  - destruct (i =? j), (kind_eqb k (delta_kind d)); cbn; try discriminate.
    intros [= <-]. cbn. lia.
  - destruct (i =? j), (kind_eqb k (delta_kind d)); cbn; try discriminate.
    intros [= <-]. cbn. lia.
  - destruct (i =? j); cbn; try discriminate. intros [= <-]. cbn. lia.
  - intros [= <-]. cbn. lia.
Qed.

Lemma protocol_run_room (events : list SSEEvent) (st st' : ProtocolState) :
  protocol_run st events = Some st' -> starts_at 0 events + room st' <= room st.
Proof.
  revert st. induction events as [| e rest IH]; intros st; cbn [protocol_run].
  - intros [= <-]. cbn. lia.
  - destruct (protocol_step st e) as [st1 |] eqn:Hstep; [| discriminate].
    intros Hrun. apply IH in Hrun. apply protocol_step_room in Hstep.
    change (e :: rest) with ([e] ++ rest).
    unfold starts_at in *. rewrite List.filter_app, length_app. lia.
Qed.

(** X26 (chunk-by-chunk [transformStreamResponse]).  [contentIndex] is
    never advanced, so the text block of index 0 is opened again by every
    chunk that carries text.  A turn whose text arrives in two chunks or
    more is therefore never relayed as a well-formed stream. *)
Theorem live_text_block_reopened (s : ProviderStream) :
  starts_at 0 (emitted (transformStreamResponse s))
  = length (omap chunk_text (stream_chunks s))
  /\ (protocol_valid (emitted (transformStreamResponse s)) = true ->
      length (omap chunk_text (stream_chunks s)) <= 1).
Proof.
  destruct (transformStreamResponse_live s) as (Hsum & E).
  set (events := emitted (snd (emit_chunks _ _ _))) in *.
  assert (H : starts_at 0 events = length (omap chunk_text (stream_chunks s)))
    by (by injection Hsum).
  assert (Hout : starts_at 0 (emitted (transformStreamResponse s))
                 = length (omap chunk_text (stream_chunks s))).
  { rewrite E. destruct (stream_failure s); cbn [emitted]; [exact H |].
    unfold starts_at in *. rewrite List.filter_app, length_app, H. cbn. lia. }
  split; [exact Hout |].
  unfold protocol_valid. intros Hvalid.
  destruct (protocol_run AwaitStart (emitted (transformStreamResponse s)))
    as [st |] eqn:Hrun; [| discriminate].
  apply protocol_run_room in Hrun. rewrite Hout in Hrun. cbn in Hrun. lia.
Qed.

End LiveFacts.

End LiveStreamingFacts.

Lemma live_text_forwarded_witness :
  let s := mkStream [text_chunk "Hi" None; text_chunk " there" (Some "stop")] None in
  let frames := emitted (@LiveStreaming.transformStreamResponse Reference.runtime s) in
  text_deltas frames `prefix_of` ["Hi"; " there"]
  /\ (stream_failure s = None ->
      text_deltas frames = ["Hi"; " there"]
      /\ concat_strings (text_deltas frames) = "Hi there").
Proof.
  intros s frames.
  apply (@LiveStreamingFacts.live_text_forwarded Reference.runtime s frames).
  vm_compute. reflexivity.
Defined.

Lemma live_stream_ends_witness :
  let e := mkError PlainError "socket hang up" in
  let out := @LiveStreaming.transformStreamResponse Reference.runtime
               (mkStream [text_chunk "Hi" None] (Some e)) in
  let whole := emitted (@LiveStreaming.transformStreamResponse Reference.runtime
                          (mkStream [text_chunk "Hi" None] None)) in
  closed out = false /\ errored out = Some e
  /\ forall frames,
       receives out frames ->
       message_stops frames = 0 /\ frames `prefix_of` whole /\ frames <> whole.
Proof.
  intros e out whole.
  apply (@LiveStreamingFacts.live_stream_ends Reference.runtime
           (mkStream [text_chunk "Hi" None] (Some e))).
Defined.

Lemma live_text_block_reopened_witness :
  length (omap chunk_text [text_chunk "Hi" (Some "stop")]) <= 1.
Proof.
  apply (proj2 (@LiveStreamingFacts.live_text_block_reopened Reference.runtime
                  (mkStream [text_chunk "Hi" (Some "stop")] None))).
  vm_compute. reflexivity.
Defined.

(* ===================================================================== *)
(** ** The outcome of [transformResponse]                                 *)
(* ===================================================================== *)

Section TransformResponseFacts.
Context `{RT : JSRuntime}.

(** X27 ([transformResponse]).  The function throws exactly when the
    completion has no choice or the array of tool calls of its first choice
    has a hole.  Otherwise the message has the text of the choice as its
    first block when the text is not empty, then one tool-use block per
    tool call, in order, with the id and the name of the call and its
    repaired arguments; the stop reason is the mapped finish reason and the
    token counts are those of the usage, or zero without usage. *)
Theorem transformResponse_outcome (response : ChatCompletion) :
  transformResponse response
  = match head (completion_choices response) with
    | None => Throw undefined_read
    | Some choice =>
        match dense (default [] (message_tool_calls choice)) with
        | None => Throw undefined_read
        | Some calls =>
            Ok (mkMessage ("msg_" +:+ pretty Date_now) (completion_model response)
                  ((if opt_truthy (message_content choice)
                    then [TextBlock (default "" (message_content choice))]
                    else [])
                   ++ map tool_use_block calls)
                  (Some (mapFinishReason (finish_reason choice)))
                  (from_option prompt_tokens 0 (completion_usage response))
                  (from_option completion_tokens 0 (completion_usage response)))
        end
    end.
Proof.
  unfold transformResponse.
  destruct (head (completion_choices response)) as [choice |]; [| reflexivity].
  assert (Htext : match message_content choice with
                  | Some s => if str_truthy s then [TextBlock s] else []
                  | None => []
                  end
                  = if opt_truthy (message_content choice)
                    then [TextBlock (default "" (message_content choice))]
                    else []).
  { destruct (message_content choice) as [s |]; [| reflexivity]. cbn.
    by destruct (str_truthy s). }
  rewrite Htext.
  destruct (message_tool_calls choice) as [toolCalls |]; [| reflexivity].
  change (default [] (Some toolCalls)) with toolCalls.
  rewrite tool_use_blocks_sparse. by destruct (dense toolCalls).
Qed.

End TransformResponseFacts.
